(** * shellai: provider layer, credential vault and command lifecycle

    A shallow embedding of the TypeScript sources of shellai
    (utils/provider-service.ts, utils/credentials.ts,
    utils/command-executor.ts, commands/gen-script.ts and the shell
    command generator that carries [validateCommand]) together with the
    properties its design document states about them.

    Conventions of the embedding.
    - A JavaScript string is the list of its UTF-16 code units, each a
      number in [N].  String constants of the sources are written with
      [js "..."], which maps every character of a Rocq literal to its code.
    - A [Buffer] is a list of bytes ([Byte.byte]).
    - An async generator is the finite list of the fragments it yields
      together with the value it throws, if it throws.
    - The user, the process launcher and the remote model are oracles: total
      functions of the history of events so far and of the request.  Every
      interaction is appended to that history, so that a run of a function
      is a pair of its outcome and the history it leaves. *)

From Stdlib Require Import ZArith NArith List String Ascii Bool Lia DecimalString.
From stdpp Require Import base option list gmap.
From Equations Require Import Equations.
Import ListNotations.

Local Open Scope N_scope.
Local Open Scope list_scope.

(** ** JavaScript strings *)

Module JS.

Definition code_unit := N.
Definition jsstring := list code_unit.

(** The code units of a literal of the sources. *)
Definition js (s : string) : jsstring :=
  List.map N_of_ascii (list_ascii_of_string s).

(** ECMAScript [WhiteSpace] and [LineTerminator]: the class [\s] of regular
    expressions and the characters removed by [String.prototype.trim]. *)
Definition is_space (c : code_unit) : bool :=
  ((9 <=? c) && (c <=? 13)) || (c =? 32) || (c =? 160) || (c =? 5760)
  || ((8192 <=? c) && (c <=? 8202)) || (c =? 8232) || (c =? 8233)
  || (c =? 8239) || (c =? 8287) || (c =? 12288) || (c =? 65279).

(** [LineTerminator]: what [.] does not match. *)
Definition is_line_terminator (c : code_unit) : bool :=
  (c =? 10) || (c =? 13) || (c =? 8232) || (c =? 8233).

Definition is_digit (c : code_unit) : bool := (48 <=? c) && (c <=? 57).

(** The class [\w]: [A-Za-z0-9_]. *)
Definition is_word (c : code_unit) : bool :=
  ((65 <=? c) && (c <=? 90)) || ((97 <=? c) && (c <=? 122))
  || is_digit c || (c =? 95).

Fixpoint drop_spaces (s : jsstring) : jsstring :=
  match s with
  | c :: r => if is_space c then drop_spaces r else s
  | [] => []
  end.

(** [s.trim()] *)
Definition trim (s : jsstring) : jsstring :=
  rev (drop_spaces (rev (drop_spaces s))).

(** [s.replace(/\s+/g, " ")]: every maximal run of white space becomes one
    space.  [in_run] tells that the previous code unit was white space. *)
Fixpoint collapse_from (in_run : bool) (s : jsstring) : jsstring :=
  match s with
  | [] => []
  | c :: r =>
      if is_space c
      then (if in_run then collapse_from true r else 32 :: collapse_from true r)
      else c :: collapse_from false r
  end.

Definition collapse_spaces (s : jsstring) : jsstring := collapse_from false s.

(** [s.replace(/\s+/g, " ").trim()], the clean-up applied to every reply
    that is to become a command. *)
Definition normalize (s : jsstring) : jsstring := trim (collapse_spaces s).

(** [s.split(sep)] for a separator of one code unit; the result is never
    empty. *)
Fixpoint split (sep : code_unit) (s : jsstring) : list jsstring :=
  match s with
  | [] => [[]]
  | c :: r =>
      if c =? sep then [] :: split sep r
      else match split sep r with
           | h :: t => (c :: h) :: t
           | [] => [[c]]
           end
  end.

(** [a.slice(1)] *)
Definition slice1 {A} (l : list A) : list A := List.tl l.

(** [a[0]] of an array of strings known to be non-empty. *)
Definition first (l : list jsstring) : jsstring := List.hd [] l.

Fixpoint starts_with (p s : jsstring) : bool :=
  match p, s with
  | [], _ => true
  | a :: p', b :: s' => (a =? b) && starts_with p' s'
  | _ :: _, [] => false
  end.

(** [s.indexOf(p)]: the part of [s] before the first occurrence of [p] and
    the part after it. *)
Fixpoint find_first (p s : jsstring) : option (jsstring * jsstring) :=
  if starts_with p s then Some ([], skipn (length p) s)
  else match s with
       | [] => None
       | c :: r =>
           match find_first p r with
           | Some (before, after) => Some (c :: before, after)
           | None => None
           end
       end.

(** [GetSubstitution] of ECMAScript for a match without captures: in the
    replacement text, [$$] stands for a dollar sign, [$&] for the matched
    text, [$`] for the text before the match and [$'] for the text after it;
    every other code unit stands for itself. *)
Fixpoint get_substitution (matched before after repl : jsstring) : jsstring :=
  match repl with
  | [] => []
  | c :: r =>
      if c =? 36 then
        match r with
        | d :: r' =>
            if d =? 36 then 36 :: get_substitution matched before after r'
            else if d =? 38 then matched ++ get_substitution matched before after r'
            else if d =? 96 then before ++ get_substitution matched before after r'
            else if d =? 39 then after ++ get_substitution matched before after r'
            else 36 :: get_substitution matched before after r
        | [] => [36]
        end
      else c :: get_substitution matched before after r
  end.

(** [s.replace(p, repl)] with a string pattern: only the first occurrence is
    replaced, and a string without the pattern is returned unchanged. *)
Definition replace (s p repl : jsstring) : jsstring :=
  match find_first p s with
  | Some (before, after) => before ++ get_substitution p before after repl ++ after
  | None => s
  end.

(** [String(n)] for a non-negative integer. *)
Definition of_N (n : N) : jsstring := js (NilZero.string_of_uint (N.to_uint n)).

(** [a === b] on strings. *)
Fixpoint eqb (a b : jsstring) : bool :=
  match a, b with
  | [], [] => true
  | x :: a', y :: b' => (x =? y) && eqb a' b'
  | _, _ => false
  end.

(** [a + b + ...] *)
Definition cat (parts : list jsstring) : jsstring := List.concat parts.

(** [a || b] on strings: the empty string is the only falsy one. *)
Definition or_else (a b : jsstring) : jsstring :=
  match a with [] => b | _ => a end.

End JS.
Import JS.

(** ** Regular expressions

    The fragment of ECMAScript regular expressions the sources use, without
    flags: literals, classes, [.], concatenation, alternation, [*], [+] and
    the assertions [^], [$] and [\b].  [RegExp.prototype.test] only asks
    whether some match exists, so the matcher explores every way of matching
    and the order in which a backtracking engine would try them plays no
    role. *)

Module Regex.

Inductive regex : Type :=
| Eps
| Chr (c : code_unit)
| Class (member : code_unit -> bool)
| Dot
| Seq (r1 r2 : regex)
| Alt (r1 r2 : regex)
| Star (r : regex)
| Plus (r : regex)
| Bol
| Eol
| WordB.

Definition word_before (prev : option code_unit) : bool :=
  match prev with Some c => is_word c | None => false end.

Definition word_after (s : jsstring) : bool :=
  match s with c :: _ => is_word c | [] => false end.

(** [matches_at r prev s k]: [r] matches a prefix of [s], where [prev] is the
    code unit just before [s] in the subject ([None] at its start), and the
    continuation [k] accepts what follows.  An iteration of [*] that consumes
    nothing is refused, as in ECMAScript, which bounds the iterations by the
    length of the input. *)
Fixpoint matches_at (r : regex) (prev : option code_unit) (s : jsstring)
    (k : option code_unit -> jsstring -> bool) {struct r} : bool :=
  match r with
  | Eps => k prev s
  | Chr c =>
      match s with
      | x :: s' => (x =? c) && k (Some x) s'
      | [] => false
      end
  | Class member =>
      match s with
      | x :: s' => member x && k (Some x) s'
      | [] => false
      end
  | Dot =>
      match s with
      | x :: s' => negb (is_line_terminator x) && k (Some x) s'
      | [] => false
      end
  | Seq r1 r2 => matches_at r1 prev s (fun p' s' => matches_at r2 p' s' k)
  | Alt r1 r2 => matches_at r1 prev s k || matches_at r2 prev s k
  | Star r' =>
      (fix iterate (fuel : nat) (p : option code_unit) (t : jsstring) : bool :=
         match fuel with
         | O => k p t
         | S fuel' =>
             matches_at r' p t
               (fun p' t' => (length t' <? length t)%nat && iterate fuel' p' t')
             || k p t
         end) (length s) prev s
  | Plus r' =>
      matches_at r' prev s
        (fun q u =>
           (fix iterate (fuel : nat) (p : option code_unit) (t : jsstring) : bool :=
              match fuel with
              | O => k p t
              | S fuel' =>
                  matches_at r' p t
                    (fun p' t' => (length t' <? length t)%nat && iterate fuel' p' t')
                  || k p t
              end) (length u) q u)
  | Bol => match prev with None => k prev s | Some _ => false end
  | Eol => match s with [] => k prev s | _ :: _ => false end
  | WordB => xorb (word_before prev) (word_after s) && k prev s
  end.

(** A match starting at the current position or at a later one. *)
Fixpoint search (r : regex) (prev : option code_unit) (s : jsstring) : bool :=
  matches_at r prev s (fun _ _ => true)
  || match s with
     | c :: s' => search r (Some c) s'
     | [] => false
     end.

(** [r.test(s)] *)
Definition test (r : regex) (s : jsstring) : bool := search r None s.

(** A literal run of characters. *)
Definition Lit (s : string) : regex :=
  fold_right (fun c r => Seq (Chr c) r) Eps (js s).

(** A class listing its members, [[...]]. *)
Definition OneOf (s : string) : regex :=
  Class (fun c => existsb (N.eqb c) (js s)).

Definition Range (lo hi : string) : regex :=
  Class (fun c => existsb (fun l => l <=? c) (js lo) && existsb (fun h => c <=? h) (js hi)).

Definition Space : regex := Class is_space.
Definition Word : regex := Class is_word.
Definition Digit : regex := Class is_digit.

(** Concatenation of a list of pieces. *)
Definition Cat (rs : list regex) : regex := fold_right Seq Eps rs.

End Regex.
Import Regex.

(** ** Provider client (utils/provider-service.ts) *)

Module Provider.

(** Modelled from the spec: the [Message] type of utils/types.ts, which the
    sources import and the specification gives as
    [{ role: user | assistant | system, content: text }]. *)
Inductive Role : Type := user | assistant | system.

Record Message : Type := { role : Role; content : jsstring }.

Definition role_name (r : Role) : jsstring :=
  match r with
  | user => js "user"
  | assistant => js "assistant"
  | system => js "system"
  end.

(** What a [throw] raises: an [Error] with its message, or some other
    value. *)
Inductive Thrown : Type :=
| JsError (message : jsstring)
| NonError.

(** [error instanceof Error ? error.message : fallback] *)
Definition message_or (fallback : jsstring) (e : Thrown) : jsstring :=
  match e with JsError m => m | NonError => fallback end.

(** A run of an async generator of strings: the fragments it yielded, in
    order, and what it threw, if it did not return. *)
Record Stream : Type := { chunks : list jsstring; failure : option Thrown }.

(** *** Wire shapes of the three SDKs *)

(** A stream handed out by an SDK: the events it delivers and what it
    throws after them, if the transport breaks.  A request that fails before
    any event is a broken stream without events. *)
Record Wire (E : Type) : Type := { events : list E; broken : option Thrown }.
Arguments events {E} _.
Arguments broken {E} _.

Inductive AnthropicDelta : Type :=
| TextDelta (text : jsstring)
| InputJsonDelta (partial_json : jsstring)
| ThinkingDelta (thinking : jsstring)
| SignatureDelta (signature : jsstring).

(** The events of a streamed Anthropic message; only [content_block_delta]
    carries a typed [delta]. *)
Inductive AnthropicEvent : Type :=
| MessageStart
| MessageDelta
| MessageStop
| ContentBlockStart
| ContentBlockDelta (delta : AnthropicDelta)
| ContentBlockStop.

Record AnthropicParam : Type := { a_role : jsstring; a_content : jsstring }.

Record AnthropicRequest : Type :=
  { a_model : jsstring;
    a_messages : list AnthropicParam;
    a_max_tokens : N;
    a_stream : bool }.

Record OpenAIDelta : Type := { d_content : option jsstring }.
Record OpenAIChoice : Type := { c_delta : option OpenAIDelta }.
Record OpenAIChunk : Type := { choices : list OpenAIChoice }.

Record OpenAIParam : Type := { o_role : jsstring; o_content : jsstring }.

Record OpenAIRequest : Type :=
  { o_model : jsstring;
    o_messages : list OpenAIParam;
    o_stream : bool }.

(** A streamed Gemini chunk: its [text()] accessor returns the text of the
    chunk or throws (a blocked candidate). *)
Inductive GeminiChunk : Type :=
| GeminiText (text : jsstring)
| GeminiBlocked (e : Thrown).

Record GeminiPart : Type := { p_text : jsstring }.
Record GeminiContent : Type := { g_role : jsstring; g_parts : list GeminiPart }.

(** The transports behind the three clients, each given the API key its
    client was built with. *)
Record Transport : Type :=
  { anthropic_create : jsstring -> AnthropicRequest -> Wire AnthropicEvent;
    openai_create : jsstring -> OpenAIRequest -> Wire OpenAIChunk;
    gemini_generate : jsstring -> jsstring -> list GeminiContent -> Wire GeminiChunk }.

(** *** The service *)

Record Client : Type := { client_key : jsstring }.

Record ProviderService : Type :=
  { provider : jsstring;
    apiKey : jsstring;
    model : jsstring;
    anthropicClient : option Client;
    openaiClient : option Client;
    geminiClient : option Client }.

(** [initializeClient]: a [switch] over the provider without a default
    case. *)
Definition initializeClient (this : ProviderService) : ProviderService :=
  if JS.eqb (provider this) (js "anthropic") then
    {| provider := provider this; apiKey := apiKey this; model := model this;
       anthropicClient := Some {| client_key := apiKey this |};
       openaiClient := openaiClient this;
       geminiClient := geminiClient this |}
  else if JS.eqb (provider this) (js "openai") then
    {| provider := provider this; apiKey := apiKey this; model := model this;
       anthropicClient := anthropicClient this;
       openaiClient := Some {| client_key := apiKey this |};
       geminiClient := geminiClient this |}
  else if JS.eqb (provider this) (js "gemini") then
    {| provider := provider this; apiKey := apiKey this; model := model this;
       anthropicClient := anthropicClient this;
       openaiClient := openaiClient this;
       geminiClient := Some {| client_key := apiKey this |} |}
  else this.

(** [new ProviderService(provider, apiKey, model)] *)
Definition new_ProviderService (provider apiKey model : jsstring) : ProviderService :=
  initializeClient
    {| provider := provider; apiKey := apiKey; model := model;
       anthropicClient := None; openaiClient := None; geminiClient := None |}.

(** [for await (const chunk of stream) { ... yield ... }]: every event either
    yields a fragment, yields nothing, or makes the body throw; a stream
    that breaks throws after its events. *)
Fixpoint pump {E} (body : E -> Thrown + option jsstring) (evs : list E)
    (end_of_stream : option Thrown) : Stream :=
  match evs with
  | [] => {| chunks := []; failure := end_of_stream |}
  | ev :: rest =>
      match body ev with
      | inl e => {| chunks := []; failure := Some e |}
      | inr out =>
          let s := pump body rest end_of_stream in
          {| chunks := match out with Some t => t :: chunks s | None => chunks s end;
             failure := failure s |}
      end
  end.

Definition raise (e : Thrown) : Stream := {| chunks := []; failure := Some e |}.

(** [messages.map(msg => ({ role: msg.role === "user" ? "user" : "assistant",
    content: msg.content }))] *)
Definition anthropic_messages (messages : list Message) : list AnthropicParam :=
  List.map (fun msg =>
         {| a_role := match role msg with user => js "user" | _ => js "assistant" end;
            a_content := content msg |}) messages.

Definition anthropic_body (chunk : AnthropicEvent) : Thrown + option jsstring :=
  match chunk with
  | ContentBlockDelta (TextDelta text) => inr (Some text)
  | _ => inr None
  end.

(** [messages.map(msg => ({ role: msg.role, content: msg.content }))] *)
Definition openai_messages (messages : list Message) : list OpenAIParam :=
  List.map (fun msg => {| o_role := role_name (role msg); o_content := content msg |})
    messages.

(** [chunk.choices[0]?.delta?.content] *)
Definition openai_content (chunk : OpenAIChunk) : option jsstring :=
  match choices chunk with
  | choice :: _ =>
      match c_delta choice with
      | Some d => d_content d
      | None => None
      end
  | [] => None
  end.

Definition openai_body (chunk : OpenAIChunk) : Thrown + option jsstring :=
  match openai_content chunk with
  | Some (c :: t) => inr (Some (c :: t))
  | _ => inr None
  end.

(** [messages.map(msg => ({ role: msg.role === "user" ? "user" : "model",
    parts: [{ text: msg.content }] }))] *)
Definition gemini_contents (messages : list Message) : list GeminiContent :=
  List.map (fun msg =>
         {| g_role := match role msg with user => js "user" | _ => js "model" end;
            g_parts := [ {| p_text := content msg |} ] |}) messages.

Definition gemini_body (chunk : GeminiChunk) : Thrown + option jsstring :=
  match chunk with
  | GeminiText [] => inr None
  | GeminiText text => inr (Some text)
  | GeminiBlocked e => inl e
  end.

(** The [catch] around the whole body of [streamChat]:
    [throw error instanceof Error ? error : new Error("Unknown error ...")]. *)
Definition rethrow (s : Stream) : Stream :=
  {| chunks := chunks s;
     failure :=
       match failure s with
       | Some NonError =>
           Some (JsError (js "Unknown error occurred while streaming chat"))
       | other => other
       end |}.

(** [streamChat(messages)] *)
Definition streamChat (this : ProviderService) (net : Transport)
    (messages : list Message) : Stream :=
  rethrow
    (if JS.eqb (provider this) (js "anthropic") then
       match anthropicClient this with
       | None => raise (JsError (js "Anthropic client not initialized"))
       | Some client =>
           let stream :=
             anthropic_create net (client_key client)
               {| a_model := model this;
                  a_messages := anthropic_messages messages;
                  a_max_tokens := 4096;
                  a_stream := true |} in
           pump anthropic_body (events stream) (broken stream)
       end
     else if JS.eqb (provider this) (js "openai") then
       match openaiClient this with
       | None => raise (JsError (js "OpenAI client not initialized"))
       | Some client =>
           let stream :=
             openai_create net (client_key client)
               {| o_model := model this;
                  o_messages := openai_messages messages;
                  o_stream := true |} in
           pump openai_body (events stream) (broken stream)
       end
     else if JS.eqb (provider this) (js "gemini") then
       match geminiClient this with
       | None => raise (JsError (js "Gemini client not initialized"))
       | Some client =>
           let result :=
             gemini_generate net (client_key client) (model this)
               (gemini_contents messages) in
           pump gemini_body (events result) (broken result)
       end
     else {| chunks := []; failure := None |}).

(** The reply a stream of events carries, event by event: what each provider
    documents as the text of a delta, the empty string for an event without
    text. *)
Definition anthropic_text (ev : AnthropicEvent) : jsstring :=
  match ev with
  | ContentBlockDelta (TextDelta text) => text
  | _ => []
  end.

Definition openai_text (ev : OpenAIChunk) : jsstring :=
  match openai_content ev with Some t => t | None => [] end.

Definition gemini_text (ev : GeminiChunk) : jsstring :=
  match ev with GeminiText t => t | GeminiBlocked _ => [] end.

Definition gemini_unblocked (ev : GeminiChunk) : bool :=
  match ev with GeminiText _ => true | GeminiBlocked _ => false end.

(** The closed set of provider identities ([allProviders]). *)
Definition allProviders : list jsstring := [js "anthropic"; js "openai"; js "gemini"].

End Provider.
Import Provider.

(** ** Events, oracles and outcomes shared by the lifecycle functions *)

Module Lifecycle.

(** [spawn(program, args, { shell })] *)
Record Launch : Type := { program : jsstring; args : list jsstring; in_shell : bool }.

(** How a launched child ends: the launch itself fails with an error, or
    the child exits with a code ([None] is the [null] of a child killed by a
    signal) after writing [stderr]. *)
Inductive ExecOutcome : Type :=
| LaunchError (message : jsstring)
| Exited (code : option N) (stderr : jsstring).

Inductive Action : Type := execute | copy | edit | cancel.

Inductive Event : Type :=
| Log (line : jsstring)
| SpinnerStart (text : jsstring)
| SpinnerStop
| Spawned (l : Launch) (out : ExecOutcome)
| Asked (messages : list Message) (reply : Stream)
| Confirmed (answer : bool)
| Chose (a : Action)
| Edited (initial answer : jsstring)
| Clipboard (l : Launch) (text : jsstring).

Definition History := list Event.

(** The collaborators outside the program. *)
Record World : Type :=
  { executor : History -> Launch -> ExecOutcome;
    confirm : History -> bool;
    choose : History -> Action;
    edit_text : History -> jsstring -> jsstring;
    env_SHELL : option jsstring;
    platform : jsstring }.

(** Anything with a [streamChat] method: the provider client as the
    lifecycle functions see it. *)
Record Service : Type := { ask : History -> list Message -> Stream }.

(** A [ProviderService] over a transport that may change as the session
    goes on. *)
Definition service_of (ps : ProviderService) (net : History -> Transport) : Service :=
  {| ask := fun h messages => streamChat ps (net h) messages |}.

(** How an async function ends. *)
Inductive Outcome : Type :=
| Resolved
| Rejected (e : Thrown).

Definition say (h : History) (line : jsstring) : History := h ++ [Log line].

(** The launches, the requests to the model and the confirmation prompts of
    a history. *)
Definition spawns (h : History) : list (Launch * ExecOutcome) :=
  omap (fun e => match e with Spawned l out => Some (l, out) | _ => None end) h.

Definition requests (h : History) : list (list Message) :=
  omap (fun e => match e with Asked m _ => Some m | _ => None end) h.

Definition confirmations (h : History) : list bool :=
  omap (fun e => match e with Confirmed b => Some b | _ => None end) h.

(** The promise around the child: resolved on exit code 0, rejected with an
    [Error] otherwise.  [None] is success, [Some m] the message of the
    error. *)
Definition code_text (code : option N) : jsstring :=
  match code with Some n => of_N n | None => js "null" end.

End Lifecycle.
Import Lifecycle.

(** ** Command executor (utils/command-executor.ts) *)

Module Executor.

Definition maxAttempts : nat := 3.

Inductive CommandType : Type := git | shell | script.

Record Options : Type := { type : CommandType; splitArgs : bool }.

(** The default value of the [options] parameter. *)
Definition default_options : Options := {| type := shell; splitArgs := false |}.

Definition type_name (t : CommandType) : jsstring :=
  match t with
  | git => js "git"
  | shell => js "shell"
  | script => js "script"
  end.

(** The [spawn] call chosen for the command. *)
Definition launch_of (command : jsstring) (options : Options) : Launch :=
  match type options with
  | git =>
      if Regex.test (OneOf "&|;") command
      then {| program := command; args := []; in_shell := true |}
      else {| program := js "git"; args := slice1 (split 32 command); in_shell := false |}
  | t =>
      {| program := if splitArgs options then first (split 32 command) else command;
         args := if splitArgs options then slice1 (split 32 command) else [];
         in_shell := match t with shell => true | _ => false end |}
  end.

(** The error the awaited promise rejects with, [None] when it resolves:
    [new Error(err.message)] for a launch error,
    [new Error(stderr.trim() || `Command failed with exit code ${code}`)]
    for a non-zero exit. *)
Definition exec_error (out : ExecOutcome) : option jsstring :=
  match out with
  | LaunchError m => Some m
  | Exited (Some 0) _ => None
  | Exited code stderr =>
      Some (or_else (trim stderr) (js "Command failed with exit code " ++ code_text code))
  end.

(** The body of the outer [try]: launch the child and wait for it. *)
Definition run_child (w : World) (command : jsstring) (options : Options) (h : History)
  : option jsstring * History :=
  let l := launch_of command options in
  let out := executor w h l in
  (exec_error out, h ++ [Spawned l out]).

(** The single user turn sent to the model after a failure. *)
Definition correction_request (command : jsstring) (options : Options)
    (errorMessage : jsstring) : Message :=
  {| role := user;
     content :=
       cat [js "The "; type_name (type options); js " command "; [34]; command; [34];
            js " failed with error: "; errorMessage;
            js ". Please provide a corrected command that will work. Only respond with the exact command to run, no explanations."] |}.

Definition report_failure (h : History) (command error : jsstring) : History :=
  say (say (say h (10 :: js "Command failed:")) (js "  " ++ command))
      (js "Error: " ++ error).

Definition no_better : jsstring := js "AI couldn't find a better solution".

(** The history when the correction is requested: the failure has been
    reported and the spinner started. *)
Definition announce (h1 : History) (command error : jsstring) (attempts : nat) : History :=
  report_failure h1 command error
    ++ [SpinnerStart
          (js "Attempt " ++ of_N (N.of_nat (attempts + 1)) ++ js "/"
             ++ of_N (N.of_nat maxAttempts) ++ js ": Asking AI for help...")].

(** The reply to the correction request for [command] after [error], asked
    at history [h3], once cleaned up. *)
Definition correction (service : Service) (options : Options) (h3 : History)
    (command error : jsstring) : jsstring :=
  normalize (cat (chunks (ask service h3 [correction_request command options error]))).

(** What the inner [try] decides before the recursive call: to stop with an
    error, or to run a corrected command. *)
Inductive Advice : Type :=
| GiveUp (e : Thrown) (h : History)
| Retry (correctedCommand : jsstring) (h : History).

(** The inner [try] up to the recursive call: ask the model for a
    correction, clean it up, compare it with the failed command and have the
    user confirm it.  Every error is rethrown by the inner [catch] after it
    has stopped the spinner. *)
Definition consult (w : World) (service : Service) (command : jsstring) (attempts : nat)
    (options : Options) (error : jsstring) (h1 : History) : Advice :=
  let h3 := announce h1 command error attempts in
  let userMessage := correction_request command options error in
  let reply := ask service h3 [userMessage] in
  let h4 := h3 ++ [Asked [userMessage] reply] in
  match failure reply with
  | Some err => GiveUp err (h4 ++ [SpinnerStop])
  | None =>
      let correctedCommand := normalize (cat (chunks reply)) in
      let h5 := h4 ++ [SpinnerStop] in
      if JS.eqb correctedCommand command then
        GiveUp (JsError no_better) (say h5 (10 :: no_better) ++ [SpinnerStop])
      else
        let h6 := say (say h5 (10 :: js "Suggested fix:")) (js "  " ++ correctedCommand) in
        let answer := confirm w h6 in
        let h7 := h6 ++ [Confirmed answer] in
        if answer then Retry correctedCommand h7
        else GiveUp (JsError (js "User cancelled retry")) (h7 ++ [SpinnerStop])
  end.

(** The branch [attempts >= maxAttempts - 1]: report and rethrow the error
    of this attempt. *)
Definition abandon (h1 : History) (command error : jsstring) : Outcome * History :=
  (Rejected (JsError error),
   say (report_failure h1 command error)
       (10 :: js "Failed after " ++ of_N (N.of_nat maxAttempts) ++ js " attempts. Giving up.")).

(** An error of the recursive call passes through the inner [catch]. *)
Definition through_catch (r : Outcome * History) : Outcome * History :=
  match r with
  | (Resolved, h) => (Resolved, h)
  | (Rejected err, h) => (Rejected err, h ++ [SpinnerStop])
  end.

(** [executeCommand(command, service, attempts, options)].  The recursion of
    the source is on the retry; it stops because [attempts] grows towards
    [maxAttempts - 1]. *)
Equations executeCommand (w : World) (service : Service) (command : jsstring)
    (attempts : nat) (options : Options) (h : History) : Outcome * History
    by wf (maxAttempts - attempts)%nat lt :=
  executeCommand w service command attempts options h
    with run_child w command options h := {
    | (None, h1) =>
        (Resolved, say h1 (10 :: 10003 :: js " Command executed successfully"));
    | (Some error, h1) with le_lt_dec (maxAttempts - 1) attempts := {
      | left _ => abandon h1 command error;
      | right _ with consult w service command attempts options error h1 := {
        | GiveUp e h' => (Rejected e, h');
        | Retry correctedCommand h7 =>
            through_catch
              (executeCommand w service correctedCommand (S attempts) options h7) } } }.
Next Obligation. unfold maxAttempts in *. lia. Qed.

End Executor.

(** ** Shell command generator with its own review loop

    The variant of [generateCommand] that launches the shell itself and
    carries [confirmCommand] with the destructive-pattern warning and
    [validateCommand] with the blocklist. *)

Module ShellCommand.

(** [\bword\b] *)
Definition whole_word (s : string) : regex := Cat [WordB; Lit s; WordB].

Definition any_run : regex := Star Dot.

Definition dangerousPatterns : list regex :=
  [ whole_word "rm"; whole_word "dd"; whole_word "mkfs"; whole_word "format";
    whole_word "fdisk"; whole_word "wipe"; whole_word "shred"; whole_word "truncate" ].

Definition syntaxErrors : list regex :=
  [ (* /[&|;><]\s*$/ *)
    Cat [OneOf "&|;><"; Star Space; Eol];
    (* /\b\w+\s*=\s*$/ *)
    Cat [WordB; Plus Word; Star Space; Lit "="; Star Space; Eol];
    (* /^[\s|&;><!]/ *)
    Cat [Bol; Alt Space (OneOf "|&;><!")];
    (* /\(\s*\)/ *)
    Cat [Lit "("; Star Space; Lit ")"] ].

Definition blockedCommands : list regex :=
  [ (* /\bsudo\b.*rm\b.*-rf\b.*\/\b/ *)
    Cat [WordB; Lit "sudo"; WordB; any_run; Lit "rm"; WordB; any_run;
         Lit "-rf"; WordB; any_run; Lit "/"; WordB];
    (* /\bmv\b.*\/\b.*\/dev\/null\b/ *)
    Cat [WordB; Lit "mv"; WordB; any_run; Lit "/"; WordB; any_run;
         Lit "/dev/null"; WordB];
    (* /\bdd\b.*of=\/dev\/([hs]d[a-z]|nvme\d+n\d+)/ *)
    Cat [WordB; Lit "dd"; WordB; any_run; Lit "of=/dev/";
         Alt (Cat [OneOf "hs"; Lit "d"; Range "a" "z"])
             (Cat [Lit "nvme"; Plus Digit; Lit "n"; Plus Digit])];
    (* /\bmkfs\b.*-f\b/ *)
    Cat [WordB; Lit "mkfs"; WordB; any_run; Lit "-f"; WordB];
    (* /\bshred\b.*-[uz]\b/ *)
    Cat [WordB; Lit "shred"; WordB; any_run; Lit "-"; OneOf "uz"; WordB] ].

(** [patterns.some(pattern => pattern.test(command))] *)
Definition some_test (patterns : list regex) (command : jsstring) : bool :=
  existsb (fun pattern => Regex.test pattern command) patterns.

(** [validateCommand(command)]: [false] with an error line for a command
    with a syntax error or on the blocklist, [true] otherwise. *)
Definition validateCommand (command : jsstring) (h : History) : bool * History :=
  if some_test syntaxErrors command then
    (false, say h (10 :: js "Error: Command appears to have syntax errors"))
  else if some_test blockedCommands command then
    (false, say h (10 :: js "Error: Command is potentially harmful and has been blocked"))
  else (true, h).

(** [confirmCommand(command, dryRun)] *)
Definition confirmCommand (w : World) (command : jsstring) (dryRun : bool) (h : History)
  : Action * History :=
  let h1 := say (say h (10 :: js "Generated command:")) (js "  " ++ command) in
  if dryRun then
    (cancel, say h1 (10 :: js "Dry run mode - command will not be executed"))
  else
    let h2 :=
      if some_test dangerousPatterns command
      then say h1 (10 :: 9888 :: 65039
                      :: js "  Warning: This command may be destructive. Use with caution.")
      else h1 in
    let action := choose w h2 in
    (action, h2 ++ [Chose action]).

(** [editCommand(command)]: the text the prompt resolves with. *)
Definition editCommand (w : World) (command : jsstring) (h : History) : jsstring * History :=
  let answer := edit_text w h command in
  (answer, h ++ [Edited command answer]).

(** [copyToClipboard(text)] *)
Definition copyToClipboard (w : World) (text : jsstring) (h : History) : History :=
  let tool :=
    if JS.eqb (platform w) (js "darwin") then
      {| program := js "pbcopy"; args := []; in_shell := false |}
    else if JS.eqb (platform w) (js "win32") then
      {| program := js "clip"; args := []; in_shell := false |}
    else {| program := js "xclip"; args := [js "-selection"; js "clipboard"];
            in_shell := false |} in
  say (h ++ [Clipboard tool text]) (10 :: 10003 :: js " Copied to clipboard").

(** How the function leaves: by returning or through [process.exit]. *)
Inductive Ending : Type :=
| Return
| Exit (code : N).

(** The outer [catch]: print the error and leave with status 1. *)
Definition fail_with (e : Thrown) (h : History) : Ending * History :=
  (Exit 1, say h (10 :: js "Error: " ++ message_or (js "Unknown error occurred") e)).

(** [process.env.SHELL || "/bin/sh"] *)
Definition user_shell (w : World) : jsstring :=
  match env_SHELL w with
  | Some (c :: s) => c :: s
  | _ => js "/bin/sh"
  end.

(** The [while (true)] review loop; [fuel] bounds its iterations, and
    [None] is a loop still waiting for the user when the fuel is spent. *)
Fixpoint review (fuel : nat) (w : World) (command : jsstring) (dryRun : bool)
    (h : History) : option (Ending * History) :=
  match fuel with
  | O => None
  | S fuel' =>
      let (action, h1) := confirmCommand w command dryRun h in
      match action with
      | execute =>
          let l := {| program := user_shell w; args := [js "-c"; command];
                      in_shell := false |} in
          let out := executor w h1 l in
          let h2 := h1 ++ [Spawned l out] in
          match out with
          | Exited (Some 0) _ =>
              Some (Return, say h2 (10 :: 10003 :: js " Command executed successfully"))
          | Exited code _ =>
              Some (fail_with (JsError (js "Command failed with exit code " ++ code_text code)) h2)
          | LaunchError m => Some (fail_with (JsError m) h2)
          end
      | copy => Some (Return, copyToClipboard w command h1)
      | edit =>
          let (command', h2) := editCommand w command h1 in
          review fuel' w command' dryRun h2
      | cancel => Some (Return, say h1 (10 :: js "Operation cancelled"))
      end
  end.

Definition newline : jsstring := [10].

Definition systemMessage : Message :=
  {| role := system;
     content :=
       cat [js "You are a shell command expert. Generate shell commands that follow these rules:"; newline;
            js "1. Only output the exact shell command, no explanations"; newline;
            js "2. Use modern shell syntax and best practices"; newline;
            js "3. Make commands safe and handle errors gracefully"; newline;
            js "4. Include necessary flags and options"; newline;
            js "5. Consider performance implications"; newline;
            js "6. Make commands as specific as possible"; newline;
            js "7. Use --dry-run or similar safety flags when appropriate"; newline;
            js "8. For directory operations, handle empty directories and non-existent paths"; newline;
            js "9. For file operations, handle spaces and special characters"; newline;
            js "10. Add error handling with 2>/dev/null where appropriate"] |}.

Definition userMessage (description : jsstring) : Message :=
  {| role := user;
     content :=
       cat [js "Generate a shell command to: "; description;
            js ". Make sure it handles errors and empty results gracefully."] |}.

(** [generateCommand(description, options)] from the point where the
    service has been built from the configuration: ask the model, clean the
    reply up and enter the review loop. *)
Definition generateCommand (w : World) (service : Service) (description : jsstring)
    (dryRun : bool) (fuel : nat) (h : History) : option (Ending * History) :=
  let request := [systemMessage; userMessage description] in
  let reply := ask service h request in
  let h1 := h ++ [Asked request reply] in
  match failure reply with
  | Some e => Some (fail_with e h1)
  | None => review fuel w (normalize (cat (chunks reply))) dryRun h1
  end.

End ShellCommand.

(** ** Script generator (commands/gen-script.ts) *)

Module Script.

Inductive ScriptType : Type := bash | python | node.

Definition script_name (t : ScriptType) : jsstring :=
  match t with
  | bash => js "bash"
  | python => js "python"
  | node => js "node"
  end.

Definition nl : jsstring := [10].

(** [SCRIPT_TEMPLATES].  The templates are template literals, so the [\n]
    and [\t] of the [IFS] line are a line feed and a tab. *)
Definition SCRIPT_TEMPLATES (t : ScriptType) : jsstring :=
  match t with
  | bash =>
      cat [js "#!/bin/bash"; nl;
           js "set -euo pipefail"; nl;
           js "IFS=$'"; [10; 9]; js "'"; nl;
           nl;
           js "# Script content here"; nl]
  | python =>
      cat [js "#!/usr/bin/env python3"; nl;
           nl;
           js "import sys"; nl;
           js "import os"; nl;
           nl;
           js "def main():"; nl;
           js "    # Script content here"; nl;
           js "    pass"; nl;
           nl;
           js "if __name__ == "; [34]; js "__main__"; [34]; js ":"; nl;
           js "    main()"; nl]
  | node =>
      cat [js "#!/usr/bin/env node"; nl;
           nl;
           js "async function main() {"; nl;
           js "    // Script content here"; nl;
           js "}"; nl;
           nl;
           js "main().catch(console.error);"; nl]
  end.

(** The text [generateScript] looks for in the template. *)
Definition placeholder : jsstring := js "# Script content here".

(** [content = content.trim(); script = template.replace("# Script content
    here", content)] *)
Definition fill_template (scriptType : ScriptType) (content : jsstring) : jsstring :=
  replace (SCRIPT_TEMPLATES scriptType) placeholder (trim content).

Definition systemMessage (scriptType : ScriptType) : Message :=
  {| role := system;
     content :=
       cat [js "You are a script generation expert. Generate a "; script_name scriptType;
            js " script that follows these rules:"; nl;
            js "1. Only output the exact script content, no explanations"; nl;
            js "2. Use modern syntax and best practices"; nl;
            js "3. Include proper error handling"; nl;
            js "4. Add necessary imports and dependencies"; nl;
            js "5. Consider performance implications"; nl;
            js "6. Make the script robust and maintainable"; nl;
            js "7. Add helpful comments for complex logic"; nl;
            js "8. Handle edge cases appropriately"; nl;
            js "9. Follow language-specific conventions"] |}.

Definition userMessage (scriptType : ScriptType) (description : jsstring) : Message :=
  {| role := user;
     content := cat [js "Generate a "; script_name scriptType; js " script to: "; description] |}.

(** [generateScript(description, options)] from the point where the service
    has been built up to the script it hands to the review loop: the error
    the stream threw, or the artifact. *)
Definition generateScript (service : Service) (description : jsstring)
    (scriptType : ScriptType) (h : History) : (Thrown + jsstring) * History :=
  let request := [systemMessage scriptType; userMessage scriptType description] in
  let h1 := h ++ [SpinnerStart (cat [js "Generating "; script_name scriptType; js " script..."])] in
  let reply := ask service h1 request in
  let h2 := h1 ++ [Asked request reply; SpinnerStop] in
  match failure reply with
  | Some err => (inl err, h2)
  | None => (inr (fill_template scriptType (cat (chunks reply))), h2)
  end.

(** [s.includes(t)] *)
Definition includes (s t : jsstring) : bool :=
  match find_first t s with Some _ => true | None => false end.

End Script.

(** ** Credential vault (utils/credentials.ts) *)

Module Vault.

Definition bytes := list Byte.byte.

Definition byte_of_N (n : N) : Byte.byte :=
  match Byte.of_N (n mod 256) with
  | Some b => b
  | None => Byte.x00
  end.

(** *** Buffers and their encodings *)

Definition hex_digit (n : N) : code_unit := if n <? 10 then 48 + n else 87 + n.

(** [buf.toString("hex")] *)
Definition hex_encode (buf : bytes) : jsstring :=
  flat_map (fun b => [hex_digit (Byte.to_N b / 16); hex_digit (Byte.to_N b mod 16)]) buf.

Definition hex_value (c : code_unit) : option N :=
  if (48 <=? c) && (c <=? 57) then Some (c - 48)
  else if (97 <=? c) && (c <=? 102) then Some (c - 87)
  else if (65 <=? c) && (c <=? 70) then Some (c - 55)
  else None.

(** [Buffer.from(s, "hex")]: pairs of digits are decoded until the first
    pair that is not hexadecimal; what follows is dropped. *)
Fixpoint hex_decode (s : jsstring) : bytes :=
  match s with
  | a :: b :: rest =>
      match hex_value a, hex_value b with
      | Some x, Some y => byte_of_N (16 * x + y) :: hex_decode rest
      | _, _ => []
      end
  | _ => []
  end.

Definition is_high_surrogate (c : code_unit) : bool := (55296 <=? c) && (c <=? 56319).
Definition is_low_surrogate (c : code_unit) : bool := (56320 <=? c) && (c <=? 57343).

(** The UTF-8 bytes of one code point. *)
Definition utf8_of_code_point (cp : N) : bytes :=
  if cp <? 128 then [byte_of_N cp]
  else if cp <? 2048 then [byte_of_N (192 + cp / 64); byte_of_N (128 + cp mod 64)]
  else if cp <? 65536 then
    [byte_of_N (224 + cp / 4096); byte_of_N (128 + (cp / 64) mod 64);
     byte_of_N (128 + cp mod 64)]
  else
    [byte_of_N (240 + cp / 262144); byte_of_N (128 + (cp / 4096) mod 64);
     byte_of_N (128 + (cp / 64) mod 64); byte_of_N (128 + cp mod 64)].

(** [Buffer.from(s, "utf8")]: a surrogate pair is one code point, a lone
    surrogate is written as U+FFFD. *)
Fixpoint utf8_encode (s : jsstring) : bytes :=
  match s with
  | [] => []
  | c :: rest =>
      if is_high_surrogate c then
        match rest with
        | d :: rest' =>
            if is_low_surrogate d
            then utf8_of_code_point (65536 + (c - 55296) * 1024 + (d - 56320))
                   ++ utf8_encode rest'
            else utf8_of_code_point 65533 ++ utf8_encode rest
        | [] => utf8_of_code_point 65533
        end
      else if is_low_surrogate c then utf8_of_code_point 65533 ++ utf8_encode rest
      else utf8_of_code_point c ++ utf8_encode rest
  end.

(** The state of the UTF-8 decoder inside a multi-byte sequence. *)
Record Decoder : Type :=
  { code_point : N; remaining : nat; lower : N; upper : N }.

Definition idle : Decoder := {| code_point := 0; remaining := 0; lower := 128; upper := 191 |}.

(** The code units of a decoded code point. *)
Definition utf16_of_code_point (cp : N) : jsstring :=
  if cp <? 65536 then [cp]
  else [55296 + (cp - 65536) / 1024; 56320 + (cp - 65536) mod 1024].

(** A byte met outside a sequence: the code units it gives and the state it
    leaves. *)
Definition lead (n : N) : jsstring * Decoder :=
  if n <=? 127 then ([n], idle)
  else if (194 <=? n) && (n <=? 223) then
    ([], {| code_point := N.land n 31; remaining := 1; lower := 128; upper := 191 |})
  else if (224 <=? n) && (n <=? 239) then
    ([], {| code_point := N.land n 15; remaining := 2;
            lower := if n =? 224 then 160 else 128;
            upper := if n =? 237 then 159 else 191 |})
  else if (240 <=? n) && (n <=? 244) then
    ([], {| code_point := N.land n 7; remaining := 3;
            lower := if n =? 240 then 144 else 128;
            upper := if n =? 244 then 143 else 191 |})
  else ([65533], idle).

(** [buf.toString("utf8")]: ill-formed input decodes to U+FFFD, one for
    every maximal ill-formed part. *)
Fixpoint utf8_decode_from (st : Decoder) (buf : bytes) : jsstring :=
  match buf with
  | [] => match remaining st with O => [] | S _ => [65533] end
  | b :: rest =>
      let n := Byte.to_N b in
      match remaining st with
      | O => let (out, st') := lead n in out ++ utf8_decode_from st' rest
      | S more =>
          if (n <? lower st) || (upper st <? n) then
            let (out, st') := lead n in
            65533 :: out ++ utf8_decode_from st' rest
          else
            let cp := code_point st * 64 + N.land n 63 in
            match more with
            | O => utf16_of_code_point cp ++ utf8_decode_from idle rest
            | S _ =>
                utf8_decode_from
                  {| code_point := cp; remaining := more; lower := 128; upper := 191 |}
                  rest
            end
      end
  end.

Definition utf8_decode (buf : bytes) : jsstring := utf8_decode_from idle buf.

(** *** AES-256-CBC around a block cipher *)

(** The block cipher itself: [E key block] and [D key block] on 16-byte
    blocks under a 32-byte key. *)
Record BlockCipher : Type :=
  { E : bytes -> bytes -> bytes;
    D : bytes -> bytes -> bytes }.

(** What is assumed of AES: it keeps the block size, and deciphering undoes
    enciphering under the same key. *)
Record BlockCipherLaws (c : BlockCipher) : Prop :=
  { E_length : forall key block,
      length key = 32%nat -> length block = 16%nat -> length (E c key block) = 16%nat;
    D_E : forall key block,
      length key = 32%nat -> length block = 16%nat -> D c key (E c key block) = block }.

Inductive VaultError : Type :=
| InvalidKeyLength
| InvalidIV
| WrongFinalBlockLength
| BadDecrypt.

Inductive Result (A : Type) : Type :=
| Ok (a : A)
| Throw (e : VaultError).
Arguments Ok {A} _.
Arguments Throw {A} _.

Definition xor_byte (a b : Byte.byte) : Byte.byte :=
  let '(a0, (a1, (a2, (a3, (a4, (a5, (a6, a7))))))) := Byte.to_bits a in
  let '(b0, (b1, (b2, (b3, (b4, (b5, (b6, b7))))))) := Byte.to_bits b in
  Byte.of_bits (xorb a0 b0, (xorb a1 b1, (xorb a2 b2, (xorb a3 b3,
               (xorb a4 b4, (xorb a5 b5, (xorb a6 b6, xorb a7 b7))))))).

Fixpoint xor_bytes (a b : bytes) : bytes :=
  match a, b with
  | x :: a', y :: b' => xor_byte x y :: xor_bytes a' b'
  | _, _ => []
  end.

Definition block_sized (b : bytes) : Prop := length b = 16%nat.

(** PKCS#7: between 1 and 16 bytes, each holding their number. *)
Definition pkcs7_pad (m : bytes) : bytes :=
  let n := (16 - length m mod 16)%nat in
  m ++ repeat (byte_of_N (N.of_nat n)) n.

Definition pkcs7_unpad (m : bytes) : Result bytes :=
  match List.last m Byte.x00 with
  | last_byte =>
      let n := N.to_nat (Byte.to_N last_byte) in
      if ((1 <=? n)%nat && (n <=? 16)%nat && (n <=? length m)%nat
          && forallb (Byte.eqb last_byte) (skipn (length m - n) m))%bool
      then Ok (firstn (length m - n) m)
      else Throw BadDecrypt
  end.

(** The first [n] blocks of 16 bytes of a buffer. *)
Fixpoint blocks_of (n : nat) (m : bytes) : list bytes :=
  match n with
  | O => []
  | S n' => firstn 16 m :: blocks_of n' (skipn 16 m)
  end.

Definition split_blocks (m : bytes) : list bytes := blocks_of (length m / 16) m.

Fixpoint cbc_encrypt_blocks (enc : bytes -> bytes) (prev : bytes) (ps : list bytes)
  : list bytes :=
  match ps with
  | [] => []
  | p :: ps' =>
      let c := enc (xor_bytes p prev) in
      c :: cbc_encrypt_blocks enc c ps'
  end.

Fixpoint cbc_decrypt_blocks (dec : bytes -> bytes) (prev : bytes) (cs : list bytes)
  : list bytes :=
  match cs with
  | [] => []
  | c :: cs' => xor_bytes (dec c) prev :: cbc_decrypt_blocks dec c cs'
  end.

(** [createCipheriv("aes-256-cbc", key, iv)] followed by [update] and
    [final]. *)
Definition aes_256_cbc_encrypt (c : BlockCipher) (key iv plain : bytes) : Result bytes :=
  if negb (length key =? 32)%nat then Throw InvalidKeyLength
  else if negb (length iv =? 16)%nat then Throw InvalidIV
  else Ok (List.concat (cbc_encrypt_blocks (E c key) iv (split_blocks (pkcs7_pad plain)))).

(** [createDecipheriv("aes-256-cbc", key, iv)] followed by [update] and
    [final]. *)
Definition aes_256_cbc_decrypt (c : BlockCipher) (key iv data : bytes) : Result bytes :=
  if negb (length key =? 32)%nat then Throw InvalidKeyLength
  else if negb (length iv =? 16)%nat then Throw InvalidIV
  else if (length data =? 0)%nat || negb (length data mod 16 =? 0)%nat
  then Throw WrongFinalBlockLength
  else pkcs7_unpad (List.concat (cbc_decrypt_blocks (D c key) iv (split_blocks data))).

(** *** The manager *)

(** [{ iv: string; encrypted: string }] *)
Record EncryptedKey : Type := { iv : jsstring; encrypted : jsstring }.

(** [ProviderConfig]; [None] is an entry whose [apiKey] is missing. *)
Record ProviderConfig : Type := { apiKey : option EncryptedKey }.

(** [CredentialsData]: a JavaScript object used as a map from provider
    names to their configuration. *)
Record CredentialsData : Type := { credentials : gmap jsstring ProviderConfig }.

(** The credentials file as [readFile] and [JSON.parse] see it: not there,
    not JSON, or a document of the declared type [CredentialsData], whose
    [credentials] member may be missing.  JSON of another shape is outside
    the declared type and outside this model. *)
Inductive File : Type :=
| Missing
| Unparsable
| Parsed (document : option (gmap jsstring ProviderConfig)).

Record Disk : Type := { configDir : bool; credentialsFile : File }.

(** The manager: the cipher behind [crypto], the master key
    [scryptSync("shellai-secret-key", "salt", 32)] and the source of
    [randomBytes]. *)
Record CredentialsManager : Type :=
  { cipher : BlockCipher;
    masterKey : bytes;
    randomBytes : nat -> bytes }.

Definition ensureConfigDir (d : Disk) : Disk :=
  {| configDir := true; credentialsFile := credentialsFile d |}.

Definition encrypt (this : CredentialsManager) (text : jsstring) : Result EncryptedKey :=
  let iv := randomBytes this 16 in
  match aes_256_cbc_encrypt (cipher this) (masterKey this) iv (utf8_encode text) with
  | Ok out => Ok {| iv := hex_encode iv; encrypted := hex_encode out |}
  | Throw e => Throw e
  end.

Definition decrypt (this : CredentialsManager) (encrypted iv : jsstring) : Result jsstring :=
  match aes_256_cbc_decrypt (cipher this) (masterKey this) (hex_decode iv)
          (hex_decode encrypted) with
  | Ok out => Ok (utf8_decode out)
  | Throw e => Throw e
  end.

(** [readCredentialsData]: whatever goes wrong while reading or parsing
    gives a fresh, empty object, and so does a document without
    [credentials]. *)
Definition readCredentialsData (d : Disk) : CredentialsData :=
  if configDir d then
    match credentialsFile d with
    | Parsed (Some c) => {| credentials := c |}
    | Parsed None => {| credentials := ∅ |}
    | Missing | Unparsable => {| credentials := ∅ |}
    end
  else {| credentials := ∅ |}.

Definition writeCredentialsData (data : CredentialsData) (d : Disk) : Disk :=
  {| configDir := true; credentialsFile := Parsed (Some (credentials data)) |}.

(** [saveCredentials(provider, apiKey)]: how the call ends and the disk it
    leaves.  The directory is made before anything can fail. *)
Definition saveCredentials (this : CredentialsManager) (provider apiKey : jsstring)
    (d : Disk) : Result unit * Disk :=
  let d1 := ensureConfigDir d in
  let data := readCredentialsData d1 in
  match encrypt this apiKey with
  | Throw e => (Throw e, d1)
  | Ok secret =>
      let data' :=
        match credentials data !! provider with
        | None =>
            {| credentials := <[provider := {| apiKey := Some secret |}]> (credentials data) |}
        | Some _ =>
            {| credentials :=
                 alter (fun _ => {| apiKey := Some secret |}) provider (credentials data) |}
        end in
      (Ok tt, writeCredentialsData data' d1)
  end.

(** [getCredentials(provider)]: [Ok None] is [undefined]. *)
Definition getCredentials (this : CredentialsManager) (provider : jsstring) (d : Disk)
  : Result (option jsstring) :=
  let data := readCredentialsData d in
  match credentials data !! provider with
  | Some {| apiKey := Some key |} =>
      match decrypt this (encrypted key) (iv key) with
      | Ok text => Ok (Some text)
      | Throw e => Throw e
      end
  | _ => Ok None
  end.

(** Code units 32 to 126. *)
Definition printable_ascii (s : jsstring) : Prop :=
  Forall (fun c => 32 <= c <= 126) s.

End Vault.

(** ** Test doubles used to instantiate the properties *)

Module Fixtures.

(** A transport that delivers a reply as [fragments], wrapped in the
    bookkeeping events of each provider's protocol. *)
Definition mock_transport (fragments : list jsstring) : Transport :=
  {| anthropic_create := fun _ _ =>
       {| events :=
            [MessageStart; ContentBlockStart]
              ++ List.map (fun t => ContentBlockDelta (TextDelta t)) fragments
              ++ [ContentBlockStop; MessageDelta; MessageStop];
          broken := None |};
     openai_create := fun _ _ =>
       {| events :=
            [{| choices := [{| c_delta := Some {| d_content := Some [] |} |}] |}]
              ++ List.map (fun t =>
                        {| choices := [{| c_delta := Some {| d_content := Some t |} |}] |})
                   fragments
              ++ [{| choices := [{| c_delta := Some {| d_content := None |} |}] |};
                  {| choices := [] |}];
          broken := None |};
     gemini_generate := fun _ _ _ =>
       {| events := List.map GeminiText fragments; broken := None |} |}.

Definition conversation : list Message :=
  [ {| role := system; content := js "You are a shell command expert." |};
    {| role := user; content := js "list files" |} ].

(** What the design asks of [streamChat], in its own terms: the reply a
    transport carries for the request of a provider, that is the texts of
    its delta events put end to end, when the stream ends normally. *)
Definition reply_on_wire (p key model : jsstring) (net : Transport)
    (messages : list Message) : option jsstring :=
  if JS.eqb p (js "anthropic") then
    let w := anthropic_create net key
               {| a_model := model; a_messages := anthropic_messages messages;
                  a_max_tokens := 4096; a_stream := true |} in
    match broken w with
    | None => Some (cat (List.map anthropic_text (events w)))
    | Some _ => None
    end
  else if JS.eqb p (js "openai") then
    let w := openai_create net key
               {| o_model := model; o_messages := openai_messages messages;
                  o_stream := true |} in
    match broken w with
    | None => Some (cat (List.map openai_text (events w)))
    | Some _ => None
    end
  else if JS.eqb p (js "gemini") then
    let w := gemini_generate net key model (gemini_contents messages) in
    match broken w with
    | None =>
        if forallb gemini_unblocked (events w)
        then Some (cat (List.map gemini_text (events w)))
        else None
    | Some _ => None
    end
  else None.

(** The streams the three transports hand out for a conversation. *)
Definition anthropic_wire (key model : jsstring) (net : Transport)
    (messages : list Message) : Wire AnthropicEvent :=
  anthropic_create net key
    {| a_model := model; a_messages := anthropic_messages messages;
       a_max_tokens := 4096; a_stream := true |}.

Definition openai_wire (key model : jsstring) (net : Transport)
    (messages : list Message) : Wire OpenAIChunk :=
  openai_create net key
    {| o_model := model; o_messages := openai_messages messages; o_stream := true |}.

Definition gemini_wire (key model : jsstring) (net : Transport)
    (messages : list Message) : Wire GeminiChunk :=
  gemini_generate net key model (gemini_contents messages).

(** A world where every launch fails the same way and the user accepts
    every suggestion. *)
Definition failing_world : World :=
  {| executor := fun _ _ => Exited (Some 1) (js "boom");
     confirm := fun _ => true;
     choose := fun _ => execute;
     edit_text := fun _ text => text;
     env_SHELL := None;
     platform := js "linux" |}.


(** A model that always has something new to say: an answer as long as the
    question. *)
Definition inventive_service : Service :=
  {| ask := fun _ messages =>
       {| chunks := [repeat 120 (length (cat (List.map content messages)))];
          failure := None |} |}.

(** A model that answers every request with the same command, in two
    fragments and with stray white space. *)
Definition stubborn_service : Service :=
  {| ask := fun _ _ => {| chunks := [js " ls  "; js "-la "]; failure := None |} |}.



(** A world where the user chooses to execute and the launch succeeds. *)
Definition compliant_world : World :=
  {| executor := fun _ _ => Exited (Some 0) [];
     confirm := fun _ => true;
     choose := fun _ => execute;
     edit_text := fun _ text => text;
     env_SHELL := None;
     platform := js "linux" |}.

(** A model that suggests a privileged recursive delete. *)
Definition reckless_service : Service :=
  {| ask := fun _ _ => {| chunks := [js "sudo rm "; js "-rf /home"]; failure := None |} |}.

(** The record the vault holds for a provider, if the file can be read and
    parsed and has one. *)
Definition stored_record (d : Vault.Disk) (p : jsstring) : option Vault.EncryptedKey :=
  if Vault.configDir d then
    match Vault.credentialsFile d with
    | Vault.Parsed (Some c) =>
        match c !! p with
        | Some config => Vault.apiKey config
        | None => None
        end
    | _ => None
    end
  else None.

(** A stand-in for AES in the instances below: a block is combined with the
    first bytes of the key. *)
Definition toy_cipher : Vault.BlockCipher :=
  {| Vault.E := fun key block => Vault.xor_bytes block (firstn (length block) key);
     Vault.D := fun key block => Vault.xor_bytes block (firstn (length block) key) |}.

Definition toy_manager : Vault.CredentialsManager :=
  {| Vault.cipher := toy_cipher;
     Vault.masterKey := List.map (fun n => Vault.byte_of_N (N.of_nat n)) (seq 7 32);
     Vault.randomBytes := fun n => List.map (fun n => Vault.byte_of_N (N.of_nat n)) (seq 100 n) |}.

(** A machine where the program never ran. *)
Definition blank_disk : Vault.Disk :=
  {| Vault.configDir := false; Vault.credentialsFile := Vault.Missing |}.

(** A credentials file whose record for openai has lost most of its
    initialisation vector. *)
Definition damaged_disk : Vault.Disk :=
  {| Vault.configDir := true;
     Vault.credentialsFile :=
       Vault.Parsed
         (Some {[ js "openai" :=
                    {| Vault.apiKey :=
                         Some {| Vault.iv := js "6465";
                                 Vault.encrypted := js "6765cca1febc5d50575606010c420610" |} |} ]}) |}.

(** The two templates that hold the placeholder, cut around it. *)
Definition before_placeholder (t : Script.ScriptType) : jsstring :=
  match find_first Script.placeholder (Script.SCRIPT_TEMPLATES t) with
  | Some (before, _) => before
  | None => Script.SCRIPT_TEMPLATES t
  end.

Definition after_placeholder (t : Script.ScriptType) : jsstring :=
  match find_first Script.placeholder (Script.SCRIPT_TEMPLATES t) with
  | Some (_, after) => after
  | None => []
  end.

End Fixtures.
Import Fixtures.

(** ** The rest of the credentials manager (utils/credentials.ts) *)

Module Listing.

Import Vault.

(** [data.credentials[provider]?.apiKey], as a condition. *)
Definition has_key (data : CredentialsData) (provider : jsstring) : bool :=
  match credentials data !! provider with
  | Some {| apiKey := Some _ |} => true
  | _ => false
  end.

(** [a.includes(x)] on an array of strings. *)
Definition includes (a : list jsstring) (x : jsstring) : bool := existsb (JS.eqb x) a.

(** [listProviders()]: the configured providers and the others, both in the
    order of [allProviders]. *)
Definition listProviders (d : Disk) : list jsstring * list jsstring :=
  let data := readCredentialsData d in
  let configured := List.filter (has_key data) allProviders in
  let unconfigured := List.filter (fun provider => negb (includes configured provider))
                        allProviders in
  (configured, unconfigured).

(** A disk as the file system allows it: no credentials file without its
    directory. *)
Definition coherent (d : Disk) : Prop :=
  configDir d = false -> credentialsFile d = Missing.

End Listing.

(** ** Configuration manager (utils/config.ts) *)

Module Config.

(** An entry of [providerConfigs]: [{ defaultModel?: string }]. *)
Record ModelConfig : Type := { defaultModel : option jsstring }.

(** [AppConfig] *)
Record AppConfig : Type :=
  { isInitialSetup : bool;
    defaultProvider : option jsstring;
    providerConfigs : gmap jsstring ModelConfig }.

(** The file config.json as [readFile] and [JSON.parse] see it: not there,
    not JSON, or a document of the declared type [AppConfig]. *)
Inductive ConfigFile : Type :=
| NoConfig
| BadConfig
| Stored (config : AppConfig).

Record ConfigDisk : Type := { dir : bool; configFile : ConfigFile }.

(** What [readConfig] answers when the file cannot be read or parsed. *)
Definition initial_config : AppConfig :=
  {| isInitialSetup := true; defaultProvider := None; providerConfigs := ∅ |}.

Definition readConfig (d : ConfigDisk) : AppConfig :=
  if dir d then
    match configFile d with
    | Stored config => config
    | NoConfig | BadConfig => initial_config
    end
  else initial_config.

(** [writeConfig(config)]: make the directory, then write the file. *)
Definition writeConfig (config : AppConfig) (d : ConfigDisk) : ConfigDisk :=
  {| dir := true; configFile := Stored config |}.

Definition isFirstRun (d : ConfigDisk) : bool := isInitialSetup (readConfig d).

Definition completeInitialSetup (d : ConfigDisk) : ConfigDisk :=
  let config := readConfig d in
  writeConfig
    {| isInitialSetup := false;
       defaultProvider := defaultProvider config;
       providerConfigs := providerConfigs config |} d.

(** [s || null] on an optional string: a missing and an empty string both
    give [null]. *)
Definition or_null (s : option jsstring) : option jsstring :=
  match s with
  | Some (c :: r) => Some (c :: r)
  | _ => None
  end.

Definition getDefaultProvider (d : ConfigDisk) : option jsstring :=
  or_null (defaultProvider (readConfig d)).

Definition setDefaultProvider (provider : jsstring) (d : ConfigDisk) : ConfigDisk :=
  let config := readConfig d in
  writeConfig
    {| isInitialSetup := isInitialSetup config;
       defaultProvider := Some provider;
       providerConfigs := providerConfigs config |} d.

(** [config.providerConfigs[provider]?.defaultModel || null] *)
Definition getDefaultModel (provider : jsstring) (d : ConfigDisk) : option jsstring :=
  match providerConfigs (readConfig d) !! provider with
  | Some entry => or_null (defaultModel entry)
  | None => None
  end.

Definition setDefaultModel (provider model : jsstring) (d : ConfigDisk) : ConfigDisk :=
  let config := readConfig d in
  let entries :=
    match providerConfigs config !! provider with
    | None => <[provider := {| defaultModel := None |}]> (providerConfigs config)
    | Some _ => providerConfigs config
    end in
  writeConfig
    {| isInitialSetup := isInitialSetup config;
       defaultProvider := defaultProvider config;
       providerConfigs := alter (fun _ => {| defaultModel := Some model |}) provider entries |}
    d.

End Config.

(** ** The edit prompt of the shell command generator *)

Module EditPrompt.

(** What a [validate] callback of prompts answers: [true], or the message
    shown to the user, who is then asked again. *)
Inductive Validation : Type :=
| Accepted
| Refused (message : jsstring).

(** One of the characters of [/[;&|><$`\\]/]. *)
Definition is_dangerous (c : code_unit) : bool :=
  (c =? 59) || (c =? 38) || (c =? 124) || (c =? 62) || (c =? 60) || (c =? 36)
  || (c =? 96) || (c =? 92).

Definition dangerousChars : regex := Class is_dangerous.

(** A character of the class [[a-zA-Z0-9_\-\.]]. *)
Definition is_name_char (c : code_unit) : bool :=
  ((97 <=? c) && (c <=? 122)) || ((65 <=? c) && (c <=? 90)) || ((48 <=? c) && (c <=? 57))
  || (c =? 95) || (c =? 45) || (c =? 46).

(** [/^[a-zA-Z0-9_\-\.]+$/] *)
Definition commandName : regex := Cat [Bol; Plus (Class is_name_char); Eol].

(** The [validate] callback of [editCommand]. *)
Definition validate (value : jsstring) : Validation :=
  match trim value with
  | [] => Refused (js "Command cannot be empty")
  | _ :: _ =>
      if Regex.test dangerousChars value then
        Refused (js "Command contains potentially dangerous characters. Please use simple commands.")
      else if negb (Regex.test commandName (first (split 32 (trim value)))) then
        Refused (js "Invalid command name")
      else Accepted
  end.

End EditPrompt.

(** ** Measures of a history *)

Module Measures.

(** The confirmation prompts the user answered with yes. *)
Definition accepted (h : History) : list bool :=
  List.filter (fun answer : bool => answer) (confirmations h).

(** How the launch of a history's last child ended. *)
Definition last_launch_error (h : History) : option (option jsstring) :=
  match last (spawns h) with
  | Some (_, out) => Some (Executor.exec_error out)
  | None => None
  end.

(** [parts.join(sep)] for a separator of one code unit. *)
Fixpoint join (sep : code_unit) (parts : list jsstring) : jsstring :=
  match parts with
  | [] => []
  | [p] => p
  | p :: rest => p ++ sep :: join sep rest
  end.

(** One of [&], [|] and [;]. *)
Definition is_control (c : code_unit) : bool := (c =? 38) || (c =? 124) || (c =? 59).

(** The choices made in the review menu and the texts the edit prompt
    resolved with. *)
Definition menu_choices (h : History) : list Action :=
  omap (fun e => match e with Chose a => Some a | _ => None end) h.

Definition edits (h : History) : list jsstring :=
  omap (fun e => match e with Edited _ answer => Some answer | _ => None end) h.

(** The command under review after the edits of [t]. *)
Definition final_text (command : jsstring) (t : History) : jsstring :=
  match last (edits t) with
  | Some answer => answer
  | None => command
  end.

(** A text on one line with single spaces between its words: its only
    white space is the space, it holds no two spaces in a row, and it neither
    starts nor ends with one. *)
Definition tidy (s : jsstring) : Prop :=
  Forall (fun c => is_space c = true -> c = 32) s
  /\ (forall a b, s <> a ++ 32 :: 32 :: b)
  /\ (forall c r, s = c :: r -> is_space c = false)
  /\ (forall r c, s = r ++ [c] -> is_space c = false).

(** No two spaces in a row, read from the left; [after_space] tells that
    the text follows a space. *)
Fixpoint single_spaced (after_space : bool) (s : jsstring) : bool :=
  match s with
  | [] => true
  | c :: r =>
      if c =? 32 then negb after_space && single_spaced true r
      else single_spaced false r
  end.

End Measures.
Import Measures.

(** ** Further test doubles *)

Module Doubles.


(** A model whose stream breaks after a first fragment. *)
Definition broken_service : Service :=
  {| ask := fun _ _ =>
       {| chunks := [js "ls"]; failure := Some (JsError (js "socket hang up")) |} |}.

(** A transport whose streams break after their first fragment, with a
    thrown value that is not an [Error]. *)
Definition dropping_transport : Transport :=
  {| anthropic_create := fun _ _ =>
       {| events := [MessageStart; ContentBlockDelta (TextDelta (js "ls"))];
          broken := Some NonError |};
     openai_create := fun _ _ =>
       {| events := [{| choices := [{| c_delta := Some {| d_content := Some (js "ls") |} |}] |}];
          broken := Some NonError |};
     gemini_generate := fun _ _ _ =>
       {| events := [GeminiText (js "ls")]; broken := Some NonError |} |}.

(** How the stream of a provider ends, and the text it carried up to there,
    for a stream without a blocked chunk. *)
Definition wire_end (p key model : jsstring) (net : Transport) (messages : list Message)
  : jsstring * option Thrown :=
  if JS.eqb p (js "anthropic") then
    (cat (List.map anthropic_text (events (anthropic_wire key model net messages))),
     broken (anthropic_wire key model net messages))
  else if JS.eqb p (js "openai") then
    (cat (List.map openai_text (events (openai_wire key model net messages))),
     broken (openai_wire key model net messages))
  else
    (cat (List.map gemini_text (events (gemini_wire key model net messages))),
     broken (gemini_wire key model net messages)).

(** A configuration written by an earlier run. *)
Definition used_config : Config.ConfigDisk :=
  {| Config.dir := true;
     Config.configFile :=
       Config.Stored
         {| Config.isInitialSetup := false;
            Config.defaultProvider := Some (js "openai");
            Config.providerConfigs :=
              {[ js "openai" := {| Config.defaultModel := Some (js "gpt-4") |} ]} |} |}.

End Doubles.
Import Doubles.

(** ** The generators built on the command executor
    (commands/gen-git.ts and commands/gen.ts) *)

Module Generators.

Import Executor.

(** [confirmCommand(command, type, dryRun)] of utils/command-executor.ts *)
Definition confirmCommand (w : World) (command type : jsstring) (dryRun : bool)
    (h : History) : Action * History :=
  let h1 := say (say h (10 :: js "Generated " ++ type ++ js " command:")) (js "  " ++ command) in
  if dryRun then
    (cancel, say h1 (10 :: js "Dry run mode - command will not be executed"))
  else
    let action := choose w h1 in
    (action, h1 ++ [Chose action]).

(** [editCommand(command)] of utils/command-executor.ts: the text the prompt
    resolves with; the prompt has no [validate]. *)
Definition editCommand (w : World) (command : jsstring) (h : History) : jsstring * History :=
  let answer := edit_text w h command in
  (answer, h ++ [Edited command answer]).

(** What tells the two generators apart: the text of the spinner, the
    system message, the start of the user message, the word shown in the
    review and the options handed to [executeCommand]. *)
Record Recipe : Type :=
  { spinner : jsstring;
    systemMessage : Message;
    ask_for : jsstring;
    shown_as : jsstring;
    options : Options }.

Definition nl : jsstring := [10].

Definition git_recipe : Recipe :=
  {| spinner := js "Generating git command...";
     systemMessage :=
       {| role := system;
          content :=
            cat [js "You are a git expert. Generate git commands that follow these rules:"; nl;
                 js "1. Only output the exact git command, no explanations"; nl;
                 js "2. Use modern git syntax and best practices"; nl;
                 js "3. Make commands safe and reversible when possible"; nl;
                 js "4. Include necessary flags and options"; nl;
                 js "5. Consider performance implications for large repositories"; nl;
                 js "6. Make commands as specific as possible"; nl;
                 js "7. Use --dry-run or similar safety flags when appropriate"] |};
     ask_for := js "Generate a git command to: ";
     shown_as := js "git";
     options := {| type := git; splitArgs := false |} |}.

Definition shell_recipe : Recipe :=
  {| spinner := js "Generating command...";
     systemMessage :=
       {| role := system;
          content :=
            cat [js "You are a shell command expert. Generate shell commands that follow these rules:"; nl;
                 js "1. Only output the exact shell command, no explanations"; nl;
                 js "2. Use modern syntax and best practices"; nl;
                 js "3. Make commands safe and reversible when possible"; nl;
                 js "4. Include necessary flags and options"; nl;
                 js "5. Consider performance implications for large operations"; nl;
                 js "6. Make commands as specific as possible"; nl;
                 js "7. Use safety flags when appropriate"; nl;
                 js "8. Handle spaces and special characters correctly"; nl;
                 js "9. Consider cross-platform compatibility when possible"] |};
     ask_for := js "Generate a shell command to: ";
     shown_as := js "shell";
     options := {| type := shell; splitArgs := false |} |}.

(** The [while (true)] loop of both generators; [fuel] bounds its
    iterations, and [None] is a loop still waiting for the user when the fuel
    is spent.  An error of [executeCommand] is printed by the inner [catch],
    which leaves with status 1. *)
Fixpoint review (fuel : nat) (w : World) (service : Service) (r : Recipe)
    (command : jsstring) (dryRun : bool) (h : History) : option (ShellCommand.Ending * History) :=
  match fuel with
  | O => None
  | S fuel' =>
      let (action, h1) := confirmCommand w command (shown_as r) dryRun h in
      match action with
      | execute =>
          match executeCommand w service command 0 (options r) h1 with
          | (Resolved, h2) => Some (ShellCommand.Return, h2)
          | (Rejected error, h2) => Some (ShellCommand.fail_with error h2)
          end
      | copy => Some (ShellCommand.Return, ShellCommand.copyToClipboard w command h1)
      | edit =>
          let (command', h2) := editCommand w command h1 in
          review fuel' w service r command' dryRun h2
      | cancel => Some (ShellCommand.Return, say h1 (10 :: js "Operation cancelled"))
      end
  end.

(** The body both generators share from the point where the service has
    been built: ask the model under a spinner, clean the reply up and enter
    the review. *)
Definition generate (r : Recipe) (w : World) (service : Service) (description : jsstring)
    (dryRun : bool) (fuel : nat) (h : History) : option (ShellCommand.Ending * History) :=
  let request :=
    [systemMessage r; {| role := user; content := ask_for r ++ description |}] in
  let h1 := h ++ [SpinnerStart (spinner r)] in
  let reply := ask service h1 request in
  let h2 := h1 ++ [Asked request reply; SpinnerStop] in
  match failure reply with
  | Some err => Some (ShellCommand.fail_with err h2)
  | None => review fuel w service r (normalize (cat (chunks reply))) dryRun h2
  end.

(** [generateGitCommand(description, options)] of commands/gen-git.ts *)
Definition generateGitCommand := generate git_recipe.

(** [generateCommand(description, options)] of commands/gen.ts *)
Definition generateCommand := generate shell_recipe.


(** A user who edits the command once and then executes it. *)
Definition editing_world : World :=
  {| executor := fun _ l =>
       if JS.eqb (program l) (js "git") then Exited (Some 0) []
       else LaunchError (js "spawn ENOENT");
     confirm := fun _ => true;
     choose := fun h => match menu_choices h with [] => edit | _ => execute end;
     edit_text := fun _ text => text ++ js " --short";
     env_SHELL := None;
     platform := js "linux" |}.

(** A model that answers every request with [git status], on two lines. *)
Definition git_service : Service :=
  {| ask := fun _ _ => {| chunks := [js "git"; [10]; js "status"]; failure := None |} |}.

End Generators.

(** ** The execute branch of the script generator (commands/gen-script.ts) *)

Module ScriptRun.

Import Executor.

(** The file system as the branch uses it: the working directory of the
    process, [path.join], and the outcome of [fs.mkdtemp], of [fs.writeFile]
    and of [fs.rm] with [recursive] and [force], [None] standing for a call
    that succeeds. *)
Record Files : Type :=
  { cwd : jsstring;
    path_join : jsstring -> jsstring -> jsstring;
    mkdtemp : jsstring -> Thrown + jsstring;
    writeFile : jsstring -> jsstring -> option Thrown;
    rm : jsstring -> option Thrown }.

(** The calls made, with what they gave. *)
Inductive FileOp : Type :=
| Mkdtemp (prefix : jsstring) (result : Thrown + jsstring)
| WriteFile (path data : jsstring) (mode : N) (result : option Thrown)
| Rm (path : jsstring) (result : option Thrown).

(** The options [{ type: "script", splitArgs: true }]. *)
Definition script_options : Options := {| type := script; splitArgs := true |}.

(** The body of [case "execute"]: the script is written to a fresh
    directory under the working directory and run through [executeCommand];
    the directory is removed after a session that resolves.  Every error is
    printed by the [catch] of the branch, which leaves with status 1. *)
Definition execute_script (fs : Files) (w : World) (service : Service)
    (script : jsstring) (scriptType : Script.ScriptType) (h : History)
  : (ShellCommand.Ending * History) * list FileOp :=
  let prefix := path_join fs (cwd fs) (js ".temp-") in
  match mkdtemp fs prefix with
  | inl error => (ShellCommand.fail_with error h, [Mkdtemp prefix (inl error)])
  | inr tempDir =>
      let scriptPath := path_join fs tempDir (js "script." ++ Script.script_name scriptType) in
      let ops := [Mkdtemp prefix (inr tempDir);
                  WriteFile scriptPath script 493 (writeFile fs scriptPath script)] in
      match writeFile fs scriptPath script with
      | Some error => (ShellCommand.fail_with error h, ops)
      | None =>
          match executeCommand w service scriptPath 0 script_options h with
          | (Rejected error, h1) => (ShellCommand.fail_with error h1, ops)
          | (Resolved, h1) =>
              match rm fs tempDir with
              | Some error =>
                  (ShellCommand.fail_with error h1, ops ++ [Rm tempDir (Some error)])
              | None => ((ShellCommand.Return, h1), ops ++ [Rm tempDir None])
              end
          end
      end
  end.

(** The directories a list of calls created and did not remove. *)
Fixpoint left_behind (ops : list FileOp) : list jsstring :=
  match ops with
  | [] => []
  | Mkdtemp _ (inr dir) :: rest =>
      if existsb (fun op => match op with
                            | Rm path None => JS.eqb path dir
                            | _ => false
                            end) rest
      then left_behind rest
      else dir :: left_behind rest
  | _ :: rest => left_behind rest
  end.

(** A file system under [/home/me/my project] where every call succeeds. *)
Definition sound_files : Files :=
  {| cwd := js "/home/me/my project";
     path_join := fun a b => a ++ 47 :: b;
     mkdtemp := fun prefix => inr (prefix ++ js "Ab3dEf");
     writeFile := fun _ _ => None;
     rm := fun _ => None |}.

End ScriptRun.

(** ** The models of a provider (utils/provider-models.ts) *)

Module Models.

(** [FALLBACK_MODELS], a record over the three providers: any other key
    gives [undefined]. *)
Definition FALLBACK_MODELS (provider : jsstring) : option (list jsstring) :=
  if JS.eqb provider (js "anthropic") then
    Some [js "claude-3-opus-20240229"; js "claude-3-sonnet-20240229";
          js "claude-3-haiku-20240307"; js "claude-2.1"; js "claude-2.0";
          js "claude-instant-1.2"]
  else if JS.eqb provider (js "openai") then
    Some [js "gpt-4-turbo"; js "gpt-4"; js "gpt-3.5-turbo"]
  else if JS.eqb provider (js "gemini") then
    Some [js "gemini-pro"; js "gemini-pro-vision"]
  else None.

(** The two endpoints that list models, each given the API key: the
    identifiers of [models.data], or what building the client or the call
    throws. *)
Record Catalogue : Type :=
  { openai_models : jsstring -> Thrown + list jsstring;
    anthropic_models : jsstring -> Thrown + list jsstring }.

(** The order of [Array.prototype.sort] without a comparator on strings:
    code unit by code unit, a prefix first. *)
Fixpoint precedes (a b : jsstring) : bool :=
  match a, b with
  | [], _ => true
  | _ :: _, [] => false
  | x :: a', y :: b' => (x <? y) || ((x =? y) && precedes a' b')
  end.

Fixpoint insert_sorted (x : jsstring) (l : list jsstring) : list jsstring :=
  match l with
  | [] => [x]
  | y :: r => if precedes x y then x :: l else y :: insert_sorted x r
  end.

(** [a.sort()] on strings.  Strings that compare equal are the same string,
    so the result does not depend on the algorithm of the engine. *)
Definition sort (l : list jsstring) : list jsstring :=
  fold_right insert_sorted [] l.

(** [getProviderModels(provider, apiKey)].  An error of the [try] block
    is answered by [[...FALLBACK_MODELS[provider]]], and spreading
    [undefined] would throw a [TypeError]: [None] is a promise rejected that
    way. *)
Definition getProviderModels (net : Catalogue) (provider apiKey : jsstring)
  : option (list jsstring) :=
  if JS.eqb provider (js "openai") then
    match openai_models net apiKey with
    | inr ids => Some (sort (List.filter (starts_with (js "gpt-")) ids))
    | inl _ => FALLBACK_MODELS provider
    end
  else if JS.eqb provider (js "anthropic") then
    match anthropic_models net apiKey with
    | inr ids => Some ids
    | inl _ => FALLBACK_MODELS provider
    end
  else if JS.eqb provider (js "gemini") then FALLBACK_MODELS (js "gemini")
  else Some [].

(** A list in the order of [precedes]. *)
Fixpoint ascending (l : list jsstring) : Prop :=
  match l with
  | [] => True
  | a :: r => Forall (fun b => precedes a b = true) r /\ ascending r
  end.

End Models.

(** ** Printing a streamed reply (utils/stream-handler.ts and
    commands/message.ts) *)

Module StreamHandler.

(** The styles of picocolors the handler uses. *)
Inductive Style : Type := plain | bold | dim.

(** What reaches the terminal: a text written to the standard output under
    a style, or a move of the spinner. *)
Inductive Output : Type :=
| Write (style : Style) (text : jsstring)
| SpinnerStarted (text : jsstring)
| SpinnerStopped.

(** [StreamOptions]; a field that is absent is [None], or [false] for
    [newline]. *)
Record StreamOptions : Type :=
  { prefix : option jsstring;
    newline : bool;
    spinnerText : option jsstring }.

(** The text of an optional string that is truthy: present and not empty. *)
Definition truthy (s : option jsstring) : option jsstring :=
  match s with
  | Some (c :: r) => Some (c :: r)
  | _ => None
  end.

Definition fence : jsstring := [96; 96; 96].

(** [chunk.includes(sep)] *)
Definition includes (s sep : jsstring) : bool :=
  match find_first sep s with Some _ => true | None => false end.

(** [s.split(sep)] for a separator that is not empty: the pieces between
    the occurrences of [sep], found from the left.  [fuel] bounds the number
    of cuts; the length of [s] is enough. *)
Fixpoint split_at (fuel : nat) (sep s : jsstring) : list jsstring :=
  match find_first sep s with
  | None => [s]
  | Some (before, after) =>
      match fuel with
      | O => [before; after]
      | S fuel' => before :: split_at fuel' sep after
      end
  end.

Definition split_on (sep s : jsstring) : list jsstring := split_at (length s) sep s.

(** The [for] loop over the parts of a chunk that holds a fence: [i] is the
    index of the first part of [parts], [n] the number of parts of the
    chunk. *)
Fixpoint write_parts (parts : list jsstring) (i n : nat) : list Output :=
  match parts with
  | [] => []
  | part :: rest =>
      (if Nat.even i then
         match part with
         | [] => []
         | _ => [Write plain part]
         end
       else
         (if (i =? 1)%nat then [Write plain [10]] else [])
           ++ [Write dim part]
           ++ (if (S (S i) =? n)%nat then [Write plain [10]] else []))
        ++ write_parts rest (S i) n
  end.

(** The variables of the loop. *)
Record Loop : Type :=
  { fullResponse : jsstring;
    isFirstChunk : bool;
    isCodeBlock : bool;
    out : list Output }.

(** One turn of [for await (const chunk of stream)]. *)
Definition step (spinner : bool) (st : Loop) (chunk : jsstring) : Loop :=
  let stopped := if spinner && isFirstChunk st then [SpinnerStopped] else [] in
  if includes chunk fence then
    let parts := split_on fence chunk in
    {| fullResponse := fullResponse st ++ chunk;
       isFirstChunk := isFirstChunk st;
       isCodeBlock := Nat.even (length parts);
       out := out st ++ stopped ++ write_parts parts 0 (length parts) |}
  else if isCodeBlock st then
    {| fullResponse := fullResponse st ++ chunk;
       isFirstChunk := isFirstChunk st;
       isCodeBlock := true;
       out := out st ++ stopped ++ [Write dim chunk] |}
  else
    {| fullResponse := fullResponse st ++ chunk;
       isFirstChunk := false;
       isCodeBlock := false;
       out := out st ++ stopped ++ [Write plain chunk] |}.

(** What is on the terminal when the loop starts: the prefix, then the
    spinner. *)
Definition opening (options : StreamOptions) : list Output :=
  match truthy (prefix options) with
  | Some p => [Write bold p]
  | None => []
  end
  ++ match truthy (spinnerText options) with
     | Some text => [SpinnerStarted text]
     | None => []
     end.

Definition has_spinner (options : StreamOptions) : bool :=
  match truthy (spinnerText options) with Some _ => true | None => false end.

(** The loop over the fragments the stream yields. *)
Definition scan (options : StreamOptions) (fragments : list jsstring) : Loop :=
  fold_left (step (has_spinner options)) fragments
    {| fullResponse := []; isFirstChunk := true; isCodeBlock := false;
       out := opening options |}.

(** [error instanceof Error ? error : new Error("Unknown error occurred")] *)
Definition as_error (e : Thrown) : Thrown :=
  match e with
  | JsError m => JsError m
  | NonError => JsError (js "Unknown error occurred")
  end.

(** [streamResponse(stream, options)]: the whole reply, or the error
    thrown, and what reached the terminal. *)
Definition streamResponse (stream : Stream) (options : StreamOptions)
  : (Thrown + jsstring) * list Output :=
  let st := scan options (chunks stream) in
  match failure stream with
  | Some error =>
      (inl (as_error error),
       out st ++ (if has_spinner options then [SpinnerStopped] else []))
  | None =>
      (inr (fullResponse st),
       out st ++ (if newline options then [Write plain [10]] else []))
  end.

(** [handleMessage(client, message, options)] of commands/message.ts, given
    the key of the client: [None] when it resolves, the error it throws
    otherwise. *)
Definition handleMessage (net : Transport) (apiKey message provider model : jsstring)
  : option Thrown * list Output :=
  let service := new_ProviderService provider apiKey model in
  match streamResponse (streamChat service net [{| role := user; content := message |}])
          {| prefix := None; newline := true;
             spinnerText := Some (js "Generating response...") |} with
  | (inl error, o) => (Some (as_error error), o)
  | (inr _, o) => (None, o)
  end.

(** The text written to the standard output, whatever its style, and the
    number of times the spinner was stopped. *)
Definition written (o : list Output) : jsstring :=
  cat (omap (fun e => match e with Write _ text => Some text | _ => None end) o).

Definition styles (o : list Output) : list Style :=
  omap (fun e => match e with Write s _ => Some s | _ => None end) o.

Definition stops (o : list Output) : nat :=
  length (List.filter (fun e => match e with SpinnerStopped => true | _ => false end) o).

End StreamHandler.

(** ** The chat session (commands/chat.ts) *)

Module Chat.

Import StreamHandler.

(** What happens at the terminal and on the wire during a chat: an output
    of [streamResponse], a line of [console.log] or [console.error], an
    answer to the input prompt ([None] for a prompt that was cancelled), and
    a conversation sent to the model. *)
Inductive Terminal : Type :=
| Printed (o : Output)
| Line (text : jsstring)
| Answered (input : option jsstring)
| Requested (messages : list Message).

(** The user, who answers the prompt knowing all that happened, and
    [String.prototype.toLowerCase] of the engine. *)
Record Room : Type :=
  { read : list Terminal -> option jsstring;
    toLowerCase : jsstring -> jsstring }.

(** How a chat ends: by [process.exit(code)]. *)
Definition Exit : Type := N.

Definition report (error : Thrown) : Terminal :=
  Line (10 :: js "Error: " ++ message_or (js "Unknown error occurred") error).

(** One exchange: the conversation is sent and the reply streamed to the
    terminal; the reply, or the error thrown. *)
Definition exchange (bot : list Message -> Stream) (messages : list Message)
    (prefix : jsstring) (tr : list Terminal) : (Thrown + jsstring) * list Terminal :=
  let run :=
    streamResponse (bot messages)
      {| prefix := Some prefix; newline := true; spinnerText := Some (js "Thinking...") |} in
  (fst run, tr ++ [Requested messages] ++ List.map Printed (snd run)).

(** The [while (true)] loop; [fuel] bounds its iterations, and [None] is a
    chat still going on when the fuel is spent. *)
Fixpoint turns (fuel : nat) (room : Room) (bot : list Message -> Stream)
    (messages : list Message) (tr : list Terminal) : option (Exit * list Terminal) :=
  match fuel with
  | O => None
  | S fuel' =>
      let answer := read room tr in
      let tr1 := tr ++ [Answered answer] in
      let goodbye := Some (0, tr1 ++ [Line (10 :: js "Goodbye! " ++ [55357; 56395])]) in
      match answer with
      | Some (c :: s) =>
          if JS.eqb (toLowerCase room (c :: s)) (js "exit") then goodbye
          else
            let messages1 := messages ++ [{| role := user; content := c :: s |}] in
            match exchange bot messages1 (js "Assistant: ") tr1 with
            | (inr response, tr2) =>
                turns fuel' room bot
                  (messages1 ++ [{| role := assistant; content := response |}]) tr2
            | (inl error, tr2) => Some (1, tr2 ++ [report error])
            end
      | _ => goodbye
      end
  end.

(** [chat(initialProvider, initialMessage)] from the point where the
    service has been built. *)
Definition chat (room : Room) (bot : list Message -> Stream)
    (initialMessage : option jsstring) (fuel : nat) : option (Exit * list Terminal) :=
  let tr0 := [Line (10 :: js "Tip: Type 'exit' to end the chat");
              Line (js "     Use Ctrl+C to force quit" ++ [10])] in
  match initialMessage with
  | Some m =>
      match trim m with
      | _ :: _ =>
          let messages := [{| role := user; content := m |}] in
          match exchange bot messages (10 :: js "Assistant: ")
                  (tr0 ++ [Line (js "You: " ++ m)]) with
          | (inr response, tr1) =>
              turns fuel room bot
                (messages ++ [{| role := assistant; content := response |}]) tr1
          | (inl error, tr1) => Some (1, tr1 ++ [report error])
          end
      | [] => turns fuel room bot [] tr0
      end
  | None => turns fuel room bot [] tr0
  end.

(** The conversations sent to the model, in order. *)
Definition requested (tr : list Terminal) : list (list Message) :=
  omap (fun e => match e with Requested m => Some m | _ => None end) tr.


(** A user who asks two questions and leaves, and a model that answers
    with the number of messages it was sent. *)
Definition curious_room : Room :=
  {| read := fun tr =>
       match length (requested tr) with
       | 0%nat => Some (js "what is a shell?")
       | 1%nat => Some (js "and a pipe?")
       | _ => Some (js "EXIT")
       end;
     toLowerCase :=
       List.map (fun c => if (65 <=? c) && (c <=? 90) then c + 32 else c) |}.

Definition counting_bot (messages : list Message) : Stream :=
  {| chunks := [js "answer "; of_N (N.of_nat (length messages))]; failure := None |}.

End Chat.

(** ** The default action of the command line (index.ts), once the
    first-run setup is over *)

Module Cli.

(** The options [-p] and [-m]. *)
Record CliOptions : Type := { provider : option jsstring; model : option jsstring }.

(** The user at the two prompts of the action: the entry picked in a
    [select] among the values offered ([None] for a prompt that was
    cancelled), and the answer to "Set as default provider?". *)
Record Desk : Type :=
  { pick : list jsstring -> option nat;
    setDefault : bool }.

(** The two files under the configuration directory. *)
Record Machine : Type := { vault : Vault.Disk; settings : Config.ConfigDisk }.

(** How the action goes on: it shows the help and returns, it leaves with
    [process.exit(code)], or it calls [handleMessage]. *)
Inductive Verdict : Type :=
| Help
| Leave (code : N)
| Deliver (provider apiKey model text : jsstring).

(** The value a [select] resolves with. *)
Definition picked (desk : Desk) (choices : list jsstring) : option jsstring :=
  match pick desk choices with
  | Some i => nth_error choices i
  | None => None
  end.

(** The provider the action settles on, or the status it leaves with, and
    the machine after it. *)
Definition selectProvider (desk : Desk) (options : CliOptions) (m : Machine)
  : (N + jsstring) * Machine :=
  match Config.or_null (provider options) with
  | None =>
      let configured := fst (Listing.listProviders (vault m)) in
      let defaultProvider := Config.getDefaultProvider (settings m) in
      match configured with
      | [] => (inl 1, m)
      | first_configured :: others =>
          match defaultProvider with
          | Some p => (inr p, m)
          | None =>
              match others with
              | [] => (inr first_configured, m)
              | _ :: _ =>
                  match Config.or_null (picked desk configured) with
                  | None => (inl 0, m)
                  | Some p =>
                      if setDefault desk then
                        (inr p,
                         {| vault := vault m;
                            settings := Config.setDefaultProvider p (settings m) |})
                      else (inr p, m)
                  end
              end
          end
      end
  | Some p =>
      if Listing.includes [js "anthropic"; js "openai"; js "gemini"] p
      then (inr p, m)
      else (inl 1, m)
  end.

(** [options.model || defaultModel || availableModels[0]] *)
Definition selectModel (options : CliOptions) (defaultModel : option jsstring)
    (availableModels : list jsstring) : option jsstring :=
  match Config.or_null (model options) with
  | Some chosen => Some chosen
  | None =>
      match defaultModel with
      | Some m => Some m
      | None => head availableModels
      end
  end.

(** The action from [if (!message?.length)] up to the call of
    [handleMessage]; what is printed is left out. *)
Definition route (this : Vault.CredentialsManager) (net : Models.Catalogue) (desk : Desk)
    (message : list jsstring) (options : CliOptions) (m : Machine) : Verdict * Machine :=
  match message with
  | [] => (Help, m)
  | _ :: _ =>
      match selectProvider desk options m with
      | (inl code, m1) => (Leave code, m1)
      | (inr selectedProvider, m1) =>
          match Vault.getCredentials this selectedProvider (vault m1) with
          | Vault.Throw _ => (Leave 1, m1)
          | Vault.Ok None | Vault.Ok (Some []) => (Leave 1, m1)
          | Vault.Ok (Some apiKey) =>
              match Models.getProviderModels net selectedProvider apiKey with
              | None => (Leave 1, m1)
              | Some availableModels =>
                  let defaultModel :=
                    Config.getDefaultModel selectedProvider (settings m1) in
                  match selectModel options defaultModel availableModels with
                  | Some chosen =>
                      if Listing.includes availableModels chosen
                      then (Deliver selectedProvider apiKey chosen (join 32 message), m1)
                      else (Leave 1, m1)
                  | None => (Leave 1, m1)
                  end
              end
          end
      end
  end.

(** The whole action: the status the process ends with ([0] when the
    action returns), the machine it leaves and what [handleMessage]
    printed. *)
Definition action (this : Vault.CredentialsManager) (net : Models.Catalogue)
    (wire : Transport) (desk : Desk) (message : list jsstring) (options : CliOptions)
    (m : Machine) : N * Machine * list StreamHandler.Output :=
  match route this net desk message options m with
  | (Help, m1) => (0, m1, [])
  | (Leave code, m1) => (code, m1, [])
  | (Deliver p apiKey chosen text, m1) =>
      match StreamHandler.handleMessage wire apiKey text p chosen with
      | (None, o) => (0, m1, o)
      | (Some _, o) => (1, m1, o)
      end
  end.


(** Endpoints that cannot be reached. *)
Definition offline : Models.Catalogue :=
  {| Models.openai_models := fun _ => inl (JsError (js "fetch failed"));
     Models.anthropic_models := fun _ => inl (JsError (js "fetch failed")) |}.


End Cli.

(** ** The configuration command (commands/config.ts) *)

Module Configure.

Import Vault.

(** The entries of the main menu but "Exit", whose value is [null]. *)
Inductive MainChoice : Type := switch_provider | switch_model | api_keys.

(** The two kinds of entry of the key menu. *)
Inductive KeyAction : Type := update | set.

(** The user at the prompts of one run of the command, each of which is
    shown at most once: the entry picked in the main menu, in the list of
    providers, in the key menu and in the list of models ([None] for a prompt
    that was cancelled), the text typed at the hidden prompt, and the answers
    to the two confirmations. *)
Record Answers : Type :=
  { main_menu : option MainChoice;
    provider_picked : list jsstring -> option nat;
    key_entry_picked : list (KeyAction * jsstring) -> option nat;
    model_picked : list jsstring -> option nat;
    key_typed : option jsstring;
    switch_model_too : bool;
    set_a_model : bool }.

(** How a function of the command goes on: it returns a value, the process
    leaves with [process.exit(code)], or an error is thrown, which the
    [catch] of [configureProvider] answers with [process.exit(1)]. *)
Inductive Step (A : Type) : Type :=
| Done (a : A)
| Quit (code : N).
Arguments Done {A} _.
Arguments Quit {A} _.

(** [getHiddenInput(message)] *)
Definition getHiddenInput (user : Answers) : Step jsstring :=
  match Config.or_null (key_typed user) with
  | Some value => Done value
  | None => Quit 0
  end.

(** [selectModel(provider, apiKey, currentModel)]: the model picked among
    those of the provider; a prompt that gives [undefined] leaves with
    status 0. *)
Definition selectModel (net : Models.Catalogue) (user : Answers)
    (provider apiKey : jsstring) : Step jsstring :=
  match Models.getProviderModels net provider apiKey with
  | None => Quit 1
  | Some models =>
      match model_picked user models with
      | Some i =>
          match nth_error models i with
          | Some chosen => Done chosen
          | None => Quit 0
          end
      | None => Quit 0
      end
  end.

(** [if (model) { await config.setDefaultModel(provider, model); }] *)
Definition keep_model (provider model : jsstring) (m : Cli.Machine) : Cli.Machine :=
  match model with
  | [] => m
  | _ :: _ =>
      {| Cli.vault := Cli.vault m;
         Cli.settings := Config.setDefaultModel provider model (Cli.settings m) |}
  end.

Definition make_default (provider : jsstring) (m : Cli.Machine) : Cli.Machine :=
  {| Cli.vault := Cli.vault m;
     Cli.settings := Config.setDefaultProvider provider (Cli.settings m) |}.

(** [credentials.saveCredentials(provider, apiKey)] on the machine. *)
Definition save (this : CredentialsManager) (provider apiKey : jsstring) (m : Cli.Machine)
  : Result unit * Cli.Machine :=
  let run := saveCredentials this provider apiKey (Cli.vault m) in
  (fst run, {| Cli.vault := snd run; Cli.settings := Cli.settings m |}).

(** The end of a run: the status of [process.exit], or [None] when the
    command returns, and the machine it leaves. *)
Definition Run : Type := option N * Cli.Machine.

(** The model question the three handlers share: pick a model for the
    provider and keep it. *)
Definition choose_model (net : Models.Catalogue) (user : Answers)
    (provider apiKey : jsstring) (m : Cli.Machine) : Run :=
  match selectModel net user provider apiKey with
  | Quit code => (Some code, m)
  | Done model => (None, keep_model provider model m)
  end.

(** [handleSwitchProvider()] *)
Definition handleSwitchProvider (this : CredentialsManager) (net : Models.Catalogue)
    (user : Answers) (m : Cli.Machine) : Run :=
  let configured := fst (Listing.listProviders (Cli.vault m)) in
  match configured with
  | [] => (None, m)
  | _ :: _ =>
      let defaultProvider := Config.getDefaultProvider (Cli.settings m) in
      match Config.or_null (match provider_picked user configured with
                            | Some i => nth_error configured i
                            | None => None
                            end) with
      | None => (None, m)
      | Some provider =>
          if match defaultProvider with
             | Some d => JS.eqb provider d
             | None => false
             end
          then (None, m)
          else
            let m1 := make_default provider m in
            if switch_model_too user then
              match getCredentials this provider (Cli.vault m1) with
              | Throw _ => (Some 1, m1)
              | Ok None | Ok (Some []) => (None, m1)
              | Ok (Some apiKey) => choose_model net user provider apiKey m1
              end
            else (None, m1)
      end
  end.

(** [handleSwitchModel()] *)
Definition handleSwitchModel (this : CredentialsManager) (net : Models.Catalogue)
    (user : Answers) (m : Cli.Machine) : Run :=
  match Config.getDefaultProvider (Cli.settings m) with
  | None => (None, m)
  | Some defaultProvider =>
      match getCredentials this defaultProvider (Cli.vault m) with
      | Throw _ => (Some 1, m)
      | Ok None | Ok (Some []) => (None, m)
      | Ok (Some apiKey) => choose_model net user defaultProvider apiKey m
      end
  end.

(** [handleManageAPIKeys()] *)
Definition handleManageAPIKeys (this : CredentialsManager) (net : Models.Catalogue)
    (user : Answers) (m : Cli.Machine) : Run :=
  let listed := Listing.listProviders (Cli.vault m) in
  let choices :=
    List.map (fun p => (update, p)) (fst listed) ++ List.map (fun p => (set, p)) (snd listed) in
  match key_entry_picked user choices with
  | None => (None, m)
  | Some i =>
      match nth_error choices i with
      | None => (None, m)
      | Some (action, provider) =>
          match getHiddenInput user with
          | Quit code => (Some code, m)
          | Done apiKey =>
              match save this provider apiKey m with
              | (Throw _, m1) => (Some 1, m1)
              | (Ok _, m1) =>
                  match action with
                  | update => (None, m1)
                  | set =>
                      let m2 :=
                        match Config.getDefaultProvider (Cli.settings m1) with
                        | None => make_default provider m1
                        | Some _ => m1
                        end in
                      if set_a_model user
                      then choose_model net user provider apiKey m2
                      else (None, m2)
                  end
              end
          end
      end
  end.

(** [configureProvider(initialProvider)]; [showStatus] only reads and
    prints, and what is printed is left out. *)
Definition configureProvider (this : CredentialsManager) (net : Models.Catalogue)
    (user : Answers) (initialProvider : option jsstring) (m : Cli.Machine) : Run :=
  match Config.or_null initialProvider with
  | Some provider =>
      let configured := fst (Listing.listProviders (Cli.vault m)) in
      let action := if Listing.includes configured provider then update else set in
      match getHiddenInput user with
      | Quit code => (Some code, m)
      | Done apiKey =>
          match save this provider apiKey m with
          | (Throw _, m1) => (Some 1, m1)
          | (Ok _, m1) =>
              match action with
              | update => (None, m1)
              | set =>
                  let after_model :=
                    if set_a_model user
                    then choose_model net user provider apiKey m1
                    else (None, m1) in
                  match after_model with
                  | (Some code, m2) => (Some code, m2)
                  | (None, m2) =>
                      match Config.getDefaultProvider (Cli.settings m2) with
                      | None => (None, make_default provider m2)
                      | Some _ => (None, m2)
                      end
                  end
              end
          end
      end
  | None =>
      match main_menu user with
      | None => (None, m)
      | Some switch_provider => handleSwitchProvider this net user m
      | Some switch_model => handleSwitchModel this net user m
      | Some api_keys => handleManageAPIKeys this net user m
      end
  end.



(** A user who configures a key and picks the second model offered. *)
Definition newcomer : Answers :=
  {| main_menu := Some api_keys;
     provider_picked := fun _ => Some 0%nat;
     key_entry_picked := fun _ => Some 1%nat;
     model_picked := fun _ => Some 1%nat;
     key_typed := Some (js "sk-test");
     switch_model_too := true;
     set_a_model := true |}.

(** A machine on which the program never ran. *)
Definition fresh : Cli.Machine :=
  {| Cli.vault := blank_disk;
     Cli.settings := {| Config.dir := false; Config.configFile := Config.NoConfig |} |}.

End Configure.

(** * Properties *)

(** ** Strings *)

Lemma eqb_eq (a b : jsstring) : JS.eqb a b = true <-> a = b.
Proof.
  revert b. induction a as [|x a IH]; intros [|y b]; simpl; split; try congruence.
  - intros H. apply andb_prop in H as [Hx Hab].
    apply N.eqb_eq in Hx. apply IH in Hab. now subst.
  - intros H. injection H as -> ->. rewrite N.eqb_refl. simpl. now apply IH.
Qed.

Lemma eqb_refl (a : jsstring) : JS.eqb a a = true.
Proof. now apply eqb_eq. Qed.

Lemma eqb_neq (a b : jsstring) : JS.eqb a b = false <-> a <> b.
Proof.
  split.
  - intros H Heq. apply eqb_eq in Heq. congruence.
  - intros H. destruct (JS.eqb a b) eqn:Hab; [|reflexivity].
    apply eqb_eq in Hab. contradiction.
Qed.

(** ** Provider client *)

Section StreamChat.

Variable net : Transport.
Variables key model : jsstring.

Lemma rethrow_normal (s : Stream) : failure s = None -> rethrow s = s.
Proof. destruct s as [c f]. simpl. intros ->. reflexivity. Qed.

Lemma pump_anthropic (evs : list AnthropicEvent) (fin : option Thrown) :
  failure (pump anthropic_body evs fin) = fin
  /\ cat (chunks (pump anthropic_body evs fin)) = cat (List.map anthropic_text evs).
Proof.
  induction evs as [|ev evs [IHf IHc]]; simpl; [easy|].
  destruct ev as [| | | | [t|j|t|s] |]; simpl; split; auto.
  unfold cat in *. simpl. now rewrite IHc.
Qed.

Lemma pump_openai (evs : list OpenAIChunk) (fin : option Thrown) :
  failure (pump openai_body evs fin) = fin
  /\ cat (chunks (pump openai_body evs fin)) = cat (List.map openai_text evs).
Proof.
  induction evs as [|ev evs [IHf IHc]]; simpl; [easy|].
  unfold openai_body, openai_text.
  destruct (openai_content ev) as [[|c t]|]; simpl; split; auto.
  unfold cat in *. simpl. exact (f_equal (fun l => c :: t ++ l) IHc).
Qed.

Lemma pump_gemini (evs : list GeminiChunk) (fin : option Thrown) :
  forallb gemini_unblocked evs = true ->
  failure (pump gemini_body evs fin) = fin
  /\ cat (chunks (pump gemini_body evs fin)) = cat (List.map gemini_text evs).
Proof.
  induction evs as [|ev evs IH]; simpl; [easy|].
  intros H. apply andb_prop in H as [Hev Hrest].
  destruct (IH Hrest) as [IHf IHc].
  destruct ev as [[|c t]|e]; simpl in *; try discriminate; split; auto;
    unfold cat in *; simpl; first [assumption | now rewrite IHc].
Qed.

(** A gemini chunk whose [text()] throws ends the stream with that error. *)
Lemma pump_gemini_blocked (before after : list GeminiChunk) (e : Thrown)
    (fin : option Thrown) :
  forallb gemini_unblocked before = true ->
  failure (pump gemini_body (before ++ GeminiBlocked e :: after) fin) = Some e.
Proof.
  induction before as [|ev evs IH]; simpl; [easy|].
  intros H. apply andb_prop in H as [Hev Hrest].
  destruct ev as [[|c t]|e']; simpl in *; try discriminate; auto.
Qed.

End StreamChat.

Lemma provider_cases (p : jsstring) :
  In p allProviders -> p = js "anthropic" \/ p = js "openai" \/ p = js "gemini".
Proof. unfold allProviders. simpl. intuition. Qed.

Section PerProvider.

Variables (key model : jsstring) (net : Transport) (messages : list Message).

Lemma streamChat_anthropic :
  streamChat (new_ProviderService (js "anthropic") key model) net messages
  = rethrow (pump anthropic_body (events (anthropic_wire key model net messages))
              (broken (anthropic_wire key model net messages))).
Proof. reflexivity. Qed.

Lemma streamChat_openai :
  streamChat (new_ProviderService (js "openai") key model) net messages
  = rethrow (pump openai_body (events (openai_wire key model net messages))
              (broken (openai_wire key model net messages))).
Proof. reflexivity. Qed.

Lemma streamChat_gemini :
  streamChat (new_ProviderService (js "gemini") key model) net messages
  = rethrow (pump gemini_body (events (gemini_wire key model net messages))
              (broken (gemini_wire key model net messages))).
Proof. reflexivity. Qed.

Lemma reply_on_wire_anthropic :
  reply_on_wire (js "anthropic") key model net messages
  = match broken (anthropic_wire key model net messages) with
    | None => Some (cat (List.map anthropic_text (events (anthropic_wire key model net messages))))
    | Some _ => None
    end.
Proof. reflexivity. Qed.

Lemma reply_on_wire_openai :
  reply_on_wire (js "openai") key model net messages
  = match broken (openai_wire key model net messages) with
    | None => Some (cat (List.map openai_text (events (openai_wire key model net messages))))
    | Some _ => None
    end.
Proof. reflexivity. Qed.

Lemma reply_on_wire_gemini :
  reply_on_wire (js "gemini") key model net messages
  = match broken (gemini_wire key model net messages) with
    | None =>
        if forallb gemini_unblocked (events (gemini_wire key model net messages))
        then Some (cat (List.map gemini_text (events (gemini_wire key model net messages))))
        else None
    | Some _ => None
    end.
Proof. reflexivity. Qed.

End PerProvider.

(** C9: for each of the three providers and any conversation, when the
    transport delivers a reply as delta events in that provider's shape and
    ends normally, [streamChat] returns normally and the fragments it yields,
    put end to end in order, are exactly that reply. *)
Theorem streamChat_reconstructs_reply (p key model : jsstring) (net : Transport)
    (messages : list Message) (reply : jsstring) :
  In p allProviders ->
  reply_on_wire p key model net messages = Some reply ->
  failure (streamChat (new_ProviderService p key model) net messages) = None
  /\ cat (chunks (streamChat (new_ProviderService p key model) net messages)) = reply.
Proof.
  intros Hp Hwire.
  destruct (provider_cases p Hp) as [-> | [-> | ->]].
  - rewrite reply_on_wire_anthropic in Hwire. rewrite streamChat_anthropic.
    destruct (broken (anthropic_wire key model net messages)) eqn:Hb; [discriminate|].
    injection Hwire as <-.
    destruct (pump_anthropic (events (anthropic_wire key model net messages)) None)
      as [Hf Hc].
    rewrite rethrow_normal by exact Hf. auto.
  - rewrite reply_on_wire_openai in Hwire. rewrite streamChat_openai.
    destruct (broken (openai_wire key model net messages)) eqn:Hb; [discriminate|].
    injection Hwire as <-.
    destruct (pump_openai (events (openai_wire key model net messages)) None)
      as [Hf Hc].
    rewrite rethrow_normal by exact Hf. auto.
  - rewrite reply_on_wire_gemini in Hwire. rewrite streamChat_gemini.
    destruct (broken (gemini_wire key model net messages)) eqn:Hb; [discriminate|].
    destruct (forallb gemini_unblocked _) eqn:Hu; [|discriminate].
    injection Hwire as <-.
    destruct (pump_gemini (events (gemini_wire key model net messages)) None Hu)
      as [Hf Hc].
    rewrite rethrow_normal by exact Hf. auto.
Qed.

Lemma streamChat_reconstructs_reply_witness :
  (In (js "gemini") allProviders
   /\ reply_on_wire (js "gemini") (js "key") (js "gemini-pro")
        (mock_transport [js "ls "; []; js "-la"]) conversation = Some (js "ls -la"))
  /\ failure (streamChat (new_ProviderService (js "gemini") (js "key") (js "gemini-pro"))
                (mock_transport [js "ls "; []; js "-la"]) conversation) = None
  /\ cat (chunks (streamChat (new_ProviderService (js "gemini") (js "key") (js "gemini-pro"))
                    (mock_transport [js "ls "; []; js "-la"]) conversation)) = js "ls -la".
Proof.
  split.
  - split; [right; right; left; reflexivity | reflexivity].
  - apply streamChat_reconstructs_reply; [right; right; left; reflexivity | reflexivity].
Defined.

(** The same reply comes out of the three providers when their transports
    carry it. *)
Example streamChat_same_reply_everywhere :
  List.map (fun p =>
         cat (chunks (streamChat (new_ProviderService p (js "key") (js "m"))
                        (mock_transport [js "ls "; []; js "-la"]) conversation)))
    allProviders
  = [js "ls -la"; js "ls -la"; js "ls -la"].
Proof. reflexivity. Qed.

(** C8: the conversation sent to Gemini has one entry per message, in the
    order of the conversation, each with the content of its message as its
    single part and with role "user" or "model"; a system message is sent
    under the role "model", not dropped. *)
Theorem gemini_folds_system_messages (key model : jsstring) (net : Transport)
    (messages : list Message) :
  streamChat (new_ProviderService (js "gemini") key model) net messages
  = rethrow (pump gemini_body
               (events (gemini_generate net key model (gemini_contents messages)))
               (broken (gemini_generate net key model (gemini_contents messages))))
  /\ List.map g_parts (gemini_contents messages)
     = List.map (fun msg => [ {| p_text := content msg |} ]) messages
  /\ Forall (fun g => g_role g = js "user" \/ g_role g = js "model")
       (gemini_contents messages)
  /\ (forall i msg, nth_error messages i = Some msg -> role msg = system ->
        nth_error (gemini_contents messages) i
        = Some {| g_role := js "model"; g_parts := [ {| p_text := content msg |} ] |}).
Proof.
  split; [reflexivity|]. split; [|split].
  - unfold gemini_contents. rewrite List.map_map. reflexivity.
  - induction messages as [|msg rest IH]; simpl; constructor; [|exact IH].
    simpl. destruct (role msg); auto.
  - intros i msg Hi Hrole. unfold gemini_contents.
    rewrite nth_error_map, Hi. simpl. now rewrite Hrole.
Qed.

Lemma gemini_folds_system_messages_witness :
  nth_error conversation 0
  = Some {| role := system; content := js "You are a shell command expert." |}
  /\ nth_error (gemini_contents conversation) 0
     = Some {| g_role := js "model";
               g_parts := [ {| p_text := js "You are a shell command expert." |} ] |}.
Proof.
  split; [reflexivity|].
  exact (proj2 (proj2 (proj2
           (gemini_folds_system_messages (js "key") (js "gemini-pro")
              (mock_transport []) conversation)))
           0%nat {| role := system; content := js "You are a shell command expert." |}
           eq_refl eq_refl).
Defined.

(** C10: a service built for a provider outside the closed set has no
    client at all, and its [streamChat] returns at once: no fragment, no
    error. *)
Theorem unknown_provider_streams_nothing (p key model : jsstring) (net : Transport)
    (messages : list Message) :
  ~ In p allProviders ->
  anthropicClient (new_ProviderService p key model) = None
  /\ openaiClient (new_ProviderService p key model) = None
  /\ geminiClient (new_ProviderService p key model) = None
  /\ streamChat (new_ProviderService p key model) net messages
     = {| chunks := []; failure := None |}.
Proof.
  intros Hp.
  assert (Ha : JS.eqb p (js "anthropic") = false)
    by (apply eqb_neq; intros ->; apply Hp; simpl; auto).
  assert (Ho : JS.eqb p (js "openai") = false)
    by (apply eqb_neq; intros ->; apply Hp; simpl; auto).
  assert (Hg : JS.eqb p (js "gemini") = false)
    by (apply eqb_neq; intros ->; apply Hp; simpl; auto).
  unfold streamChat, new_ProviderService, initializeClient. simpl.
  rewrite Ha, Ho, Hg. simpl. rewrite Ha, Ho, Hg. auto.
Qed.

Lemma unknown_provider_streams_nothing_witness :
  ~ In (js "mistral") allProviders
  /\ anthropicClient (new_ProviderService (js "mistral") (js "key") (js "m")) = None
  /\ openaiClient (new_ProviderService (js "mistral") (js "key") (js "m")) = None
  /\ geminiClient (new_ProviderService (js "mistral") (js "key") (js "m")) = None
  /\ streamChat (new_ProviderService (js "mistral") (js "key") (js "m"))
       (mock_transport [js "ls"]) conversation
     = {| chunks := []; failure := None |}.
Proof.
  assert (H : ~ In (js "mistral") allProviders).
  { simpl. intros [H | [H | [H | []]]]; discriminate H. }
  split; [exact H | apply unknown_provider_streams_nothing; exact H].
Defined.

(** ** Command executor *)

Import Executor.

(** The body of [executeCommand], one level unfolded. *)
Lemma executeCommand_body (w : World) (service : Service) (command : jsstring)
    (attempts : nat) (options : Options) (h : History) :
  executeCommand w service command attempts options h
  = match run_child w command options h with
    | (None, h1) => (Resolved, say h1 (10 :: 10003 :: js " Command executed successfully"))
    | (Some error, h1) =>
        if le_lt_dec (maxAttempts - 1) attempts then abandon h1 command error
        else
          match consult w service command attempts options error h1 with
          | GiveUp e h' => (Rejected e, h')
          | Retry correctedCommand h7 =>
              through_catch
                (executeCommand w service correctedCommand (S attempts) options h7)
          end
    end.
Proof.
  simp executeCommand.
  destruct (run_child w command options h) as [[error|] h1];
    simp executeCommand; [|reflexivity].
  destruct (le_lt_dec (maxAttempts - 1) attempts); simp executeCommand; [reflexivity|].
  destruct (consult w service command attempts options error h1);
    simp executeCommand; reflexivity.
Qed.

Lemma spawns_app (h1 h2 : History) : spawns (h1 ++ h2) = spawns h1 ++ spawns h2.
Proof. apply omap_app. Qed.

Lemma requests_app (h1 h2 : History) : requests (h1 ++ h2) = requests h1 ++ requests h2.
Proof. apply omap_app. Qed.

Lemma confirmations_app (h1 h2 : History) :
  confirmations (h1 ++ h2) = confirmations h1 ++ confirmations h2.
Proof. apply omap_app. Qed.

(** Projections of a history distribute over the events a function
    appends. *)
Ltac project_history :=
  unfold abandon, announce, report_failure, say;
  rewrite ?spawns_app, ?requests_app, ?confirmations_app;
  cbn [spawns requests confirmations omap list_omap app];
  rewrite ?app_nil_r.

Lemma run_child_failed (w : World) (command : jsstring) (options : Options)
    (h : History) (error : jsstring) :
  exec_error (executor w h (launch_of command options)) = Some error ->
  run_child w command options h
  = (Some error,
     h ++ [Spawned (launch_of command options) (executor w h (launch_of command options))]).
Proof. intros H. unfold run_child. now rewrite H. Qed.

Section Sessions.

Variables (w : World) (service : Service) (options : Options).

(** A correction that differs from the failed command and that the user
    accepts leads to the retry, with one request and one confirmation more
    in the history and no launch. *)
Lemma consult_retry (command error : jsstring) (attempts : nat) (h1 : History) :
  failure (ask service (announce h1 command error attempts)
             [correction_request command options error]) = None ->
  correction service options (announce h1 command error attempts) command error <> command ->
  (forall h, confirm w h = true) ->
  exists h7,
    consult w service command attempts options error h1
    = Retry (correction service options (announce h1 command error attempts) command error) h7
    /\ spawns h7 = spawns h1
    /\ requests h7 = requests h1 ++ [[correction_request command options error]]
    /\ confirmations h7 = confirmations h1 ++ [true].
Proof.
  intros Hok Hdiff Hyes. unfold consult. rewrite Hok.
  apply eqb_neq in Hdiff. unfold correction in Hdiff. rewrite Hdiff, Hyes.
  eexists. split; [reflexivity|].
  project_history. auto.
Qed.

(** A correction equal to the failed command stops the session before any
    prompt. *)
Lemma consult_no_better (command error : jsstring) (attempts : nat) (h1 : History) :
  failure (ask service (announce h1 command error attempts)
             [correction_request command options error]) = None ->
  correction service options (announce h1 command error attempts) command error = command ->
  exists h',
    consult w service command attempts options error h1 = GiveUp (JsError no_better) h'
    /\ spawns h' = spawns h1
    /\ requests h' = requests h1 ++ [[correction_request command options error]]
    /\ confirmations h' = confirmations h1.
Proof.
  intros Hok Hsame. unfold consult. rewrite Hok.
  apply eqb_eq in Hsame. unfold correction in Hsame. rewrite Hsame.
  eexists. split; [reflexivity|].
  project_history. auto.
Qed.

Hypothesis always_fails : forall h l, exec_error (executor w h l) <> None.
Hypothesis always_different :
  forall h command error,
    failure (ask service h [correction_request command options error]) = None
    /\ correction service options h command error <> command.
Hypothesis always_accepted : forall h, confirm w h = true.

(** With [n] retries left, a session that only meets failures launches
    [n + 1] commands, asks for [n] corrections and is rejected with the error
    of its last launch. *)
Lemma exhausting_run (n : nat) :
  forall command attempts h,
    (attempts + n = maxAttempts - 1)%nat ->
    exists e h' l out,
      executeCommand w service command attempts options h = (Rejected (JsError e), h')
      /\ length (spawns h') = (length (spawns h) + S n)%nat
      /\ length (requests h') = (length (requests h) + n)%nat
      /\ length (confirmations h') = (length (confirmations h) + n)%nat
      /\ last (spawns h') = Some (l, out)
      /\ exec_error out = Some e.
Proof.
  induction n as [|n IH]; intros command attempts h Hn.
  - destruct (exec_error (executor w h (launch_of command options))) as [error|] eqn:He;
      [|now apply always_fails in He].
    rewrite executeCommand_body, (run_child_failed _ _ _ _ _ He).
    destruct (le_lt_dec (maxAttempts - 1) attempts) as [_|Hlt]; [|lia].
    exists error. eexists. eexists. eexists. split; [reflexivity|].
    project_history. rewrite !length_app. simpl.
    rewrite last_snoc. repeat split; auto; lia.
  - destruct (exec_error (executor w h (launch_of command options))) as [error|] eqn:He;
      [|now apply always_fails in He].
    rewrite executeCommand_body, (run_child_failed _ _ _ _ _ He).
    destruct (le_lt_dec (maxAttempts - 1) attempts) as [Hge|_]; [lia|].
    set (h1 := h ++ [Spawned _ _]).
    destruct (always_different (announce h1 command error attempts) command error)
      as [Hok Hdiff].
    destruct (consult_retry command error attempts h1 Hok Hdiff always_accepted)
      as (h7 & -> & Hs & Hr & Hc).
    destruct (IH (correction service options (announce h1 command error attempts) command error)
                 (S attempts) h7 ltac:(lia))
      as (e & h' & l & out & -> & Hs' & Hr' & Hc' & Hlast & Herr).
    exists e. eexists. exists l, out. split; [reflexivity|].
    project_history. rewrite Hs', Hr', Hc', Hs, Hr, Hc. subst h1.
    project_history. rewrite !length_app. simpl.
    repeat split; auto; lia.
Qed.

End Sessions.

(** C2: when every launch fails, every correction differs from the command
    that just failed and the user accepts every correction, a session
    started with [attempts = 0] launches exactly [maxAttempts] commands, asks
    for two corrections, and ends rejected. *)
Theorem retry_bound (w : World) (service : Service) (options : Options)
    (command : jsstring) (h : History) :
  (forall h l, exec_error (executor w h l) <> None) ->
  (forall h command error,
      failure (ask service h [correction_request command options error]) = None
      /\ correction service options h command error <> command) ->
  (forall h, confirm w h = true) ->
  exists e h',
    executeCommand w service command 0 options h = (Rejected (JsError e), h')
    /\ length (spawns h') = (length (spawns h) + maxAttempts)%nat
    /\ length (requests h') = (length (requests h) + (maxAttempts - 1))%nat.
Proof.
  intros Hfail Hdiff Hyes.
  destruct (exhausting_run w service options Hfail Hdiff Hyes 2 command 0%nat h eq_refl)
    as (e & h' & l & out & Hrun & Hs & Hr & _).
  exists e, h'. auto.
Qed.

Lemma normalize_letters (n : nat) : normalize (repeat 120 n) = repeat 120 n.
Proof.
  unfold normalize, collapse_spaces, trim.
  assert (Hc : forall b, collapse_from b (repeat 120 n) = repeat 120 n).
  { induction n as [|n IH]; intros b; simpl; [reflexivity|]. now rewrite IH. }
  assert (Hd : drop_spaces (repeat 120 n) = repeat 120 n) by (destruct n; reflexivity).
  now rewrite Hc, Hd, rev_repeat, Hd, rev_repeat.
Qed.

Lemma inventive_service_differs (options : Options) (h : History)
    (command error : jsstring) :
  failure (ask inventive_service h [correction_request command options error]) = None
  /\ correction inventive_service options h command error <> command.
Proof.
  split; [reflexivity|].
  unfold correction. cbn [ask inventive_service chunks cat List.concat List.map].
  rewrite !app_nil_r, normalize_letters.
  intros Heq. apply (f_equal (@length _)) in Heq.
  rewrite repeat_length in Heq. unfold correction_request, cat in Heq. cbn [content] in Heq.
  cbn [List.concat] in Heq. rewrite !length_app in Heq.
  change (length [34]) with 1%nat in Heq. lia.
Qed.

Lemma retry_bound_witness :
  (forall h l, exec_error (executor failing_world h l) <> None)
  /\ (forall h command error,
        failure (ask inventive_service h [correction_request command default_options error])
        = None
        /\ correction inventive_service default_options h command error <> command)
  /\ (forall h, confirm failing_world h = true)
  /\ exists e h',
       executeCommand failing_world inventive_service (js "ls") 0 default_options []
       = (Rejected (JsError e), h')
       /\ length (spawns h') = (length (spawns ([] : History)) + maxAttempts)%nat
       /\ length (requests h') = (length (requests ([] : History)) + (maxAttempts - 1))%nat.
Proof.
  assert (Hfail : forall h l, exec_error (executor failing_world h l) <> None)
    by (intros h l; discriminate).
  assert (Hyes : forall h, confirm failing_world h = true) by reflexivity.
  split; [exact Hfail|]. split; [apply inventive_service_differs|]. split; [exact Hyes|].
  exact (retry_bound failing_world inventive_service default_options (js "ls") []
           Hfail (inventive_service_differs default_options) Hyes).
Defined.

(** C3: when a launch fails with retries left and the cleaned-up reply to
    the correction request is the failed command itself, the call is
    rejected with "AI couldn't find a better solution": its history gains
    that one launch and that one request, and no confirmation prompt. *)
Theorem no_improvement_stops (w : World) (service : Service) (options : Options)
    (command error : jsstring) (attempts : nat) (h : History) :
  (attempts < maxAttempts - 1)%nat ->
  exec_error (executor w h (launch_of command options)) = Some error ->
  failure (ask service
             (announce (h ++ [Spawned (launch_of command options)
                                (executor w h (launch_of command options))])
                command error attempts)
             [correction_request command options error]) = None ->
  correction service options
    (announce (h ++ [Spawned (launch_of command options)
                       (executor w h (launch_of command options))])
       command error attempts)
    command error = command ->
  exists h',
    executeCommand w service command attempts options h = (Rejected (JsError no_better), h')
    /\ spawns h'
       = spawns h ++ [(launch_of command options, executor w h (launch_of command options))]
    /\ requests h' = requests h ++ [[correction_request command options error]]
    /\ confirmations h' = confirmations h.
Proof.
  intros Hlt He Hok Hsame.
  rewrite executeCommand_body, (run_child_failed _ _ _ _ _ He).
  destruct (le_lt_dec (maxAttempts - 1) attempts) as [Hge|_]; [lia|].
  destruct (consult_no_better w service options command error attempts _ Hok Hsame)
    as (h' & -> & Hs & Hr & Hc).
  exists h'. split; [reflexivity|].
  rewrite Hs, Hr, Hc. project_history. auto.
Qed.

Lemma no_improvement_stops_witness :
  (0 < maxAttempts - 1)%nat
  /\ exec_error (executor failing_world [] (launch_of (js "ls -la") default_options))
     = Some (js "boom")
  /\ failure (ask stubborn_service
                (announce ([] ++ [Spawned (launch_of (js "ls -la") default_options)
                                    (executor failing_world []
                                       (launch_of (js "ls -la") default_options))])
                   (js "ls -la") (js "boom") 0)
                [correction_request (js "ls -la") default_options (js "boom")]) = None
  /\ correction stubborn_service default_options
       (announce ([] ++ [Spawned (launch_of (js "ls -la") default_options)
                           (executor failing_world []
                              (launch_of (js "ls -la") default_options))])
          (js "ls -la") (js "boom") 0)
       (js "ls -la") (js "boom") = js "ls -la"
  /\ exists h',
       executeCommand failing_world stubborn_service (js "ls -la") 0 default_options []
       = (Rejected (JsError no_better), h')
       /\ spawns h'
          = spawns [] ++ [(launch_of (js "ls -la") default_options,
                           executor failing_world [] (launch_of (js "ls -la") default_options))]
       /\ requests h'
          = requests [] ++ [[correction_request (js "ls -la") default_options (js "boom")]]
       /\ confirmations h' = confirmations [].
Proof.
  assert (H1 : (0 < maxAttempts - 1)%nat) by (unfold maxAttempts; lia).
  assert (H4 : correction stubborn_service default_options
                 (announce ([] ++ [Spawned (launch_of (js "ls -la") default_options)
                                     (executor failing_world []
                                        (launch_of (js "ls -la") default_options))])
                    (js "ls -la") (js "boom") 0)
                 (js "ls -la") (js "boom") = js "ls -la")
    by (vm_compute; reflexivity).
  split; [exact H1|]. split; [reflexivity|]. split; [reflexivity|]. split; [exact H4|].
  exact (no_improvement_stops failing_world stubborn_service default_options
           (js "ls -la") (js "boom") 0 [] H1 eq_refl eq_refl H4).
Defined.




(** ** Shell command generator *)

Import ShellCommand.

(** The blocklist check itself does what it is meant to: a command that
    matches a blocklist pattern is refused. *)
Lemma validateCommand_blocks (command : jsstring) (h : History) :
  some_test blockedCommands command = true -> fst (validateCommand command h) = false.
Proof.
  intros Hb. unfold validateCommand.
  destruct (some_test syntaxErrors command); [reflexivity|]. now rewrite Hb.
Qed.

(** A command that matches no pattern of either list passes, and nothing is
    printed. *)
Lemma validateCommand_passes (command : jsstring) (h : History) :
  some_test syntaxErrors command = false ->
  some_test blockedCommands command = false ->
  validateCommand command h = (true, h).
Proof. intros Hs Hb. unfold validateCommand. now rewrite Hs, Hb. Qed.

Example validateCommand_git_status (h : History) :
  validateCommand (js "git status") h = (true, h).
Proof. apply validateCommand_passes; vm_compute; reflexivity. Qed.

Example validateCommand_examples :
  List.map (fun c => fst (validateCommand c []))
    [ js "sudo rm -rf /home"; js "mv /etc/passwd /dev/null";
      js "dd if=/dev/zero of=/dev/sda"; js "mkfs -f /dev/sda1";
      js "shred -u secrets.txt" ]
  = [false; false; false; false; false].
Proof. vm_compute. reflexivity. Qed.

(** The pattern for the root deletion ends in [\/\b], which wants a word
    character after the slash: the deletion of [/] itself is not on the
    blocklist. *)
Example validateCommand_misses_root :
  fst (validateCommand (js "sudo rm -rf /") []) = true
  /\ fst (validateCommand (js "sudo rm -rf /*") []) = true.
Proof. split; vm_compute; reflexivity. Qed.

(** Whatever the command, once the user chooses to execute it the review
    loop launches the shell with it: no check stands between the choice and
    the launch. *)
Lemma review_launches_what_the_user_executes (w : World) (command : jsstring)
    (fuel : nat) (h : History) :
  (forall h, choose w h = execute) ->
  exists ending h' out,
    review (S fuel) w command false h = Some (ending, h')
    /\ In ({| program := user_shell w; args := [js "-c"; command]; in_shell := false |}, out)
         (spawns h').
Proof.
  intros Hexec. cbn [review]. unfold confirmCommand. rewrite Hexec.
  assert (Hin : forall out hh tail,
             In ({| program := user_shell w; args := [js "-c"; command];
                    in_shell := false |}, out)
                (spawns ((hh ++ [Spawned {| program := user_shell w;
                                            args := [js "-c"; command];
                                            in_shell := false |} out]) ++ tail))).
  { intros out hh tail. rewrite !spawns_app. apply in_or_app. left.
    apply in_or_app. right. simpl. auto. }
  match goal with
  | |- context [executor w ?hh ?l] => destruct (executor w hh l) as [m | [[|code]|] stderr]
  end; unfold fail_with, say; do 3 eexists; (split; [reflexivity | apply Hin]).
Qed.

(** C1 fails on the code: [validateCommand] refuses the command, but no call
    path consults it.  The model suggests a privileged recursive delete, the
    user chooses to execute, and the shell is launched with it. *)
Theorem blocked_command_reaches_executor :
  fst (validateCommand (js "sudo rm -rf /home") []) = false
  /\ exists h',
       generateCommand compliant_world reckless_service (js "free some disk space")
         false 1 []
       = Some (Return, h')
       /\ spawns h'
          = [({| program := js "/bin/sh"; args := [js "-c"; js "sudo rm -rf /home"];
                 in_shell := false |},
              Exited (Some 0) [])].
Proof.
  split; [vm_compute; reflexivity|].
  eexists. split; vm_compute; reflexivity.
Qed.

(** ** Script generator *)

Import Script.

Lemma replace_absent (s p repl : jsstring) : find_first p s = None -> replace s p repl = s.
Proof. intros H. unfold replace. now rewrite H. Qed.

(** The node template marks the place of the script with [//], the text
    looked for starts with [#]: the template does not contain it. *)
Lemma node_template_without_placeholder :
  find_first placeholder (SCRIPT_TEMPLATES node) = None.
Proof. vm_compute. reflexivity. Qed.

(** C5 fails on the code for node scripts: whatever the model replies, the
    artifact is the bare template, and the reply is lost. *)
Theorem node_script_loses_the_reply :
  (forall content, fill_template node content = SCRIPT_TEMPLATES node)
  /\ includes (fill_template node (js "console.log(1)")) (js "console.log(1)") = false.
Proof.
  split.
  - intros content. apply replace_absent, node_template_without_placeholder.
  - vm_compute. reflexivity.
Qed.

Lemma get_substitution_plain (matched before after repl : jsstring) :
  Forall (fun c => c <> 36) repl ->
  get_substitution matched before after repl = repl.
Proof.
  induction 1 as [|c r Hc Hr IH]; [reflexivity|].
  cbn [get_substitution]. apply N.eqb_neq in Hc. now rewrite Hc, IH.
Qed.

(** For bash and python, a reply without a dollar sign is inserted as it is,
    trimmed, in place of the placeholder. *)
Lemma fill_template_plain (t : ScriptType) (content : jsstring) :
  t <> node ->
  Forall (fun c => c <> 36) (trim content) ->
  fill_template t content = before_placeholder t ++ trim content ++ after_placeholder t.
Proof.
  intros Ht Hplain. unfold fill_template, replace, before_placeholder, after_placeholder.
  destruct t; [| |contradiction].
  - destruct (find_first placeholder (SCRIPT_TEMPLATES bash)) as [[before after]|] eqn:Hf;
      [|vm_compute in Hf; discriminate].
    now rewrite get_substitution_plain.
  - destruct (find_first placeholder (SCRIPT_TEMPLATES python)) as [[before after]|] eqn:Hf;
      [|vm_compute in Hf; discriminate].
    now rewrite get_substitution_plain.
Qed.

Example python_script_holds_the_reply :
  fill_template python (js "  print(1)  ")
  = cat [js "#!/usr/bin/env python3"; [10]; [10]; js "import sys"; [10]; js "import os";
         [10]; [10]; js "def main():"; [10]; js "    print(1)"; [10]; js "    pass"; [10];
         [10]; js "if __name__ == "; [34]; js "__main__"; [34]; js ":"; [10];
         js "    main()"; [10]].
Proof. vm_compute. reflexivity. Qed.

(** In the two templates that do hold the placeholder, the reply is not
    copied verbatim either when it contains a dollar pattern of
    [String.prototype.replace]: [$$] is written as a single dollar sign. *)
Example bash_script_rewrites_dollars :
  fill_template bash (js "echo $$")
  = cat [js "#!/bin/bash"; [10]; js "set -euo pipefail"; [10]; js "IFS=$'"; [10; 9];
         js "'"; [10]; [10]; js "echo $"; [10]]
  /\ includes (fill_template bash (js "echo $$")) (js "echo $$") = false.
Proof. split; vm_compute; reflexivity. Qed.

(** ** Credential vault *)

Import Vault.

(** *** Hexadecimal and UTF-8 *)

Lemma hex_decode_encode_byte (b : Byte.byte) (rest : jsstring) :
  hex_decode (hex_digit (Byte.to_N b / 16) :: hex_digit (Byte.to_N b mod 16) :: rest)
  = b :: hex_decode rest.
Proof. destruct b; reflexivity. Qed.

Lemma hex_decode_encode (buf : bytes) : hex_decode (hex_encode buf) = buf.
Proof.
  induction buf as [|b buf IH]; [reflexivity|].
  unfold hex_encode. cbn [flat_map app].
  fold (hex_encode buf). rewrite hex_decode_encode_byte. now rewrite IH.
Qed.

Lemma byte_of_N_to_N (n : N) : n < 256 -> Byte.to_N (byte_of_N n) = n.
Proof.
  intros Hn. unfold byte_of_N. rewrite N.mod_small by exact Hn.
  destruct (Byte.of_N n) as [b|] eqn:Hb.
  - now apply Byte.to_of_N.
  - apply Byte.of_N_None_iff in Hb. lia.
Qed.

Lemma lead_ascii (c : N) : c <= 127 -> lead c = ([c], idle).
Proof. intros Hc. unfold lead. apply N.leb_le in Hc. now rewrite Hc. Qed.

Lemma utf8_round_trip_ascii (s : jsstring) :
  Forall (fun c => c <= 127) s -> utf8_decode (utf8_encode s) = s.
Proof.
  unfold utf8_decode.
  induction 1 as [|c s Hc Hs IH]; [reflexivity|].
  cbn [utf8_encode].
  assert (Hhi : is_high_surrogate c = false).
  { unfold is_high_surrogate. apply andb_false_iff. left. apply N.leb_gt. lia. }
  assert (Hlo : is_low_surrogate c = false).
  { unfold is_low_surrogate. apply andb_false_iff. left. apply N.leb_gt. lia. }
  rewrite Hhi, Hlo. unfold utf8_of_code_point.
  assert (Hlt : (c <? 128) = true) by (apply N.ltb_lt; lia).
  rewrite Hlt. cbn [app utf8_decode_from remaining idle].
  rewrite byte_of_N_to_N by lia. rewrite lead_ascii by exact Hc.
  cbn [app]. now rewrite IH.
Qed.

Lemma printable_is_ascii (s : jsstring) : printable_ascii s -> Forall (fun c => c <= 127) s.
Proof.
  unfold printable_ascii. intros H. eapply Forall_impl; [exact H|].
  cbn beta. intros c Hc. lia.
Qed.

(** *** Exclusive or *)

Lemma xor_byte_involutive (a b : Byte.byte) : xor_byte (xor_byte a b) b = a.
Proof.
  unfold xor_byte.
  destruct (Byte.to_bits b) as (b0 & b1 & b2 & b3 & b4 & b5 & b6 & b7).
  destruct (Byte.to_bits a) as (a0 & a1 & a2 & a3 & a4 & a5 & a6 & a7) eqn:Ha.
  rewrite Byte.to_bits_of_bits.
  rewrite !xorb_assoc, !xorb_nilpotent, !xorb_false_r.
  rewrite <- Ha. apply Byte.of_bits_to_bits.
Qed.

Lemma xor_bytes_involutive (a b : bytes) :
  (length a <= length b)%nat -> xor_bytes (xor_bytes a b) b = a.
Proof.
  revert b. induction a as [|x a IH]; intros [|y b] Hlen; simpl in *; try reflexivity; [lia|].
  rewrite xor_byte_involutive, IH by lia. reflexivity.
Qed.

Lemma xor_bytes_length (a b : bytes) :
  length a = length b -> length (xor_bytes a b) = length a.
Proof.
  revert b. induction a as [|x a IH]; intros [|y b] Hlen; simpl in *; try lia.
  rewrite IH by lia. reflexivity.
Qed.

(** *** Padding and blocks *)

Lemma pad_count (m : bytes) :
  (1 <= 16 - length m mod 16 <= 16)%nat.
Proof. pose proof (Nat.mod_upper_bound (length m) 16). lia. Qed.

Lemma pkcs7_pad_length (m : bytes) :
  length (pkcs7_pad m) = (16 * S (length m / 16))%nat.
Proof.
  unfold pkcs7_pad. rewrite length_app, repeat_length.
  pose proof (Nat.div_mod_eq (length m) 16).
  pose proof (Nat.mod_upper_bound (length m) 16). lia.
Qed.

Lemma pkcs7_unpad_pad (m : bytes) : pkcs7_unpad (pkcs7_pad m) = Ok m.
Proof.
  unfold pkcs7_unpad, pkcs7_pad.
  pose proof (pad_count m) as Hn.
  set (n := (16 - length m mod 16)%nat) in *.
  set (b := byte_of_N (N.of_nat n)).
  assert (Hlast : List.last (m ++ repeat b n) Byte.x00 = b).
  { destruct n as [|n']; [lia|].
    change (repeat b (S n')) with (b :: repeat b n').
    rewrite repeat_cons, app_assoc. apply last_last. }
  rewrite Hlast.
  assert (Hb : N.to_nat (Byte.to_N b) = n).
  { unfold b. rewrite byte_of_N_to_N by lia. apply Nat2N.id. }
  rewrite Hb, length_app, repeat_length.
  replace (length m + n - n)%nat with (length m) by lia.
  rewrite skipn_app, skipn_all, Nat.sub_diag. cbn [skipn app].
  rewrite firstn_app, firstn_all, Nat.sub_diag. cbn [firstn]. rewrite app_nil_r.
  assert (Hall : forallb (Byte.eqb b) (repeat b n) = true).
  { apply forallb_forall. intros x Hx. apply repeat_spec in Hx. subst x.
    now apply Byte.byte_dec_lb. }
  rewrite skipn_O, Hall.
  destruct n as [|n']; [lia|].
  assert (H16 : (S n' <=? 16)%nat = true) by (apply Nat.leb_le; lia).
  assert (Hle : (S n' <=? length m + S n')%nat = true) by (apply Nat.leb_le; lia).
  rewrite H16, Hle. reflexivity.
Qed.

Lemma blocks_of_concat (bs : list bytes) :
  Forall block_sized bs -> blocks_of (length bs) (List.concat bs) = bs.
Proof.
  induction 1 as [|b bs Hb Hbs IH]; [reflexivity|].
  cbn [length blocks_of List.concat]. red in Hb.
  rewrite firstn_app, skipn_app, Hb, Nat.sub_diag, firstn_O, skipn_O, app_nil_r.
  rewrite take_ge, drop_ge by lia. cbn [app]. now rewrite IH.
Qed.

Lemma concat_block_sized_length (bs : list bytes) :
  Forall block_sized bs -> length (List.concat bs) = (16 * length bs)%nat.
Proof.
  induction 1 as [|b bs Hb Hbs IH]; [reflexivity|].
  cbn [List.concat length]. red in Hb. rewrite length_app, IH, Hb. lia.
Qed.

Lemma split_blocks_concat (bs : list bytes) :
  Forall block_sized bs -> split_blocks (List.concat bs) = bs.
Proof.
  intros H. unfold split_blocks. rewrite (concat_block_sized_length bs H).
  rewrite Nat.mul_comm, Nat.div_mul by lia. now apply blocks_of_concat.
Qed.

Lemma blocks_of_whole (n : nat) :
  forall m, length m = (16 * n)%nat ->
            List.concat (blocks_of n m) = m /\ Forall block_sized (blocks_of n m).
Proof.
  induction n as [|n IH]; intros m Hm.
  - destruct m; [split; [reflexivity | constructor] | simpl in Hm; lia].
  - cbn [blocks_of List.concat].
    destruct (IH (skipn 16 m)) as [Hc Hf]; [rewrite length_skipn; lia|].
    rewrite Hc. split; [apply firstn_skipn|].
    constructor; [|exact Hf]. red. rewrite length_firstn. lia.
Qed.

(** *** Cipher block chaining *)

Section Chaining.

Variables (c : BlockCipher) (key : bytes).
Hypothesis laws : BlockCipherLaws c.
Hypothesis key_size : length key = 32%nat.

Lemma cbc_encrypt_block_sized (ps : list bytes) :
  forall prev, Forall block_sized ps -> block_sized prev ->
               Forall block_sized (cbc_encrypt_blocks (E c key) prev ps)
               /\ length (cbc_encrypt_blocks (E c key) prev ps) = length ps.
Proof.
  induction ps as [|p ps IH]; intros prev Hps Hprev; [split; [constructor | reflexivity]|].
  inversion Hps as [|? ? Hp Hps']; subst. red in Hp, Hprev.
  assert (Hc : block_sized (E c key (xor_bytes p prev))).
  { apply (E_length c laws); [exact key_size|]. rewrite xor_bytes_length; congruence. }
  cbn [cbc_encrypt_blocks]. destruct (IH _ Hps' Hc) as [Hf Hl].
  split; [constructor; assumption | cbn [length]; now rewrite Hl].
Qed.

Lemma cbc_round_trip (ps : list bytes) :
  forall prev, Forall block_sized ps -> block_sized prev ->
               cbc_decrypt_blocks (D c key) prev (cbc_encrypt_blocks (E c key) prev ps) = ps.
Proof.
  induction ps as [|p ps IH]; intros prev Hps Hprev; [reflexivity|].
  inversion Hps as [|? ? Hp Hps']; subst. red in Hp, Hprev.
  assert (Hx : length (xor_bytes p prev) = 16%nat)
    by (rewrite xor_bytes_length; congruence).
  cbn [cbc_encrypt_blocks cbc_decrypt_blocks].
  rewrite (D_E c laws) by assumption.
  rewrite xor_bytes_involutive by lia.
  rewrite IH; [reflexivity | assumption |].
  now apply (E_length c laws).
Qed.

(** Deciphering under the key and the initialisation vector of the
    encipherment gives the plain text back. *)
Lemma aes_256_cbc_round_trip (iv plain out : bytes) :
  length iv = 16%nat ->
  aes_256_cbc_encrypt c key iv plain = Ok out ->
  aes_256_cbc_decrypt c key iv out = Ok plain.
Proof.
  intros Hiv. unfold aes_256_cbc_encrypt, aes_256_cbc_decrypt.
  rewrite key_size, Hiv. cbn [Nat.eqb negb].
  intros Hout. injection Hout as <-.
  pose proof (pkcs7_pad_length plain) as Hlen.
  destruct (blocks_of_whole _ _ Hlen) as [Hcat Hsized].
  assert (Hsplit : split_blocks (pkcs7_pad plain)
                   = blocks_of (S (length plain / 16)) (pkcs7_pad plain)).
  { unfold split_blocks. rewrite Hlen, Nat.mul_comm, Nat.div_mul by lia. reflexivity. }
  rewrite Hsplit.
  destruct (cbc_encrypt_block_sized _ iv Hsized Hiv) as [Hf Hl].
  rewrite (concat_block_sized_length _ Hf), Hl.
  assert (Hnz : (16 * length (blocks_of (S (length plain / 16)) (pkcs7_pad plain)) =? 0)%nat
                = false) by (apply Nat.eqb_neq; cbn [blocks_of length]; lia).
  assert (Hmod : ((16 * length (blocks_of (S (length plain / 16)) (pkcs7_pad plain))) mod 16
                  =? 0)%nat = true).
  { apply Nat.eqb_eq. rewrite Nat.mul_comm. apply Nat.Div0.mod_mul. }
  rewrite Hnz, Hmod. cbn [orb negb].
  rewrite (split_blocks_concat _ Hf), (cbc_round_trip _ iv Hsized Hiv), Hcat.
  apply pkcs7_unpad_pad.
Qed.

End Chaining.

(** *** The manager *)

Section Manager.

Variable this : CredentialsManager.
Hypothesis laws : BlockCipherLaws (cipher this).
Hypothesis key_size : length (masterKey this) = 32%nat.
Hypothesis iv_size : length (randomBytes this 16) = 16%nat.

Lemma encrypt_succeeds (text : jsstring) : exists secret, encrypt this text = Ok secret.
Proof.
  unfold encrypt, aes_256_cbc_encrypt. rewrite key_size, iv_size. cbn [Nat.eqb negb].
  eexists. reflexivity.
Qed.

Lemma decrypt_encrypt (text : jsstring) (secret : EncryptedKey) :
  Forall (fun c => c <= 127) text ->
  encrypt this text = Ok secret ->
  decrypt this (encrypted secret) (iv secret) = Ok text.
Proof.
  intros Hascii. unfold encrypt, decrypt.
  destruct (aes_256_cbc_encrypt (cipher this) (masterKey this) (randomBytes this 16)
              (utf8_encode text)) as [out|e] eqn:Henc; [|discriminate].
  intros Hs. injection Hs as <-. cbn [encrypted iv].
  rewrite !hex_decode_encode.
  rewrite (aes_256_cbc_round_trip (cipher this) (masterKey this) laws key_size _ _ _
             iv_size Henc).
  now rewrite utf8_round_trip_ascii.
Qed.

Lemma lookup_saved (provider : jsstring) (secret : EncryptedKey)
    (m : gmap jsstring ProviderConfig) :
  credentials
    match m !! provider with
    | None => {| credentials := <[provider := {| apiKey := Some secret |}]> m |}
    | Some _ =>
        {| credentials := alter (fun _ => {| apiKey := Some secret |}) provider m |}
    end !! provider
  = Some {| apiKey := Some secret |}.
Proof.
  destruct (m !! provider) as [config|] eqn:Hm; cbn [credentials].
  - rewrite lookup_alter_eq, Hm. reflexivity.
  - apply lookup_insert_eq.
Qed.

End Manager.

(** C6: for every provider of the closed set and every key made of printable
    ASCII characters, whether the credentials file is missing, unparsable or
    a document of the declared type, [saveCredentials] succeeds and
    [getCredentials] on the disk it leaves returns exactly that key,
    provided
    the block cipher is invertible, the master key has 32 bytes and
    [randomBytes(16)] gives 16 bytes. *)
Theorem vault_round_trip (this : CredentialsManager) (d : Disk) (p k : jsstring) :
  BlockCipherLaws (cipher this) ->
  length (masterKey this) = 32%nat ->
  length (randomBytes this 16) = 16%nat ->
  In p allProviders ->
  printable_ascii k ->
  fst (saveCredentials this p k d) = Ok tt
  /\ getCredentials this p (snd (saveCredentials this p k d)) = Ok (Some k).
Proof.
  intros Hlaws Hkey Hiv _ Hk.
  destruct (encrypt_succeeds this Hkey Hiv k) as [secret Hsecret].
  unfold saveCredentials. rewrite Hsecret. cbn [fst snd].
  split; [reflexivity|].
  unfold getCredentials, writeCredentialsData, readCredentialsData at 1.
  cbn [configDir credentialsFile credentials].
  rewrite lookup_saved.
  now rewrite (decrypt_encrypt this Hlaws Hkey Hiv k secret (printable_is_ascii k Hk) Hsecret).
Qed.

Lemma toy_cipher_laws : BlockCipherLaws toy_cipher.
Proof.
  split; intros key block Hkey Hblock; cbn [E D toy_cipher].
  - rewrite xor_bytes_length; [exact Hblock|]. rewrite length_firstn. lia.
  - rewrite xor_bytes_length by (rewrite length_firstn; lia).
    apply xor_bytes_involutive. rewrite length_firstn. lia.
Qed.

Lemma vault_round_trip_witness :
  BlockCipherLaws (cipher toy_manager)
  /\ length (masterKey toy_manager) = 32%nat
  /\ length (randomBytes toy_manager 16) = 16%nat
  /\ In (js "openai") allProviders
  /\ printable_ascii (js "sk-test-123")
  /\ fst (saveCredentials toy_manager (js "openai") (js "sk-test-123") blank_disk) = Ok tt
  /\ getCredentials toy_manager (js "openai")
       (snd (saveCredentials toy_manager (js "openai") (js "sk-test-123") blank_disk))
     = Ok (Some (js "sk-test-123")).
Proof.
  assert (Hp : In (js "openai") allProviders) by (right; left; reflexivity).
  assert (Hk : printable_ascii (js "sk-test-123")).
  { unfold printable_ascii. repeat constructor; vm_compute; discriminate. }
  split; [exact toy_cipher_laws|]. split; [reflexivity|]. split; [reflexivity|].
  split; [exact Hp|]. split; [exact Hk|].
  exact (vault_round_trip toy_manager blank_disk (js "openai") (js "sk-test-123")
           toy_cipher_laws eq_refl eq_refl Hp Hk).
Defined.

(** The round trip on the toy manager, by running the code. *)
Example vault_round_trip_run :
  let d' := snd (saveCredentials toy_manager (js "gemini") (js "AIza-key") damaged_disk) in
  getCredentials toy_manager (js "gemini") d' = Ok (Some (js "AIza-key"))
  /\ getCredentials toy_manager (js "openai") d' = Throw InvalidIV
  /\ getCredentials toy_manager (js "anthropic") d' = Ok None.
Proof. vm_compute. auto. Qed.

(** C7: [getCredentials] answers [undefined], without error, when the file
    is missing, when it cannot be parsed and when it holds no record for
    the provider; when it holds a record that fails to decrypt, the error of
    the decryption is the outcome of [getCredentials]. *)
Theorem getCredentials_absent_or_error (this : CredentialsManager) (p : jsstring)
    (d : Disk) :
  (credentialsFile d = Missing \/ credentialsFile d = Unparsable
   \/ stored_record d p = None ->
   getCredentials this p d = Ok None)
  /\ (forall key e,
         stored_record d p = Some key ->
         decrypt this (encrypted key) (iv key) = Throw e ->
         getCredentials this p d = Throw e).
Proof.
  unfold getCredentials, readCredentialsData, stored_record. split.
  - intros [H | [H | H]].
    + rewrite H. destruct (configDir d); reflexivity.
    + rewrite H. destruct (configDir d); reflexivity.
    + destruct (configDir d); [|reflexivity].
      destruct (credentialsFile d) as [| |[c|]]; try reflexivity.
      cbn [credentials]. destruct (c !! p) as [[[key|]]|]; [discriminate | reflexivity..].
  - intros key e Hrecord Hthrow.
    destruct (configDir d); [|discriminate].
    destruct (credentialsFile d) as [| |[c|]]; try discriminate.
    cbn [credentials]. destruct (c !! p) as [[[key'|]]|]; try discriminate.
    injection Hrecord as ->. now rewrite Hthrow.
Qed.

Lemma getCredentials_absent_or_error_witness :
  (credentialsFile blank_disk = Missing
   /\ getCredentials toy_manager (js "openai") blank_disk = Ok None)
  /\ (stored_record damaged_disk (js "openai")
      = Some {| iv := js "6465"; encrypted := js "6765cca1febc5d50575606010c420610" |}
      /\ decrypt toy_manager (js "6765cca1febc5d50575606010c420610") (js "6465")
         = Throw InvalidIV
      /\ getCredentials toy_manager (js "openai") damaged_disk = Throw InvalidIV).
Proof.
  split.
  - split; [reflexivity|].
    apply (proj1 (getCredentials_absent_or_error toy_manager (js "openai") blank_disk)).
    left. reflexivity.
  - assert (Hr : stored_record damaged_disk (js "openai")
                 = Some {| iv := js "6465";
                           encrypted := js "6765cca1febc5d50575606010c420610" |})
      by (vm_compute; reflexivity).
    assert (Hd : decrypt toy_manager (js "6765cca1febc5d50575606010c420610") (js "6465")
                 = Throw InvalidIV) by (vm_compute; reflexivity).
    split; [exact Hr|]. split; [exact Hd|].
    exact (proj2 (getCredentials_absent_or_error toy_manager (js "openai") damaged_disk)
             _ _ Hr Hd).
Defined.

(** * Further properties of the code *)

(** ** Sessions of [executeCommand] in general *)

Lemma accepted_app (h1 h2 : History) : accepted (h1 ++ h2) = accepted h1 ++ accepted h2.
Proof. unfold accepted. now rewrite confirmations_app, List.filter_app. Qed.

(** What [consult] adds to the history: one request, no launch, and at most
    one confirmation; the retry it advises is one the user accepted. *)
Lemma consult_shape (w : World) (service : Service) (command error : jsstring)
    (attempts : nat) (options : Options) (h1 : History) :
  match consult w service command attempts options error h1 with
  | GiveUp e h' =>
      exists t, h' = h1 ++ t /\ spawns t = [] /\ length (requests t) = 1%nat
                /\ (confirmations t = [] \/ confirmations t = [false])
  | Retry c h7 =>
      exists t, h7 = h1 ++ t /\ spawns t = [] /\ length (requests t) = 1%nat
                /\ confirmations t = [true]
  end.
Proof.
  unfold consult, announce, report_failure, say.
  destruct (failure _) as [err|].
  - eexists. split; [rewrite <- !app_assoc; reflexivity|]. cbn. auto.
  - destruct (JS.eqb _ command).
    + eexists. split; [rewrite <- !app_assoc; reflexivity|]. cbn. auto.
    + destruct (confirm w _) eqn:Hanswer.
      * eexists. split; [rewrite <- !app_assoc; reflexivity|]. cbn. auto.
      * eexists. split; [rewrite <- !app_assoc; reflexivity|]. cbn. auto.
Qed.

Ltac conjuncts := repeat match goal with |- _ /\ _ => split end.

Ltac side :=
  try (unfold maxAttempts in *; lia);
  try (split; intros; first [discriminate | reflexivity | congruence]);
  try (constructor; [eexists; reflexivity | first [constructor | assumption]]).

Section AnySession.

Variables (w : World) (service : Service) (options : Options).

(** The shape of every session, whatever the world and the model do. *)
Lemma session_shape (n : nat) :
  forall command attempts h,
    (maxAttempts - attempts <= n)%nat ->
    exists t,
      snd (executeCommand w service command attempts options h) = h ++ t
      /\ length (spawns t) = S (length (accepted t))
      /\ (length (spawns t) <= Nat.max 1 (maxAttempts - attempts))%nat
      /\ (length (confirmations t) <= length (requests t)
          <= S (length (confirmations t)))%nat
      /\ (length (requests t) <= maxAttempts - 1 - attempts)%nat
      /\ (fst (executeCommand w service command attempts options h) = Resolved
          <-> last_launch_error t = Some None)
      /\ Forall (fun s => exists c, fst s = launch_of c options) (spawns t).
Proof.
  induction n as [|n IH]; intros command attempts h Hn;
    rewrite executeCommand_body; unfold run_child;
    set (l := launch_of command options); set (out := executor w h l).
  - (* no retry left *)
    destruct (exec_error out) as [error|] eqn:He.
    + destruct (le_lt_dec (maxAttempts - 1) attempts) as [_|Hlt]; [|lia].
      unfold abandon, report_failure, say. eexists.
      split; [cbn [snd]; rewrite <- !app_assoc; reflexivity|].
      unfold last_launch_error. cbn. rewrite He.
      conjuncts; side.
    + unfold say. eexists. split; [cbn [snd]; rewrite <- !app_assoc; reflexivity|].
      unfold last_launch_error. cbn. rewrite He.
      conjuncts; side.
  - destruct (exec_error out) as [error|] eqn:He.
    + destruct (le_lt_dec (maxAttempts - 1) attempts) as [Hge|Hlt].
      * unfold abandon, report_failure, say. eexists.
        split; [cbn [snd]; rewrite <- !app_assoc; reflexivity|].
        unfold last_launch_error. cbn. rewrite He.
        conjuncts; side.
      * pose proof (consult_shape w service command error attempts options
                      (h ++ [Spawned l out])) as Hshape.
        destruct (consult w service command attempts options error (h ++ [Spawned l out]))
          as [e h' | c h7].
        -- destruct Hshape as (t & -> & Hs & Hr & Hc).
           exists ([Spawned l out] ++ t).
           split; [cbn [snd]; rewrite <- app_assoc; reflexivity|].
           unfold last_launch_error.
           rewrite accepted_app, spawns_app, requests_app, confirmations_app, Hs.
           unfold accepted. cbn [fst spawns requests confirmations omap list_omap app last].
           rewrite He.
           assert (Hacc : List.filter (fun answer : bool => answer) (confirmations t) = [])
             by (destruct Hc as [-> | ->]; reflexivity).
           rewrite Hacc. cbn.
           conjuncts; try (destruct Hc as [-> | ->]; cbn; lia); side.
        -- destruct Hshape as (t & -> & Hs & Hr & Hc).
           destruct (IH c (S attempts) ((h ++ [Spawned l out]) ++ t) ltac:(lia))
             as (t' & Hsnd & Hlaunch & Hbound & Hreq & Hreq' & Hres & Hall).
           remember (executeCommand w service c (S attempts) options
                       ((h ++ [Spawned l out]) ++ t)) as r eqn:Hr'.
           assert (Hnz : spawns t' <> []) by (intros E; rewrite E in Hlaunch; discriminate).
           assert (Hlast : last_launch_error (([Spawned l out] ++ t) ++ t')
                           = last_launch_error t').
           { unfold last_launch_error. rewrite !spawns_app, Hs. cbn [app].
             change (spawns [Spawned l out]) with [(l, out)].
             destruct (spawns t') as [|s ss]; [contradiction | reflexivity]. }
           clear Hr'. destruct r as [[|err] h8]; cbn [snd fst through_catch] in *; subst h8.
           ++ exists (([Spawned l out] ++ t) ++ t').
              split; [rewrite <- !app_assoc; reflexivity|].
              rewrite Hlast.
              rewrite !accepted_app, !spawns_app, !requests_app, !confirmations_app, Hs, Hc.
              unfold accepted at 1 2. cbn [spawns requests confirmations omap list_omap app].
              rewrite Hc. cbn. rewrite !length_app. cbn.
              conjuncts; try tauto; side.
           ++ exists ((([Spawned l out] ++ t) ++ t') ++ [SpinnerStop]).
              split; [rewrite <- !app_assoc; reflexivity|].
              assert (Hstop : last_launch_error
                                ((([Spawned l out] ++ t) ++ t') ++ [SpinnerStop])
                              = last_launch_error t').
              { rewrite <- Hlast. unfold last_launch_error.
                now rewrite (spawns_app _ [SpinnerStop]), app_nil_r. }
              rewrite Hstop.
              rewrite !accepted_app, !spawns_app, !requests_app, !confirmations_app, Hs, Hc.
              unfold accepted at 1 2 4.
              cbn [spawns requests confirmations omap list_omap app].
              rewrite Hc. cbn. rewrite !app_nil_r, !length_app. cbn.
              conjuncts; try tauto; rewrite ?app_nil_r; side.
    + unfold say. eexists. split; [cbn [snd]; rewrite <- !app_assoc; reflexivity|].
      unfold last_launch_error. cbn. rewrite He.
      conjuncts; side.
Qed.

End AnySession.

(** X1: whatever the launcher, the model and the user do, a call of
    [executeCommand] only adds to the history; it launches at least one
    command and at most [maxAttempts - attempts] (one when none is left), and
    asks the model at most [maxAttempts - 1 - attempts] times: three launches
    and two requests for a session started at 0. *)
Theorem session_is_bounded (w : World) (service : Service) (options : Options)
    (command : jsstring) (attempts : nat) (h : History) :
  exists t,
    snd (executeCommand w service command attempts options h) = h ++ t
    /\ (1 <= length (spawns t) <= Nat.max 1 (maxAttempts - attempts))%nat
    /\ (length (requests t) <= maxAttempts - 1 - attempts)%nat.
Proof.
  destruct (session_shape w service options (maxAttempts - attempts) command attempts h
              (le_n _))
    as (t & Hsnd & Hlaunch & Hbound & _ & Hreq & _).
  exists t. split; [exact Hsnd|]. split; [lia | exact Hreq].
Qed.

(** X2: every launch of a session but the first follows a suggestion the
    user accepted: the launches are one more than the confirmations answered
    with yes, and every confirmation answers a request of its own. *)
Theorem retries_need_consent (w : World) (service : Service) (options : Options)
    (command : jsstring) (attempts : nat) (h : History) :
  exists t,
    snd (executeCommand w service command attempts options h) = h ++ t
    /\ length (spawns t) = S (length (accepted t))
    /\ (length (confirmations t) <= length (requests t))%nat.
Proof.
  destruct (session_shape w service options (maxAttempts - attempts) command attempts h
              (le_n _))
    as (t & Hsnd & Hlaunch & _ & Hconf & _).
  exists t. split; [exact Hsnd|]. split; [exact Hlaunch | lia].
Qed.

(** X3: a session resolves exactly when the last command it launched exited
    with code 0; otherwise it is rejected. *)
Theorem resolved_iff_last_launch_succeeded (w : World) (service : Service)
    (options : Options) (command : jsstring) (attempts : nat) (h : History) :
  exists t,
    snd (executeCommand w service command attempts options h) = h ++ t
    /\ (fst (executeCommand w service command attempts options h) = Resolved
        <-> last_launch_error t = Some None).
Proof.
  destruct (session_shape w service options (maxAttempts - attempts) command attempts h
              (le_n _))
    as (t & Hsnd & _ & _ & _ & _ & Hres & _).
  exists t. auto.
Qed.



(** X5: when the stream of the correction breaks, the session is rejected
    with the error of the stream: nothing is shown to the user and nothing
    more is launched. *)
Theorem broken_correction_stream_rejects (w : World) (service : Service)
    (options : Options) (command error : jsstring) (attempts : nat) (h : History)
    (e : Thrown) :
  (attempts < maxAttempts - 1)%nat ->
  exec_error (executor w h (launch_of command options)) = Some error ->
  failure (ask service
             (announce (h ++ [Spawned (launch_of command options)
                                (executor w h (launch_of command options))])
                command error attempts)
             [correction_request command options error]) = Some e ->
  exists h',
    executeCommand w service command attempts options h = (Rejected e, h')
    /\ spawns h'
       = spawns h ++ [(launch_of command options, executor w h (launch_of command options))]
    /\ confirmations h' = confirmations h.
Proof.
  intros Hlt He Hbroken.
  rewrite executeCommand_body, (run_child_failed _ _ _ _ _ He).
  destruct (le_lt_dec (maxAttempts - 1) attempts) as [Hge|_]; [lia|].
  unfold consult. rewrite Hbroken.
  eexists. split; [reflexivity|].
  project_history. auto.
Qed.

Lemma broken_correction_stream_rejects_witness :
  (0 < maxAttempts - 1)%nat
  /\ exec_error (executor failing_world [] (launch_of (js "ls") default_options))
     = Some (js "boom")
  /\ exists h',
       executeCommand failing_world broken_service (js "ls") 0 default_options []
       = (Rejected (JsError (js "socket hang up")), h')
       /\ spawns h'
          = spawns [] ++ [(launch_of (js "ls") default_options,
                           executor failing_world [] (launch_of (js "ls") default_options))]
       /\ confirmations h' = confirmations [].
Proof.
  assert (H1 : (0 < maxAttempts - 1)%nat) by (unfold maxAttempts; lia).
  split; [exact H1|]. split; [reflexivity|].
  exact (broken_correction_stream_rejects failing_world broken_service default_options
           (js "ls") (js "boom") 0 [] (JsError (js "socket hang up")) H1 eq_refl eq_refl).
Defined.

(** ** How a command is launched *)

Lemma search_class (member : code_unit -> bool) (prev : option code_unit) (s : jsstring) :
  search (Class member) prev s = existsb member s.
Proof.
  revert prev. induction s as [|c s IH]; intros prev; [reflexivity|].
  cbn [search matches_at existsb]. now rewrite andb_true_r, IH.
Qed.

Lemma test_control (command : jsstring) :
  Regex.test (OneOf "&|;") command = existsb is_control command.
Proof.
  unfold Regex.test, OneOf. rewrite search_class.
  induction command as [|c s IH]; [reflexivity|].
  cbn [existsb]. rewrite IH. f_equal.
  change (js "&|;") with [38; 124; 59]. unfold is_control. cbn [existsb].
  now rewrite orb_false_r, orb_assoc.
Qed.

Lemma split_not_nil (sep : code_unit) (s : jsstring) : split sep s <> [].
Proof.
  destruct s as [|c r]; cbn [split]; [discriminate|].
  destruct (c =? sep); [discriminate|]. destruct (split sep r); discriminate.
Qed.

Lemma join_split (sep : code_unit) (s : jsstring) : join sep (split sep s) = s.
Proof.
  induction s as [|c r IH]; [reflexivity|].
  cbn [split]. destruct (c =? sep) eqn:Hc.
  - apply N.eqb_eq in Hc. subst c.
    pose proof (split_not_nil sep r) as Hnz.
    destruct (split sep r) as [|p ps]; [contradiction|].
    cbn [join app] in *. now rewrite IH.
  - pose proof (split_not_nil sep r) as Hnz.
    destruct (split sep r) as [|p ps]; [contradiction|].
    destruct ps as [|q qs]; cbn [join app] in *; now rewrite <- IH.
Qed.

Lemma split_without_separator (sep : code_unit) (s : jsstring) :
  ~ In sep s -> split sep s = [s].
Proof.
  induction s as [|c r IH]; intros Hs; [reflexivity|].
  cbn [split]. destruct (c =? sep) eqn:Hc.
  - apply N.eqb_eq in Hc. subst c. exfalso. apply Hs. now left.
  - rewrite IH; [reflexivity|]. intros Hin. apply Hs. now right.
Qed.

Lemma split_with_separator (sep : code_unit) (s : jsstring) :
  In sep s -> exists p q qs, split sep s = p :: q :: qs /\ (length p < length s)%nat.
Proof.
  induction s as [|c r IH]; intros Hs; [destruct Hs|].
  cbn [split]. destruct (c =? sep) eqn:Hc.
  - pose proof (split_not_nil sep r) as Hnz.
    destruct (split sep r) as [|q qs]; [contradiction|].
    exists [], q, qs. split; [reflexivity | cbn; lia].
  - destruct Hs as [Hs|Hs]; [subst c; rewrite N.eqb_refl in Hc; discriminate|].
    destruct (IH Hs) as (p & q & qs & -> & Hlen).
    exists (c :: p), q, qs. split; [reflexivity | cbn; lia].
Qed.

(** X6: with [splitArgs], as for scripts, the program and its arguments are
    the words of the command between single spaces, so that joining them with
    spaces gives the command back; the command is launched as one program
    exactly when it holds no space, and a path with a space in it is cut at
    its first space. *)
Theorem split_args_cut_at_spaces (command : jsstring) (t : CommandType) :
  t <> git ->
  join 32 (program (launch_of command {| type := t; splitArgs := true |})
             :: args (launch_of command {| type := t; splitArgs := true |}))
  = command
  /\ (~ In 32 command ->
      program (launch_of command {| type := t; splitArgs := true |}) = command
      /\ args (launch_of command {| type := t; splitArgs := true |}) = [])
  /\ (In 32 command ->
      (length (program (launch_of command {| type := t; splitArgs := true |}))
       < length command)%nat
      /\ args (launch_of command {| type := t; splitArgs := true |}) <> []).
Proof.
  intros Ht.
  assert (Hl : launch_of command {| type := t; splitArgs := true |}
               = {| program := first (split 32 command);
                    args := slice1 (split 32 command);
                    in_shell := match t with shell => true | _ => false end |})
    by (destruct t; [contradiction | reflexivity..]).
  rewrite Hl. cbn [program args]. split; [|split].
  - pose proof (split_not_nil 32 command) as Hnz.
    pose proof (join_split 32 command) as Hj.
    destruct (split 32 command) as [|p ps]; [contradiction | exact Hj].
  - intros Hno. rewrite (split_without_separator 32 command Hno). split; reflexivity.
  - intros Hin. destruct (split_with_separator 32 command Hin) as (p & q & qs & -> & Hlen).
    split; [exact Hlen | discriminate].
Qed.

Lemma split_args_cut_at_spaces_witness :
  script <> git
  /\ join 32 (program (launch_of (js "/home/me/my project/.temp-x/script.bash")
                         {| type := script; splitArgs := true |})
                :: args (launch_of (js "/home/me/my project/.temp-x/script.bash")
                           {| type := script; splitArgs := true |}))
     = js "/home/me/my project/.temp-x/script.bash"
  /\ program (launch_of (js "/home/me/my project/.temp-x/script.bash")
                {| type := script; splitArgs := true |})
     = js "/home/me/my".
Proof.
  assert (H : script <> git) by discriminate.
  split; [exact H|]. split; [|reflexivity].
  exact (proj1 (split_args_cut_at_spaces (js "/home/me/my project/.temp-x/script.bash")
                  script H)).
Defined.

Lemma launch_of_git (command : jsstring) (options : Options) :
  type options = git ->
  launch_of command options
  = if existsb is_control command
    then {| program := command; args := []; in_shell := true |}
    else {| program := js "git"; args := slice1 (split 32 command); in_shell := false |}.
Proof. intros Ht. unfold launch_of. now rewrite Ht, test_control. Qed.

(** X7: in a git session, whatever the model suggests along the retries,
    every launch is either git itself, without a shell, or a shell given the
    whole text of a command that holds one of [&], [|] and [;]. *)
Theorem git_session_launches (w : World) (service : Service) (options : Options)
    (command : jsstring) (attempts : nat) (h : History) :
  type options = git ->
  exists t,
    snd (executeCommand w service command attempts options h) = h ++ t
    /\ Forall (fun s =>
                 (program (fst s) = js "git" /\ in_shell (fst s) = false)
                 \/ (in_shell (fst s) = true /\ args (fst s) = []
                     /\ existsb is_control (program (fst s)) = true))
         (spawns t).
Proof.
  intros Ht.
  destruct (session_shape w service options (maxAttempts - attempts) command attempts h
              (le_n _))
    as (t & Hsnd & _ & _ & _ & _ & _ & Hall).
  exists t. split; [exact Hsnd|].
  eapply Forall_impl; [exact Hall|]. cbn beta. intros s [c Hc].
  rewrite Hc, (launch_of_git c options Ht).
  destruct (existsb is_control c) eqn:Hctl; cbn [program args in_shell]; auto.
Qed.

Lemma git_session_launches_witness :
  type {| type := git; splitArgs := false |} = git
  /\ exists t,
       snd (executeCommand failing_world inventive_service (js "git add . && git commit")
              0 {| type := git; splitArgs := false |} [])
       = [] ++ t
       /\ Forall (fun s =>
                    (program (fst s) = js "git" /\ in_shell (fst s) = false)
                    \/ (in_shell (fst s) = true /\ args (fst s) = []
                        /\ existsb is_control (program (fst s)) = true))
            (spawns t).
Proof.
  split; [reflexivity|].
  exact (git_session_launches failing_world inventive_service
           {| type := git; splitArgs := false |} (js "git add . && git commit") 0 []
           eq_refl).
Defined.

(** ** More on the provider client *)

Lemma wire_end_anthropic (key model : jsstring) (net : Transport) (messages : list Message) :
  wire_end (js "anthropic") key model net messages
  = (cat (List.map anthropic_text (events (anthropic_wire key model net messages))),
     broken (anthropic_wire key model net messages)).
Proof. reflexivity. Qed.

Lemma wire_end_openai (key model : jsstring) (net : Transport) (messages : list Message) :
  wire_end (js "openai") key model net messages
  = (cat (List.map openai_text (events (openai_wire key model net messages))),
     broken (openai_wire key model net messages)).
Proof. reflexivity. Qed.

Lemma wire_end_gemini (key model : jsstring) (net : Transport) (messages : list Message) :
  wire_end (js "gemini") key model net messages
  = (cat (List.map gemini_text (events (gemini_wire key model net messages))),
     broken (gemini_wire key model net messages)).
Proof. reflexivity. Qed.

Lemma failure_rethrow (s : Stream) (e : Thrown) :
  failure s = Some e ->
  failure (rethrow s)
  = Some (JsError (message_or (js "Unknown error occurred while streaming chat") e)).
Proof. destruct s as [c f]. cbn. intros ->. destruct e; reflexivity. Qed.

(** X8: for each of the three providers, when the transport breaks after
    some events, [streamChat] has yielded the text carried so far and then
    throws: the error of the transport itself when it is an [Error], and
    otherwise an [Error] saying "Unknown error occurred while streaming
    chat".  There is no second request. *)
Theorem transport_error_surfaces (p key model : jsstring) (net : Transport)
    (messages : list Message) (e : Thrown) :
  In p allProviders ->
  (p = js "gemini" ->
   forallb gemini_unblocked (events (gemini_wire key model net messages)) = true) ->
  snd (wire_end p key model net messages) = Some e ->
  failure (streamChat (new_ProviderService p key model) net messages)
  = Some (JsError (message_or (js "Unknown error occurred while streaming chat") e))
  /\ cat (chunks (streamChat (new_ProviderService p key model) net messages))
     = fst (wire_end p key model net messages).
Proof.
  intros Hp Hclean Hend.
  destruct (provider_cases p Hp) as [-> | [-> | ->]].
  - rewrite wire_end_anthropic in *. cbn [fst snd] in *. rewrite streamChat_anthropic.
    destruct (pump_anthropic (events (anthropic_wire key model net messages))
                (broken (anthropic_wire key model net messages))) as [Hf Hc].
    split; [apply failure_rethrow; now rewrite Hf | exact Hc].
  - rewrite wire_end_openai in *. cbn [fst snd] in *. rewrite streamChat_openai.
    destruct (pump_openai (events (openai_wire key model net messages))
                (broken (openai_wire key model net messages))) as [Hf Hc].
    split; [apply failure_rethrow; now rewrite Hf | exact Hc].
  - rewrite wire_end_gemini in *. cbn [fst snd] in *. rewrite streamChat_gemini.
    destruct (pump_gemini (events (gemini_wire key model net messages))
                (broken (gemini_wire key model net messages)) (Hclean eq_refl)) as [Hf Hc].
    split; [apply failure_rethrow; now rewrite Hf | exact Hc].
Qed.

Lemma transport_error_surfaces_witness :
  In (js "openai") allProviders
  /\ snd (wire_end (js "openai") (js "key") (js "gpt-4") dropping_transport conversation)
     = Some NonError
  /\ failure (streamChat (new_ProviderService (js "openai") (js "key") (js "gpt-4"))
                dropping_transport conversation)
     = Some (JsError (js "Unknown error occurred while streaming chat"))
  /\ cat (chunks (streamChat (new_ProviderService (js "openai") (js "key") (js "gpt-4"))
                    dropping_transport conversation))
     = js "ls".
Proof.
  assert (Hp : In (js "openai") allProviders) by (right; left; reflexivity).
  split; [exact Hp|]. split; [reflexivity|].
  apply (transport_error_surfaces (js "openai") (js "key") (js "gpt-4") dropping_transport
           conversation NonError Hp).
  - intros H. discriminate H.
  - reflexivity.
Defined.

Lemma pump_openai_nonempty (evs : list OpenAIChunk) (fin : option Thrown) :
  Forall (fun fragment => fragment <> []) (chunks (pump openai_body evs fin)).
Proof.
  induction evs as [|ev evs IH]; cbn [pump chunks]; [constructor|].
  unfold openai_body at 1. destruct (openai_content ev) as [[|c t]|]; cbn [chunks];
    first [exact IH | constructor; [discriminate | exact IH]].
Qed.

Lemma pump_gemini_nonempty (evs : list GeminiChunk) (fin : option Thrown) :
  Forall (fun fragment => fragment <> []) (chunks (pump gemini_body evs fin)).
Proof.
  induction evs as [|ev evs IH]; cbn [pump chunks]; [constructor|].
  destruct ev as [[|c t]|e]; cbn [gemini_body chunks];
    first [exact IH | constructor; [discriminate | exact IH] | constructor].
Qed.

(** X9: the OpenAI and the Gemini branch never yield an empty fragment,
    whatever the transport sends. *)
Theorem no_empty_fragments (p key model : jsstring) (net : Transport)
    (messages : list Message) :
  p = js "openai" \/ p = js "gemini" ->
  Forall (fun fragment => fragment <> [])
    (chunks (streamChat (new_ProviderService p key model) net messages)).
Proof.
  intros [-> | ->].
  - rewrite streamChat_openai. apply pump_openai_nonempty.
  - rewrite streamChat_gemini. apply pump_gemini_nonempty.
Qed.

Lemma no_empty_fragments_witness :
  (js "gemini" = js "openai" \/ js "gemini" = js "gemini")
  /\ Forall (fun fragment => fragment <> [])
       (chunks (streamChat (new_ProviderService (js "gemini") (js "key") (js "gemini-pro"))
                  (mock_transport [js "ls "; []; js "-la"]) conversation)).
Proof.
  assert (H : js "gemini" = js "openai" \/ js "gemini" = js "gemini") by (right; reflexivity).
  split; [exact H|].
  exact (no_empty_fragments (js "gemini") (js "key") (js "gemini-pro")
           (mock_transport [js "ls "; []; js "-la"]) conversation H).
Defined.

(** The Anthropic branch has no such filter: an empty text delta is
    yielded. *)
Example anthropic_yields_empty_fragments :
  chunks (streamChat (new_ProviderService (js "anthropic") (js "key") (js "m"))
            (mock_transport [js "ls "; []; js "-la"]) conversation)
  = [js "ls "; []; js "-la"].
Proof. reflexivity. Qed.


(** ** Listing the configured providers *)

Import Listing.

Lemma has_key_stored (d : Disk) (p : jsstring) :
  has_key (readCredentialsData d) p = true <-> stored_record d p <> None.
Proof.
  unfold has_key, readCredentialsData, stored_record.
  destruct (configDir d);
    [|cbn [credentials]; rewrite lookup_empty; split; [discriminate | contradiction]].
  destruct (credentialsFile d) as [| |[c|]]; cbn [credentials];
    try (rewrite lookup_empty; split; [discriminate | contradiction]).
  destruct (c !! p) as [[[key|]]|]; split; try discriminate; try contradiction; auto.
Qed.

Lemma getCredentials_stored (this : CredentialsManager) (d : Disk) (p : jsstring) :
  getCredentials this p d <> Ok None <-> stored_record d p <> None.
Proof.
  unfold getCredentials, readCredentialsData, stored_record.
  destruct (configDir d); [|cbn [credentials]; rewrite lookup_empty; split; contradiction].
  destruct (credentialsFile d) as [| |[c|]]; cbn [credentials];
    try (rewrite lookup_empty; split; contradiction).
  destruct (c !! p) as [[[key|]]|]; try (split; contradiction).
  destruct (decrypt this (encrypted key) (iv key)); split; discriminate.
Qed.

Lemma includes_filter (f : jsstring -> bool) (l : list jsstring) (x : jsstring) :
  In x l -> includes (List.filter f l) x = f x.
Proof.
  intros Hx. unfold includes.
  destruct (f x) eqn:Hf.
  - apply existsb_exists. exists x. split; [|apply eqb_refl].
    apply filter_In. auto.
  - destruct (existsb (JS.eqb x) (List.filter f l)) eqn:He; [|reflexivity].
    apply existsb_exists in He as (y & Hy & Hxy).
    apply eqb_eq in Hxy. subst y. apply filter_In in Hy as [_ Hy]. congruence.
Qed.

Lemma filter_partition (f : jsstring -> bool) (l : list jsstring) :
  Permutation (List.filter f l ++ List.filter (fun x => negb (f x)) l) l.
Proof.
  induction l as [|x l IH]; [constructor|].
  cbn [List.filter]. destruct (f x); cbn [negb app].
  - now constructor.
  - rewrite <- Permutation_middle. now constructor.
Qed.

(** X11: [listProviders] sorts the three providers into two lists without
    losing or repeating one, and a provider is listed as configured exactly
    when [getCredentials] does not answer [undefined] for it: a record that
    cannot be decrypted still counts as configured. *)
Theorem listProviders_partitions (this : CredentialsManager) (d : Disk) :
  Permutation (fst (listProviders d) ++ snd (listProviders d)) allProviders
  /\ (forall p, In p (fst (listProviders d))
                <-> In p allProviders /\ getCredentials this p d <> Ok None).
Proof.
  unfold listProviders. cbn [fst snd]. split.
  - assert (Hrest :
              List.filter
                (fun provider =>
                   negb (includes (List.filter (has_key (readCredentialsData d)) allProviders)
                           provider)) allProviders
              = List.filter (fun x => negb (has_key (readCredentialsData d) x)) allProviders).
    { apply List.filter_ext_in. intros p Hp. now rewrite includes_filter. }
    rewrite Hrest. apply filter_partition.
  - intros p. rewrite filter_In, has_key_stored, getCredentials_stored. reflexivity.
Qed.

Lemma read_after_mkdir (d : Disk) :
  coherent d -> readCredentialsData (ensureConfigDir d) = readCredentialsData d.
Proof.
  unfold coherent, readCredentialsData, ensureConfigDir. cbn [configDir credentialsFile].
  destruct (configDir d); [reflexivity|]. intros H. now rewrite H.
Qed.

(** X12: on a disk where the file does not exist without its directory, a
    successful [saveCredentials] for one provider leaves the answer of
    [getCredentials] for every other provider as it was, and lists the saved
    provider as configured. *)
Theorem saveCredentials_leaves_others (this : CredentialsManager) (d : Disk)
    (p q k : jsstring) :
  coherent d ->
  fst (saveCredentials this p k d) = Ok tt ->
  In p allProviders ->
  q <> p ->
  getCredentials this q (snd (saveCredentials this p k d)) = getCredentials this q d
  /\ In p (fst (listProviders (snd (saveCredentials this p k d)))).
Proof.
  intros Hd Hsave Hp Hq. unfold saveCredentials in *.
  destruct (encrypt this k) as [secret|e]; [|discriminate Hsave].
  cbn [snd]. rewrite (read_after_mkdir d Hd). split.
  - unfold getCredentials, writeCredentialsData, readCredentialsData at 1.
    cbn [configDir credentialsFile credentials].
    destruct (credentials (readCredentialsData d) !! p) eqn:Hlook; cbn [credentials].
    + now rewrite lookup_alter_ne by congruence.
    + now rewrite lookup_insert_ne by congruence.
  - unfold listProviders. cbn [fst]. apply filter_In. split; [exact Hp|].
    unfold has_key, writeCredentialsData, readCredentialsData at 1.
    cbn [configDir credentialsFile credentials].
    now rewrite lookup_saved.
Qed.

Lemma saveCredentials_leaves_others_witness :
  coherent damaged_disk
  /\ fst (saveCredentials toy_manager (js "gemini") (js "AIza-key") damaged_disk) = Ok tt
  /\ In (js "gemini") allProviders
  /\ js "openai" <> js "gemini"
  /\ getCredentials toy_manager (js "openai")
       (snd (saveCredentials toy_manager (js "gemini") (js "AIza-key") damaged_disk))
     = getCredentials toy_manager (js "openai") damaged_disk
  /\ In (js "gemini")
       (fst (listProviders
               (snd (saveCredentials toy_manager (js "gemini") (js "AIza-key")
                       damaged_disk)))).
Proof.
  assert (H1 : coherent damaged_disk) by (intros H; discriminate H).
  assert (H3 : In (js "gemini") allProviders) by (right; right; left; reflexivity).
  assert (H4 : js "openai" <> js "gemini") by discriminate.
  split; [exact H1|]. split; [reflexivity|]. split; [exact H3|]. split; [exact H4|].
  exact (saveCredentials_leaves_others toy_manager damaged_disk (js "gemini") (js "openai")
           (js "AIza-key") H1 eq_refl H3 H4).
Defined.

(** ** Configuration manager *)

Import Config.

Lemma readConfig_writeConfig (config : AppConfig) (d : ConfigDisk) :
  readConfig (writeConfig config d) = config.
Proof. reflexivity. Qed.



(** X14: the three writers of the configuration touch one thing each.
    Setting the default provider keeps every default model and the first-run
    flag; setting the default model of a provider keeps the default provider,
    the flag and the models of the other providers; [completeInitialSetup]
    clears the flag, which nothing else does, and keeps the rest.  A missing
    or unparsable file reads as a first run. *)
Theorem config_writers_are_independent (d : ConfigDisk) (p m : jsstring) :
  (forall q, getDefaultModel q (setDefaultProvider p d) = getDefaultModel q d)
  /\ isFirstRun (setDefaultProvider p d) = isFirstRun d
  /\ getDefaultProvider (setDefaultModel p m d) = getDefaultProvider d
  /\ isFirstRun (setDefaultModel p m d) = isFirstRun d
  /\ (forall q, q <> p -> getDefaultModel q (setDefaultModel p m d) = getDefaultModel q d)
  /\ isFirstRun (completeInitialSetup d) = false
  /\ getDefaultProvider (completeInitialSetup d) = getDefaultProvider d
  /\ (forall q, getDefaultModel q (completeInitialSetup d) = getDefaultModel q d)
  /\ (configFile d = NoConfig \/ configFile d = BadConfig -> isFirstRun d = true).
Proof.
  unfold getDefaultProvider, setDefaultProvider, getDefaultModel, setDefaultModel,
    isFirstRun, completeInitialSetup.
  rewrite !readConfig_writeConfig. cbn [defaultProvider providerConfigs isInitialSetup].
  repeat split; try reflexivity.
  - intros q Hq. rewrite lookup_alter_ne by congruence.
    destruct (providerConfigs (readConfig d) !! p); [reflexivity|].
    now rewrite lookup_insert_ne by congruence.
  - intros H. unfold readConfig. destruct (dir d); [|reflexivity].
    destruct H as [-> | ->]; reflexivity.
Qed.

Lemma config_writers_are_independent_witness :
  js "openai" <> js "gemini"
  /\ getDefaultModel (js "openai")
       (setDefaultModel (js "gemini") (js "gemini-pro") used_config)
     = getDefaultModel (js "openai") used_config
  /\ isFirstRun (setDefaultProvider (js "gemini")
                   {| dir := true; configFile := BadConfig |}) = true.
Proof.
  assert (H : js "openai" <> js "gemini") by discriminate.
  split; [exact H|]. split; [|reflexivity].
  exact (proj1 (proj2 (proj2 (proj2 (proj2
           (config_writers_are_independent used_config (js "gemini") (js "gemini-pro"))))))
           (js "openai") H).
Defined.

(** ** The review loop of the shell command generator *)

Lemma choices_app (h1 h2 : History) : menu_choices (h1 ++ h2) = menu_choices h1 ++ menu_choices h2.
Proof. apply omap_app. Qed.

Lemma edits_app (h1 h2 : History) : edits (h1 ++ h2) = edits h1 ++ edits h2.
Proof. apply omap_app. Qed.

Lemma final_text_after_edit (command answer : jsstring) (t1 t2 : History) (initial : jsstring) :
  edits t1 = [] ->
  final_text command (t1 ++ [Edited initial answer] ++ t2) = final_text answer t2.
Proof.
  intros H1. unfold final_text. rewrite !edits_app, H1. cbn [app edits omap list_omap].
  destruct (edits t2) as [|a l]; [reflexivity|].
  rewrite last_cons_cons.
  destruct (last (a :: l)) eqn:Hlast; [reflexivity|].
  apply last_None in Hlast. discriminate Hlast.
Qed.

(** What one call of [confirmCommand] adds to the history. *)
Lemma confirmCommand_shape (w : World) (command : jsstring) (dryRun : bool) (h : History) :
  exists t,
    snd (confirmCommand w command dryRun h) = h ++ t
    /\ spawns t = [] /\ edits t = []
    /\ (if dryRun
        then fst (confirmCommand w command dryRun h) = cancel /\ menu_choices t = []
        else menu_choices t = [fst (confirmCommand w command dryRun h)]).
Proof.
  unfold confirmCommand, say. destruct dryRun.
  - cbn [fst snd]. rewrite <- !app_assoc. eexists. split; [reflexivity|].
    cbn [spawns edits menu_choices omap list_omap app]. auto.
  - destruct (some_test dangerousPatterns command);
      cbn [fst snd]; rewrite <- !app_assoc; eexists; (split; [reflexivity|]);
      cbn [spawns edits menu_choices omap list_omap app]; auto.
Qed.

(** X15: whatever the user and the launcher do, a review that ends has
    launched at most one child.  When it launched none it returned; in a dry
    run it launches none and asks nothing.  When it launched one, the last
    choice of the user was to execute, the child is the user's shell given
    [-c] and the text as last edited, and the function returns exactly when
    the child exited with code 0; otherwise the process exits with status
    1. *)
Theorem review_launches_only_on_execute (fuel : nat) (w : World) :
  forall (command : jsstring) (dryRun : bool) (h h' : History) (ending : Ending),
    review fuel w command dryRun h = Some (ending, h') ->
    exists t,
      h' = h ++ t
      /\ (dryRun = true -> spawns t = [] /\ menu_choices t = [])
      /\ ((spawns t = [] /\ ending = Return)
          \/ (exists out,
                 spawns t
                 = [({| program := user_shell w; args := [js "-c"; final_text command t];
                        in_shell := false |}, out)]
                 /\ last (menu_choices t) = Some execute
                 /\ (ending = Return <-> exec_error out = None)
                 /\ (ending = Return \/ ending = Exit 1))).
Proof.
  induction fuel as [|fuel IH]; intros command dryRun h h' ending Hrun; [discriminate|].
  cbn [review] in Hrun.
  destruct (confirmCommand_shape w command dryRun h) as (t0 & Hsnd & Hs0 & He0 & Hc0).
  destruct (confirmCommand w command dryRun h) as [action h1]. cbn [fst snd] in *. subst h1.
  destruct action.
  - (* execute *)
    destruct dryRun; [destruct Hc0; discriminate|].
    set (l := {| program := user_shell w; args := [js "-c"; command]; in_shell := false |}) in *.
    assert (Hdone : forall out line,
               exists t,
                 ((h ++ t0) ++ [Spawned l out]) ++ [Log line] = h ++ t
                 /\ spawns t = [(l, out)]
                 /\ last (menu_choices t) = Some execute
                 /\ final_text command t = command).
    { intros out line. exists (t0 ++ [Spawned l out; Log line]).
      split; [now rewrite <- !app_assoc|].
      unfold final_text. rewrite spawns_app, choices_app, edits_app, Hs0, Hc0, He0.
      cbn [spawns menu_choices edits omap list_omap app last]. auto. }
    destruct (executor w (h ++ t0) l) as [m | [[|code]|] stderr] eqn:Hout;
      unfold fail_with, say in Hrun; injection Hrun as <- <-;
      match goal with
      | |- context [Spawned l ?out] =>
          match goal with
          | |- context [Log ?line] =>
              destruct (Hdone out line) as (t & -> & Hsp & Hch & Hfin)
          end
      end;
      exists t; (split; [reflexivity|]); (split; [discriminate|]);
      right; eexists; rewrite Hfin; (split; [exact Hsp|]); (split; [exact Hch|]);
      cbn [exec_error]; (split; [split; intros; first [reflexivity | discriminate] | auto]).
  - (* copy *)
    destruct dryRun; [destruct Hc0; discriminate|].
    injection Hrun as <- <-. unfold copyToClipboard, say.
    eexists. split; [rewrite <- !app_assoc; reflexivity|].
    split; [discriminate|]. left. rewrite !spawns_app, Hs0. auto.
  - (* edit *)
    destruct dryRun; [destruct Hc0; discriminate|].
    unfold editCommand in Hrun.
    apply IH in Hrun as (t & -> & _ & Hcases).
    exists (t0 ++ [Edited command (edit_text w (h ++ t0) command)] ++ t).
    split; [rewrite <- !app_assoc; reflexivity|]. split; [discriminate|].
    rewrite (final_text_after_edit command _ t0 t command He0).
    rewrite !spawns_app, !choices_app, Hs0, Hc0. cbn [app spawns menu_choices omap list_omap].
    destruct Hcases as [[Hs Hr] | (out & Hs & Hlast & Hret & Hend)].
    + left. auto.
    + right. exists out. rewrite Hs. split; [reflexivity|]. split; [|auto].
      destruct (menu_choices t) as [|a l]; [discriminate Hlast | exact Hlast].
  - (* cancel *)
    injection Hrun as <- <-. unfold say.
    eexists. split; [rewrite <- !app_assoc; reflexivity|].
    rewrite !spawns_app, !choices_app, Hs0. cbn.
    split; [|left; auto].
    intros ->. destruct Hc0 as [_ ->]. auto.
Qed.

Lemma review_launches_only_on_execute_witness :
  exists h',
    review 1 compliant_world (js "ls") false [] = Some (Return, h')
    /\ exists t,
         h' = [] ++ t
         /\ (false = true -> spawns t = [] /\ menu_choices t = [])
         /\ ((spawns t = [] /\ Return = Return)
             \/ (exists out,
                    spawns t
                    = [({| program := user_shell compliant_world;
                           args := [js "-c"; final_text (js "ls") t];
                           in_shell := false |}, out)]
                    /\ last (menu_choices t) = Some execute
                    /\ (Return = Return <-> exec_error out = None)
                    /\ (Return = Return \/ Return = Exit 1))).
Proof.
  eexists. split; [lazy; reflexivity|].
  apply (review_launches_only_on_execute 1 compliant_world (js "ls") false []).
  lazy. reflexivity.
Defined.

(** ** The edit prompt *)

Import EditPrompt.

Lemma search_after_start (r : regex) (c : code_unit) (s : jsstring) :
  search (Seq Bol r) (Some c) s = false.
Proof.
  revert c. induction s as [|x s IH]; intros c; cbn [search matches_at]; [reflexivity|].
  now rewrite IH.
Qed.

(** Iterating a class up to the end of the input. *)
Lemma class_to_the_end (member : code_unit -> bool) (n : nat) :
  forall (p : option code_unit) (t : jsstring),
    (length t <= n)%nat ->
    (fix iterate (fuel : nat) (p : option code_unit) (t : jsstring) {struct fuel} : bool :=
       match fuel with
       | O => matches_at (Seq Eol Eps) p t (fun _ _ => true)
       | S fuel' =>
           matches_at (Class member) p t
             (fun p' t' => (length t' <? length t)%nat && iterate fuel' p' t')
           || matches_at (Seq Eol Eps) p t (fun _ _ => true)
       end) n p t
    = forallb member t.
Proof.
  induction n as [|n IH]; intros p t Hlen.
  - destruct t; [reflexivity | cbn in Hlen; lia].
  - destruct t as [|x t]; [reflexivity|].
    cbn [matches_at forallb]. rewrite orb_false_r.
    cbn [length] in *.
    assert (Hlt : (length t <? S (length t))%nat = true) by (apply Nat.ltb_lt; lia).
    rewrite Hlt. cbn [andb]. f_equal. apply IH. lia.
Qed.

Lemma test_all_of_class (member : code_unit -> bool) (s : jsstring) :
  Regex.test (Cat [Bol; Plus (Class member); Eol]) s
  = match s with [] => false | _ :: _ => forallb member s end.
Proof.
  unfold Regex.test, Cat. cbn [fold_right].
  destruct s as [|x s].
  - reflexivity.
  - cbn [search]. rewrite search_after_start, orb_false_r.
    cbn [matches_at forallb]. f_equal.
    apply (class_to_the_end member (length s) (Some x) s). lia.
Qed.

Lemma forallb_all (f : code_unit -> bool) (s : jsstring) :
  forallb f s = true <-> Forall (fun c => f c = true) s.
Proof.
  induction s as [|c s IH]; cbn [forallb].
  - split; [constructor | reflexivity].
  - rewrite andb_true_iff, IH. split.
    + intros [Hc Hs]. now constructor.
    + intros H. inversion H; subst. auto.
Qed.

(** X16: the edit prompt accepts a text exactly when it is not blank, holds
    none of the characters [;], [&], [|], [>], [<], [$], the backquote and
    the backslash, and its first word, up to the first space after
    trimming, is made of letters, digits, [_], [-] and [.] only. *)
Theorem edit_prompt_accepts (value : jsstring) :
  validate value = Accepted
  <-> trim value <> []
      /\ Forall (fun c => is_dangerous c = false) value
      /\ first (split 32 (trim value)) <> []
      /\ Forall (fun c => is_name_char c = true) (first (split 32 (trim value))).
Proof.
  unfold validate, dangerousChars, Regex.test. rewrite search_class.
  fold (Regex.test commandName (first (split 32 (trim value)))).
  unfold commandName. rewrite test_all_of_class.
  assert (Hsafe : existsb is_dangerous value = false
                  <-> Forall (fun c => is_dangerous c = false) value).
  { induction value as [|c v IH]; cbn [existsb].
    - split; [constructor | reflexivity].
    - rewrite orb_false_iff, IH. split.
      + intros [Hc Hv]. now constructor.
      + intros H. inversion H; subst. auto. }
  destruct (trim value) as [|c r] eqn:Htrim.
  - split; [discriminate | intros [H _]; contradiction].
  - destruct (existsb is_dangerous value) eqn:Hd.
    + split; [discriminate|]. intros (_ & Hv & _). apply Hsafe in Hv. discriminate.
    + destruct (first (split 32 (c :: r))) as [|x w] eqn:Hw.
      * cbn [negb]. split; [discriminate | intros (_ & _ & H & _); contradiction].
      * destruct (forallb is_name_char (x :: w)) eqn:Hn; cbn [negb].
        -- split; [|reflexivity]. intros _.
           split; [discriminate|]. split; [now apply Hsafe|]. split; [discriminate|].
           now apply forallb_all.
        -- split; [discriminate|]. intros (_ & _ & _ & Hall).
           apply forallb_all in Hall. congruence.
Qed.

Example edit_prompt_examples :
  List.map validate [js "ls -la"; js "  git status"; js "   "; js "ls | wc"; js "./run.sh";
                     js "echo $HOME"; js "ls	-la"]
  = [Accepted; Accepted; Refused (js "Command cannot be empty");
     Refused (js "Command contains potentially dangerous characters. Please use simple commands.");
     Refused (js "Invalid command name");
     Refused (js "Command contains potentially dangerous characters. Please use simple commands.");
     Refused (js "Invalid command name")].
Proof. vm_compute. reflexivity. Qed.

(** ** The clean-up of a reply *)

Lemma collapse_only_spaces (b : bool) (s : jsstring) :
  Forall (fun c => is_space c = true -> c = 32) (collapse_from b s).
Proof.
  revert b. induction s as [|c s IH]; intros b; cbn [collapse_from]; [constructor|].
  destruct (is_space c) eqn:Hc.
  - destruct b; [apply IH|]. constructor; [reflexivity | apply IH].
  - constructor; [congruence | apply IH].
Qed.

Lemma collapse_single_spaced (b : bool) (s : jsstring) :
  single_spaced b (collapse_from b s) = true.
Proof.
  revert b. induction s as [|c s IH]; intros b; cbn [collapse_from]; [reflexivity|].
  destruct (is_space c) eqn:Hc.
  - destruct b; [apply IH|]. cbn [single_spaced]. rewrite N.eqb_refl. apply IH.
  - cbn [single_spaced]. destruct (c =? 32) eqn:H32; [|apply IH].
    apply N.eqb_eq in H32. subst c. discriminate Hc.
Qed.

Lemma single_spaced_no_double (s a b : jsstring) (p : bool) :
  single_spaced p s = true -> s <> a ++ 32 :: 32 :: b.
Proof.
  intros Hs ->. revert p Hs. induction a as [|x a IH]; intros p Hs.
  - cbn in Hs. rewrite andb_false_r in Hs. discriminate.
  - cbn [app single_spaced] in Hs. destruct (x =? 32).
    + apply andb_prop in Hs as [_ Hs]. now apply IH in Hs.
    + now apply IH in Hs.
Qed.

Lemma drop_spaces_head (s : jsstring) (c : code_unit) (r : jsstring) :
  drop_spaces s = c :: r -> is_space c = false.
Proof.
  induction s as [|x s IH]; cbn [drop_spaces]; [discriminate|].
  destruct (is_space x) eqn:Hx; [exact IH|]. intros H. injection H as <- <-. exact Hx.
Qed.

Lemma drop_spaces_suffix (s : jsstring) : exists a, s = a ++ drop_spaces s.
Proof.
  induction s as [|x s [a IH]]; cbn [drop_spaces]; [now exists []|].
  destruct (is_space x).
  - exists (x :: a). cbn [app]. now rewrite <- IH.
  - now exists [].
Qed.

(** The trimmed text lies inside the text. *)
Lemma trim_inside (s : jsstring) : exists a b, s = a ++ trim s ++ b.
Proof.
  unfold trim.
  destruct (drop_spaces_suffix s) as [a Ha].
  destruct (drop_spaces_suffix (rev (drop_spaces s))) as [b Hb].
  exists a, (rev b).
  rewrite <- rev_app_distr, <- Hb, rev_involutive. exact Ha.
Qed.

Lemma trim_ends (s : jsstring) :
  (forall c r, trim s = c :: r -> is_space c = false)
  /\ (forall r c, trim s = r ++ [c] -> is_space c = false).
Proof.
  unfold trim.
  destruct (drop_spaces_suffix (rev (drop_spaces s))) as [b Hb].
  split.
  - intros c r Hc.
    apply (f_equal (@rev _)) in Hb. rewrite rev_involutive, rev_app_distr, Hc in Hb.
    apply (drop_spaces_head s c (r ++ rev b)). exact Hb.
  - intros r c Hc.
    apply (f_equal (@rev _)) in Hc. rewrite rev_involutive, rev_app_distr in Hc.
    cbn [rev app] in Hc. now apply drop_spaces_head in Hc.
Qed.

(** X17: the clean-up applied to every reply that is to become a command
    gives a text on one line: its only white space is the single space, never
    twice in a row and neither at its start nor at its end. *)
Theorem normalize_is_tidy (s : jsstring) : tidy (normalize s).
Proof.
  unfold normalize, collapse_spaces.
  destruct (trim_inside (collapse_from false s)) as (a & b & Hin).
  destruct (trim_ends (collapse_from false s)) as [Hhead Hlast].
  pose proof (collapse_only_spaces false s) as Hall.
  pose proof (collapse_single_spaced false s) as Hss.
  split; [|split; [|split]].
  - rewrite Hin in Hall. apply Forall_app in Hall as [_ Hall].
    now apply Forall_app in Hall as [Hall _].
  - intros x y Hxy.
    apply (single_spaced_no_double _ (a ++ x) (y ++ b) false Hss).
    rewrite Hin at 1. rewrite Hxy. now rewrite <- !app_assoc.
  - exact Hhead.
  - exact Hlast.
Qed.

(** ** The script handed to the review *)

(** X18: for a bash or a python script, [generateScript] asks the model
    once, under a spinner it stops whether the stream breaks or not.  An error
    of the stream is the error it throws; a reply that ends normally and, once
    trimmed, holds no dollar sign stands in the script exactly where the
    template had its placeholder, with the rest of the template around it. *)
Theorem generateScript_inserts_reply (service : Service) (description : jsstring)
    (t : ScriptType) (h : History) :
  t <> node ->
  exists text reply,
    snd (generateScript service description t h)
    = h ++ [SpinnerStart text;
            Asked [Script.systemMessage t; Script.userMessage t description] reply;
            SpinnerStop]
    /\ match failure reply with
       | Some err => fst (generateScript service description t h) = inl err
       | None =>
           Forall (fun c => c <> 36) (trim (cat (chunks reply))) ->
           fst (generateScript service description t h)
           = inr (before_placeholder t ++ trim (cat (chunks reply)) ++ after_placeholder t)
       end.
Proof.
  intros Ht. unfold generateScript.
  set (h1 := h ++ [SpinnerStart _]).
  set (reply := ask service h1 _).
  eexists _, reply. split.
  - destruct (failure reply); cbn [snd]; subst h1; rewrite <- app_assoc; reflexivity.
  - destruct (failure reply); cbn [fst]; [reflexivity|].
    intros Hplain. f_equal. now apply fill_template_plain.
Qed.

Lemma generateScript_inserts_reply_witness :
  bash <> node
  /\ exists text reply,
       snd (generateScript stubborn_service (js "list files") bash [])
       = [] ++ [SpinnerStart text;
                Asked [Script.systemMessage bash; Script.userMessage bash (js "list files")]
                  reply;
                SpinnerStop]
       /\ match failure reply with
          | Some err => fst (generateScript stubborn_service (js "list files") bash []) = inl err
          | None =>
              Forall (fun c => c <> 36) (trim (cat (chunks reply))) ->
              fst (generateScript stubborn_service (js "list files") bash [])
              = inr (before_placeholder bash ++ trim (cat (chunks reply))
                       ++ after_placeholder bash)
          end.
Proof.
  split; [discriminate|].
  exact (generateScript_inserts_reply stubborn_service (js "list files") bash []
           ltac:(discriminate)).
Defined.

(** ** The generators built on the command executor *)


(** [consult] neither opens the review menu nor the edit prompt. *)
Lemma consult_quiet (w : World) (service : Service) (command error : jsstring)
    (attempts : nat) (options : Options) (h1 : History) :
  exists t,
    match consult w service command attempts options error h1 with
    | GiveUp _ h' => h' = h1 ++ t
    | Retry _ h7 => h7 = h1 ++ t
    end
    /\ menu_choices t = [] /\ edits t = [].
Proof.
  unfold consult, announce, report_failure, say.
  destruct (failure _); [|destruct (JS.eqb _ command); [|destruct (confirm w _)]];
    (eexists; split; [rewrite <- !app_assoc; reflexivity|]; cbn; auto).
Qed.

(** A session starts with the launch of its command and never opens the
    review menu or the edit prompt. *)
Lemma session_quiet (w : World) (service : Service) (options : Options) (n : nat) :
  forall command attempts h,
    (maxAttempts - attempts <= n)%nat ->
    exists t,
      snd (executeCommand w service command attempts options h)
      = h ++ Spawned (launch_of command options)
                (executor w h (launch_of command options)) :: t
      /\ menu_choices t = [] /\ edits t = [].
Proof.
  induction n as [|n IH]; intros command attempts h Hn;
    rewrite executeCommand_body; unfold run_child;
    set (l := launch_of command options); set (out := executor w h l).
  - destruct (exec_error out) as [error|] eqn:He.
    + destruct (le_lt_dec (maxAttempts - 1) attempts) as [_|Hlt];
        [|unfold maxAttempts in *; lia].
      unfold abandon, report_failure, say. eexists.
      split; [cbn [snd]; rewrite <- !app_assoc; reflexivity|]. cbn. auto.
    + unfold say. eexists. split; [cbn [snd]; rewrite <- !app_assoc; reflexivity|].
      cbn. auto.
  - destruct (exec_error out) as [error|] eqn:He.
    + destruct (le_lt_dec (maxAttempts - 1) attempts) as [Hge|Hlt].
      * unfold abandon, report_failure, say. eexists.
        split; [cbn [snd]; rewrite <- !app_assoc; reflexivity|]. cbn. auto.
      * destruct (consult_quiet w service command error attempts options
                    (h ++ [Spawned l out])) as (t & Hshape & Hm & He').
        destruct (consult w service command attempts options error (h ++ [Spawned l out]))
          as [e h' | c h7]; subst.
        -- exists t. split; [cbn [snd]; rewrite <- app_assoc; reflexivity | auto].
        -- destruct (IH c (S attempts) ((h ++ [Spawned l out]) ++ t)
                       ltac:(unfold maxAttempts in *; lia))
             as (t' & Hsnd & Hm' & He'').
           remember (executeCommand w service c (S attempts) options
                       ((h ++ [Spawned l out]) ++ t)) as r eqn:Hr'.
           clear Hr'. destruct r as [[|err] h8]; cbn [snd fst through_catch] in *; subst h8.
           ++ eexists. split; [rewrite <- !app_assoc; reflexivity|].
              unfold menu_choices, edits in *. rewrite !omap_app, Hm, He'. cbn.
              rewrite Hm', He''. auto.
           ++ eexists. split; [rewrite <- !app_assoc; reflexivity|].
              unfold menu_choices, edits in *. rewrite !omap_app, Hm, He'. cbn.
              rewrite ?omap_app, Hm', He''. auto.
    + unfold say. eexists. split; [cbn [snd]; rewrite <- !app_assoc; reflexivity|].
      cbn. auto.
Qed.




Section Reviews.

Variables (w : World) (service : Service) (r : Generators.Recipe) (dryRun : bool).


End Reviews.



(** The run of the witness: the reply is cleaned up, edited once, and git is
    launched without a shell on the edited text. *)
Example generateGitCommand_run :
  option_map (fun run => (fst run, spawns (snd run), menu_choices (snd run)))
    (Generators.generateGitCommand Generators.editing_world Generators.git_service (js "show the state")
       false 2 [])
  = Some (Return,
          [({| program := js "git"; args := [js "status"; js "--short"]; in_shell := false |},
            Exited (Some 0) [])],
          [edit; execute]).
Proof. vm_compute. reflexivity. Qed.



(** ** Running a generated script *)

(** X21: the execute branch of the script generator returns only after a
    session that resolved and a removal that succeeded, and then leaves no
    directory behind; in every other case the process exits with status 1,
    and once the temporary directory has been created it is left on the
    disk: by a write that fails, by a session that is rejected and by a
    removal that fails.  The first child of the session is the path of the
    script cut at its spaces and launched without a shell, and the session
    launches at most [maxAttempts] children. *)
Theorem failed_script_is_left_behind (fs : ScriptRun.Files) (w : World)
    (service : Service) (script : jsstring) (t : ScriptType) (h : History) :
  let run := ScriptRun.execute_script fs w service script t h in
  let created :=
    ScriptRun.mkdtemp fs (ScriptRun.path_join fs (ScriptRun.cwd fs) (js ".temp-")) in
  exists tr,
    snd (fst run) = h ++ tr
    /\ (fst (fst run) = Return \/ fst (fst run) = Exit 1)
    /\ (fst (fst run) = Return ->
        ScriptRun.left_behind (snd run) = [] /\ last_launch_error tr = Some None)
    /\ (fst (fst run) = Exit 1 ->
        forall dir, created = inr dir -> ScriptRun.left_behind (snd run) = [dir])
    /\ (length (spawns tr) <= maxAttempts)%nat
    /\ (forall l, head (spawns tr) = Some l ->
        exists dir,
          created = inr dir
          /\ fst l
             = {| program :=
                    first (split 32 (ScriptRun.path_join fs dir (js "script." ++ script_name t)));
                  args :=
                    slice1 (split 32 (ScriptRun.path_join fs dir
                                        (js "script." ++ script_name t)));
                  in_shell := false |}).
Proof.
  intros run created. subst run created. unfold ScriptRun.execute_script.
  set (prefix := ScriptRun.path_join fs (ScriptRun.cwd fs) (js ".temp-")).
  destruct (ScriptRun.mkdtemp fs prefix) as [error | dir] eqn:Hmk.
  - unfold fail_with, say. cbn [fst snd]. eexists. split; [reflexivity|].
    cbn. split; [now right|]. split; [discriminate|]. split; [discriminate|].
    split; [lia|]. discriminate.
  - set (path := ScriptRun.path_join fs dir (js "script." ++ script_name t)).
    destruct (ScriptRun.writeFile fs path script) as [error|] eqn:Hwr.
    + unfold fail_with, say. cbn [fst snd]. eexists. split; [reflexivity|].
      cbn. split; [now right|]. split; [discriminate|].
      split; [intros _ d Hd; now injection Hd as <-|]. split; [lia|]. discriminate.
    + destruct (session_shape w service ScriptRun.script_options (maxAttempts - 0) path 0 h
                  (le_n _))
        as (t1 & Hsnd1 & _ & Hbound & _ & _ & Hres & _).
      destruct (session_quiet w service ScriptRun.script_options (maxAttempts - 0) path 0 h
                  (le_n _))
        as (t2 & Hsnd2 & _ & _).
      rewrite Hsnd1 in Hsnd2. apply app_inv_head in Hsnd2.
      assert (Hfirst : forall l, head (spawns t1) = Some l ->
                exists d, @inr Thrown jsstring dir = inr d
                          /\ fst l
                             = {| program :=
                                    first (split 32 (ScriptRun.path_join fs d
                                                       (js "script." ++ script_name t)));
                                  args :=
                                    slice1 (split 32 (ScriptRun.path_join fs d
                                                        (js "script." ++ script_name t)));
                                  in_shell := false |}).
      { intros l Hl. exists dir. split; [reflexivity|].
        rewrite Hsnd2 in Hl. cbn in Hl. injection Hl as <-. reflexivity. }
      remember (executeCommand w service path 0 ScriptRun.script_options h) as r eqn:Hr.
      clear Hr. destruct r as [[|error] h1]; cbn [fst snd] in *; subst h1.
      * destruct (ScriptRun.rm fs dir) as [error|] eqn:Hrm.
        -- unfold fail_with, say. cbn [fst snd]. eexists (t1 ++ [Log _]).
           split; [now rewrite app_assoc|].
           rewrite spawns_app, app_nil_r.
           split; [now right|]. split; [discriminate|].
           split; [intros _ d Hd; now injection Hd as <-|].
           split; [cbn in Hbound; exact Hbound | exact Hfirst].
        -- cbn [fst snd]. exists t1. split; [reflexivity|]. split; [now left|].
           split.
           { intros _. split; [|now apply Hres].
             cbn. now rewrite eqb_refl. }
           split; [discriminate|].
           split; [cbn in Hbound; exact Hbound | exact Hfirst].
      * unfold fail_with, say. cbn [fst snd]. eexists (t1 ++ [Log _]).
        split; [now rewrite app_assoc|].
        rewrite spawns_app, app_nil_r.
        split; [now right|]. split; [discriminate|].
        split; [intros _ d Hd; now injection Hd as <-|].
        split; [cbn in Hbound; exact Hbound | exact Hfirst].
Qed.

(** Under a working directory with a space in its name the script is not
    what gets launched: the program is the path up to the space. *)
Example script_under_a_spaced_directory :
  List.map (fun s => program (fst s))
    (spawns (snd (fst (ScriptRun.execute_script ScriptRun.sound_files failing_world
                         stubborn_service (js "echo hi") bash []))))
  = [js "/home/me/my"; js "ls"].
Proof. vm_compute. reflexivity. Qed.

(** ** The models of a provider *)

Import Models.

Lemma precedes_total (a b : jsstring) : precedes a b = false -> precedes b a = true.
Proof.
  revert b. induction a as [|x a IH]; intros [|y b]; cbn [precedes]; try discriminate;
    [reflexivity|].
  destruct (N.ltb_spec x y), (N.ltb_spec y x), (N.eqb_spec x y), (N.eqb_spec y x);
    cbn; try discriminate; try reflexivity; try lia.
  apply IH.
Qed.

Lemma precedes_trans (a b c : jsstring) :
  precedes a b = true -> precedes b c = true -> precedes a c = true.
Proof.
  revert b c. induction a as [|x a IH]; intros [|y b] [|z c]; cbn [precedes];
    try discriminate; try reflexivity.
  destruct (N.ltb_spec x y), (N.ltb_spec y z), (N.ltb_spec x z),
    (N.eqb_spec x y), (N.eqb_spec y z), (N.eqb_spec x z);
    cbn; try discriminate; try reflexivity; try lia.
  apply IH.
Qed.

Lemma insert_sorted_all (P : jsstring -> Prop) (x : jsstring) (l : list jsstring) :
  P x -> Forall P l -> Forall P (insert_sorted x l).
Proof.
  intros Hx Hl. induction Hl as [|y r Hy Hr IH]; cbn [insert_sorted].
  - now constructor.
  - destruct (precedes x y); repeat constructor; assumption.
Qed.

Lemma insert_sorted_ascending (x : jsstring) (l : list jsstring) :
  ascending l -> ascending (insert_sorted x l).
Proof.
  induction l as [|y r IH]; cbn [insert_sorted ascending].
  - intros _. split; [constructor | exact I].
  - intros [Hy Hr]. destruct (precedes x y) eqn:Hxy; cbn [ascending].
    + split; [|split; assumption].
      constructor; [exact Hxy|].
      eapply Forall_impl; [exact Hy|]. cbn beta. intros b Hb.
      now apply (precedes_trans x y b).
    + split; [|now apply IH].
      apply insert_sorted_all; [now apply precedes_total | exact Hy].
Qed.

Lemma insert_sorted_permutation (x : jsstring) (l : list jsstring) :
  Permutation (insert_sorted x l) (x :: l).
Proof.
  induction l as [|y r IH]; cbn [insert_sorted]; [reflexivity|].
  destruct (precedes x y); [reflexivity|].
  rewrite IH. apply perm_swap.
Qed.

Lemma sort_ascending (l : list jsstring) : ascending (sort l).
Proof.
  induction l as [|x l IH]; cbn [sort fold_right]; [exact I|].
  now apply insert_sorted_ascending.
Qed.

Lemma sort_permutation (l : list jsstring) : Permutation (sort l) l.
Proof.
  induction l as [|x l IH]; cbn [sort fold_right]; [reflexivity|].
  rewrite insert_sorted_permutation. now constructor.
Qed.

(** X22: [getProviderModels] never rejects, whatever the provider and
    whatever the endpoints do: the fallback it spreads in its [catch] is
    only reached for a provider that has one.  For OpenAI every model it
    lists starts with [gpt-]: when the endpoint answers, the list is the
    identifiers of that kind, each as often as the endpoint gave it, in
    ascending order of their code units; when it fails, the three fallback
    models in the order of the source, which is not ascending. *)
Theorem getProviderModels_lists (net : Catalogue) (provider apiKey : jsstring) :
  (exists models, getProviderModels net provider apiKey = Some models)
  /\ (exists models,
         getProviderModels net (js "openai") apiKey = Some models
         /\ Forall (fun m => starts_with (js "gpt-") m = true) models
         /\ match openai_models net apiKey with
            | inr ids =>
                ascending models
                /\ Permutation models (List.filter (starts_with (js "gpt-")) ids)
            | inl _ =>
                models = [js "gpt-4-turbo"; js "gpt-4"; js "gpt-3.5-turbo"]
                /\ ~ ascending models
            end).
Proof.
  split.
  - unfold getProviderModels.
    destruct (JS.eqb provider (js "openai")) eqn:Ho.
    + apply eqb_eq in Ho. subst provider.
      destruct (openai_models net apiKey); eexists; reflexivity.
    + destruct (JS.eqb provider (js "anthropic")) eqn:Ha.
      * apply eqb_eq in Ha. subst provider.
        destruct (anthropic_models net apiKey); eexists; reflexivity.
      * destruct (JS.eqb provider (js "gemini")); eexists; reflexivity.
  - unfold getProviderModels.
    change (JS.eqb (js "openai") (js "openai")) with true. cbv iota.
    destruct (openai_models net apiKey) as [e | ids].
    + eexists. split; [reflexivity|]. split.
      * repeat constructor.
      * split; [reflexivity|]. intros [Hfirst _].
        inversion Hfirst as [|? ? _ Hrest]; subst.
        inversion Hrest as [|? ? Hbad _]; subst. discriminate Hbad.
    + eexists. split; [reflexivity|]. split; [|split].
      * assert (Hall : Forall (fun m => starts_with (js "gpt-") m = true)
                         (List.filter (starts_with (js "gpt-")) ids)).
        { induction ids as [|i ids IH]; cbn [List.filter]; [constructor|].
          destruct (starts_with (js "gpt-") i) eqn:Hi; [constructor|]; assumption. }
        revert Hall. generalize (List.filter (starts_with (js "gpt-")) ids).
        intros l Hl. induction Hl as [|y r Hy Hr IH]; cbn [sort fold_right];
          [constructor|].
        now apply insert_sorted_all.
      * apply sort_ascending.
      * apply sort_permutation.
Qed.

(** ** Printing a streamed reply *)

Import StreamHandler.

Lemma written_app (a b : list Output) : written (a ++ b) = written a ++ written b.
Proof. unfold written, cat. now rewrite omap_app, concat_app. Qed.

Lemma styles_app (a b : list Output) : styles (a ++ b) = styles a ++ styles b.
Proof. apply omap_app. Qed.

Lemma stops_app (a b : list Output) : stops (a ++ b) = (stops a + stops b)%nat.
Proof. unfold stops. now rewrite List.filter_app, length_app. Qed.

(** The stop of the spinner writes nothing. *)
Lemma stopped_is_silent (b : bool) :
  written (if b then [SpinnerStopped] else []) = []
  /\ styles (if b then [SpinnerStopped] else []) = [].
Proof. now destruct b. Qed.

(** The reply is gathered whatever the chunks hold. *)
Lemma loop_gathers (spinner : bool) (fragments : list jsstring) :
  forall st,
    fullResponse (fold_left (step spinner) fragments st)
    = fullResponse st ++ cat fragments.
Proof.
  induction fragments as [|c cs IH]; intros st; cbn [fold_left cat concat].
  - now rewrite app_nil_r.
  - rewrite IH. unfold step.
    destruct (includes c fence); [|destruct (isCodeBlock st)];
      cbn [fullResponse]; now rewrite <- app_assoc.
Qed.

(** Outside a code block, fragments without a fence are written as they
    come, in the plain style. *)
Lemma loop_echoes (spinner : bool) (fragments : list jsstring) :
  Forall (fun c => includes c fence = false) fragments ->
  forall st,
    isCodeBlock st = false ->
    written (out (fold_left (step spinner) fragments st))
    = written (out st) ++ cat fragments
    /\ styles (out (fold_left (step spinner) fragments st))
       = styles (out st) ++ List.repeat plain (length fragments).
Proof.
  induction 1 as [|c cs Hc Hcs IH]; intros st Hst; cbn [fold_left cat concat length].
  - cbn [List.repeat]. now rewrite !app_nil_r.
  - assert (Hnext : isCodeBlock (step spinner st c) = false)
      by (unfold step; now rewrite Hc, Hst).
    destruct (IH _ Hnext) as [Hw Hs]. rewrite Hw, Hs.
    unfold step. rewrite Hc, Hst. cbn [out].
    destruct (stopped_is_silent (spinner && isFirstChunk st)) as [Hq1 Hq2].
    rewrite !written_app, !styles_app, Hq1, Hq2.
    cbn [written styles omap list_omap cat concat app List.repeat].
    now rewrite !app_nil_r, <- !app_assoc.
Qed.

(** What [streamResponse] returns. *)
Lemma streamResponse_result (stream : Stream) (options : StreamOptions) :
  fst (streamResponse stream options)
  = match failure stream with
    | None => inr (cat (chunks stream))
    | Some error => inl (as_error error)
    end.
Proof.
  unfold streamResponse, scan.
  destruct (failure stream); cbn [fst]; [reflexivity|].
  now rewrite loop_gathers.
Qed.

Lemma opening_written (options : StreamOptions) :
  written (opening options)
  = match truthy (prefix options) with Some p => p | None => [] end
  /\ ~ In dim (styles (opening options)).
Proof.
  unfold opening.
  destruct (truthy (prefix options)), (truthy (spinnerText options)); cbn;
    rewrite ?app_nil_r; split; try reflexivity; intuition discriminate.
Qed.

(** What it writes for a reply without code fences. *)
Lemma streamResponse_written (stream : Stream) (options : StreamOptions) :
  Forall (fun c => includes c fence = false) (chunks stream) ->
  written (snd (streamResponse stream options))
  = match truthy (prefix options) with Some p => p | None => [] end
      ++ cat (chunks stream)
      ++ match failure stream with
         | None => if newline options then [10] else []
         | Some _ => []
         end.
Proof.
  intros Hplain. unfold streamResponse, scan.
  set (st0 := {| fullResponse := []; isFirstChunk := true; isCodeBlock := false;
                 out := opening options |}).
  destruct (loop_echoes (has_spinner options) (chunks stream) Hplain st0 eq_refl)
    as [Hw _].
  destruct (opening_written options) as [Ho _].
  destruct (failure stream) as [error|]; cbn [snd];
    rewrite written_app, Hw; cbn [out st0]; rewrite Ho.
  - destruct (stopped_is_silent (has_spinner options)) as [-> _].
    now rewrite !app_nil_r.
  - rewrite <- app_assoc. do 2 f_equal. now destruct (newline options).
Qed.

(** X23: [streamResponse] resolves with all the fragments of the stream put
    end to end, fenced or not, when the stream ends normally, and otherwise
    throws what the stream threw, made an [Error].  When no fragment holds a
    code fence, what it writes is the prefix, the fragments as they come and,
    after a stream that ended normally, the line feed asked for; nothing of
    it is dimmed. *)
Theorem streamResponse_echoes (stream : Stream) (options : StreamOptions) :
  fst (streamResponse stream options)
  = match failure stream with
    | None => inr (cat (chunks stream))
    | Some error => inl (as_error error)
    end
  /\ (Forall (fun c => includes c fence = false) (chunks stream) ->
      written (snd (streamResponse stream options))
      = match truthy (prefix options) with Some p => p | None => [] end
          ++ cat (chunks stream)
          ++ match failure stream with
             | None => if newline options then [10] else []
             | Some _ => []
             end
      /\ ~ In dim (styles (snd (streamResponse stream options)))).
Proof.
  split; [apply streamResponse_result|].
  intros Hplain. split; [now apply streamResponse_written|].
  unfold streamResponse, scan.
  set (st0 := {| fullResponse := []; isFirstChunk := true; isCodeBlock := false;
                 out := opening options |}).
  destruct (loop_echoes (has_spinner options) (chunks stream) Hplain st0 eq_refl)
    as [_ Hs].
  destruct (opening_written options) as [_ Ho].
  assert (Hrep : forall n, ~ In dim (List.repeat plain n)).
  { intros n Hin. apply List.repeat_spec in Hin. discriminate. }
  destruct (failure stream) as [error|]; cbn [snd];
    rewrite styles_app, Hs; cbn [out st0]; intros Hin;
    apply in_app_or in Hin as [Hin | Hin].
  - apply in_app_or in Hin as [Hin | Hin]; [now apply Ho | now apply Hrep in Hin].
  - destruct (has_spinner options); cbn in Hin; intuition discriminate.
  - apply in_app_or in Hin as [Hin | Hin]; [now apply Ho | now apply Hrep in Hin].
  - destruct (newline options); cbn in Hin; intuition discriminate.
Qed.

Lemma streamResponse_echoes_witness :
  fst (streamResponse {| chunks := [js "Hello"; js ", world"]; failure := None |}
         {| prefix := Some (js "Assistant: "); newline := true;
            spinnerText := Some (js "Thinking...") |})
  = inr (cat [js "Hello"; js ", world"])
  /\ (Forall (fun c => includes c fence = false) [js "Hello"; js ", world"] ->
      written (snd (streamResponse
                      {| chunks := [js "Hello"; js ", world"]; failure := None |}
                      {| prefix := Some (js "Assistant: "); newline := true;
                         spinnerText := Some (js "Thinking...") |}))
      = js "Assistant: " ++ cat [js "Hello"; js ", world"] ++ [10]
      /\ ~ In dim (styles (snd (streamResponse
                                  {| chunks := [js "Hello"; js ", world"]; failure := None |}
                                  {| prefix := Some (js "Assistant: "); newline := true;
                                     spinnerText := Some (js "Thinking...") |})))).
Proof.
  exact (streamResponse_echoes {| chunks := [js "Hello"; js ", world"]; failure := None |}
           {| prefix := Some (js "Assistant: "); newline := true;
              spinnerText := Some (js "Thinking...") |}).
Defined.

(** The spinner is never stopped less often as the loop goes on, and a
    first fragment stops it. *)
Lemma loop_stops (spinner : bool) (fragments : list jsstring) :
  forall st,
    (stops (out st) <= stops (out (fold_left (step spinner) fragments st)))%nat
    /\ (spinner = false ->
        stops (out (fold_left (step spinner) fragments st)) = stops (out st))
    /\ (spinner = true -> isFirstChunk st = true -> fragments <> [] ->
        (stops (out st) < stops (out (fold_left (step spinner) fragments st)))%nat).
Proof.
  induction fragments as [|c cs IH]; intros st; cbn [fold_left].
  - split; [lia|]. split; [reflexivity|]. intros _ _ Hne. contradiction.
  - destruct (IH (step spinner st c)) as (Hle & Hoff & _).
    assert (Hparts : forall parts i n, stops (write_parts parts i n) = 0%nat).
    { induction parts as [|part rest IHp]; intros i n; cbn [write_parts]; [reflexivity|].
      rewrite stops_app, IHp.
      destruct (Nat.even i); [destruct part; reflexivity|].
      destruct (i =? 1)%nat, (S (S i) =? n)%nat; reflexivity. }
    assert (Hstep : stops (out (step spinner st c))
                    = (stops (out st) + if spinner && isFirstChunk st then 1 else 0)%nat).
    { unfold step.
      destruct (includes c fence); [|destruct (isCodeBlock st)]; cbn [out];
        rewrite !stops_app, ?Hparts; destruct (spinner && isFirstChunk st); cbn; lia. }
    split; [lia|]. split.
    + intros ->. rewrite (Hoff eq_refl), Hstep. cbn. lia.
    + intros -> Hfirst _. rewrite Hfirst in Hstep. cbn in Hstep. lia.
Qed.

Lemma opening_stops (options : StreamOptions) : stops (opening options) = 0%nat.
Proof.
  unfold opening. destruct (truthy (prefix options)), (truthy (spinnerText options));
    reflexivity.
Qed.

(** How often [streamResponse] stops its spinner. *)
Lemma streamResponse_stops (stream : Stream) (options : StreamOptions) :
  (has_spinner options = false -> stops (snd (streamResponse stream options)) = 0%nat)
  /\ (has_spinner options = true ->
      (stops (snd (streamResponse stream options)) = 0%nat
       <-> chunks stream = [] /\ failure stream = None)).
Proof.
  unfold streamResponse, scan.
  set (st0 := {| fullResponse := []; isFirstChunk := true; isCodeBlock := false;
                 out := opening options |}).
  destruct (loop_stops (has_spinner options) (chunks stream) st0) as (Hle & Hoff & Hon).
  cbn [out st0 isFirstChunk] in *. rewrite opening_stops in *.
  split.
  - intros Hs. specialize (Hoff Hs). rewrite Hs in *.
    destruct (failure stream), (newline options); cbn [snd];
      rewrite stops_app, Hoff; reflexivity.
  - intros Hs. specialize (Hon Hs eq_refl). rewrite Hs in *.
    destruct (chunks stream) as [|c cs] eqn:Hc.
    + cbn [fold_left out st0] in *.
      destruct (failure stream), (newline options); cbn [snd];
        rewrite stops_app, opening_stops; cbn; split; try tauto; try discriminate;
        intros [_ H]; discriminate H.
    + specialize (Hon ltac:(discriminate)).
      destruct (failure stream), (newline options); cbn [snd]; rewrite stops_app;
        (split; [lia | intros [H _]; discriminate H]).
Qed.

(** X24: with a spinner, [streamResponse] leaves it spinning exactly when
    the stream ends normally without a fragment: the spinner is stopped by
    the turns of the loop and by the [catch] only.  Without a spinner text
    nothing is stopped. *)
Theorem spinner_left_spinning (stream : Stream) (options : StreamOptions)
    (text : jsstring) :
  truthy (spinnerText options) = Some text ->
  In (SpinnerStarted text) (snd (streamResponse stream options))
  /\ (stops (snd (streamResponse stream options)) = 0%nat
      <-> chunks stream = [] /\ failure stream = None).
Proof.
  intros Htext.
  assert (Hs : has_spinner options = true) by (unfold has_spinner; now rewrite Htext).
  split; [|now apply streamResponse_stops].
  unfold streamResponse, scan.
  set (st0 := {| fullResponse := []; isFirstChunk := true; isCodeBlock := false;
                 out := opening options |}).
  assert (Hkeep : forall fragments st,
             In (SpinnerStarted text) (out st) ->
             In (SpinnerStarted text)
               (out (fold_left (step (has_spinner options)) fragments st))).
  { induction fragments as [|c cs IH]; intros st Hin; cbn [fold_left]; [exact Hin|].
    apply IH. unfold step.
    destruct (includes c fence); [|destruct (isCodeBlock st)]; cbn [out];
      apply in_or_app; now left. }
  assert (Hin : In (SpinnerStarted text) (out st0)).
  { cbn [out st0]. unfold opening. rewrite Htext. apply in_or_app. right. now left. }
  apply (Hkeep (chunks stream)) in Hin.
  destruct (failure stream); cbn [snd]; apply in_or_app; now left.
Qed.

Lemma spinner_left_spinning_witness :
  truthy (Some (js "Generating response...")) = Some (js "Generating response...")
  /\ In (SpinnerStarted (js "Generating response..."))
       (snd (streamResponse {| chunks := []; failure := None |}
               {| prefix := None; newline := true;
                  spinnerText := Some (js "Generating response...") |}))
  /\ (stops (snd (streamResponse {| chunks := []; failure := None |}
                    {| prefix := None; newline := true;
                       spinnerText := Some (js "Generating response...") |})) = 0%nat
      <-> @nil jsstring = [] /\ @None Thrown = None).
Proof.
  split; [reflexivity|].
  exact (spinner_left_spinning {| chunks := []; failure := None |}
           {| prefix := None; newline := true;
              spinnerText := Some (js "Generating response...") |}
           (js "Generating response...") eq_refl).
Defined.

(** A fragment that holds a fence leaves [isFirstChunk] as it was: the
    spinner is stopped again at the next fragment. *)
Example spinner_stopped_twice :
  snd (streamResponse {| chunks := [[96; 96; 96] ++ js "ls" ++ [96; 96; 96]; js "done"];
                         failure := None |}
         {| prefix := None; newline := false; spinnerText := Some (js "Thinking...") |})
  = [SpinnerStarted (js "Thinking..."); SpinnerStopped;
     Write plain [10]; Write dim (js "ls"); Write plain [10];
     SpinnerStopped; Write plain (js "done")].
Proof. vm_compute. reflexivity. Qed.

(** X25: [handleMessage] sends the message as a single user turn and
    prints the reply under a spinner.  It resolves exactly when the stream of
    the provider ends normally, and what it throws otherwise is an [Error].
    The spinner it started is left spinning exactly when the provider yields
    nothing and ends normally.  A reply without code fences is written as it
    comes, followed by a line feed. *)
Theorem handleMessage_prints (net : Transport) (apiKey message provider model : jsstring) :
  let s := streamChat (new_ProviderService provider apiKey model) net
             [{| role := user; content := message |}] in
  let run := handleMessage net apiKey message provider model in
  (fst run = None <-> failure s = None)
  /\ (forall e, fst run = Some e -> exists m, e = JsError m)
  /\ head (snd run) = Some (SpinnerStarted (js "Generating response..."))
  /\ (stops (snd run) = 0%nat <-> chunks s = [] /\ failure s = None)
  /\ (failure s = None ->
      Forall (fun c => includes c fence = false) (chunks s) ->
      written (snd run) = cat (chunks s) ++ [10]).
Proof.
  intros s run. subst run. unfold handleMessage. fold s.
  set (options := {| prefix := None; newline := true;
                     spinnerText := Some (js "Generating response...") |}).
  pose proof (streamResponse_result s options) as Hres.
  pose proof (streamResponse_written s options) as Htext.
  destruct (streamResponse_stops s options) as [_ Hstops].
  specialize (Hstops eq_refl).
  assert (Hhead : head (snd (streamResponse s options))
                  = Some (SpinnerStarted (js "Generating response..."))).
  { unfold streamResponse, scan.
    assert (Hkeep : forall fragments st,
               head (out st) = Some (SpinnerStarted (js "Generating response...")) ->
               head (out (fold_left (step (has_spinner options)) fragments st))
               = Some (SpinnerStarted (js "Generating response..."))).
    { induction fragments as [|c cs IH]; intros st Hst; cbn [fold_left]; [exact Hst|].
      apply IH. unfold step.
      destruct (includes c fence); [|destruct (isCodeBlock st)]; cbn [out];
        destruct (out st); try discriminate Hst; exact Hst. }
    specialize (Hkeep (chunks s)
                  {| fullResponse := []; isFirstChunk := true; isCodeBlock := false;
                     out := opening options |} eq_refl).
    destruct (failure s); cbn [snd];
      match goal with
      | |- head (?o ++ _) = _ => destruct o; [discriminate Hkeep | exact Hkeep]
      end. }
  destruct (streamResponse s options) as [[error | reply] o]; cbn [fst snd] in *.
  - destruct (failure s) as [e|] eqn:Hf; [|discriminate Hres].
    split; [split; discriminate|]. split.
    + intros e' He'. injection He' as <-. destruct error; cbn; eauto.
    + split; [exact Hhead|]. split; [exact Hstops|]. discriminate.
  - destruct (failure s) as [e|] eqn:Hf; [discriminate Hres|].
    split; [tauto|]. split; [discriminate|]. split; [exact Hhead|].
    split; [exact Hstops|].
    intros _ Hplain. exact (Htext Hplain).
Qed.

(** For a provider outside the three, nothing is asked and nothing but the
    line feed is written, under a spinner that keeps spinning. *)
Example handleMessage_unknown_provider :
  handleMessage (mock_transport [js "hello"]) (js "key") (js "hi") (js "mistral") (js "m")
  = (None, [SpinnerStarted (js "Generating response..."); Write plain [10]]).
Proof. vm_compute. reflexivity. Qed.

(** Outside a fence, the state of the loop stays what it is. *)
Lemma loop_keeps_state (spinner : bool) (fragments : list jsstring) :
  Forall (fun c => includes c fence = false) fragments ->
  forall st,
    isCodeBlock (fold_left (step spinner) fragments st) = isCodeBlock st.
Proof.
  induction 1 as [|c cs Hc Hcs IH]; intros st; cbn [fold_left]; [reflexivity|].
  rewrite IH. unfold step. rewrite Hc. now destruct (isCodeBlock st).
Qed.

(** X26: whether the loop takes itself to be inside a code block depends
    on the last fragment that held a fence only: it is inside when that
    fragment was cut in an even number of parts, that is when it held an odd
    number of fences, whatever the fragments before it opened or closed.  A
    block opened in one fragment is therefore not closed by a fragment that
    holds the closing fence alone. *)
Theorem fence_state_forgets (options : StreamOptions) (before after : list jsstring)
    (c : jsstring) :
  includes c fence = true ->
  Forall (fun c => includes c fence = false) after ->
  isCodeBlock (scan options (before ++ c :: after))
  = Nat.even (length (split_on fence c)).
Proof.
  intros Hc Hafter. unfold scan.
  rewrite fold_left_app. cbn [fold_left].
  rewrite loop_keeps_state by exact Hafter.
  unfold step. now rewrite Hc.
Qed.

Lemma fence_state_forgets_witness :
  (includes [96; 96; 96] fence = true
   /\ Forall (fun c => includes c fence = false) [js "done"])
  /\ isCodeBlock (scan {| prefix := None; newline := true; spinnerText := None |}
                    ([[96; 96; 96] ++ js "sh"; js "ls"] ++ [96; 96; 96] :: [js "done"]))
     = Nat.even (length (split_on fence [96; 96; 96])).
Proof.
  split.
  - split; [reflexivity | repeat constructor].
  - apply (fence_state_forgets {| prefix := None; newline := true; spinnerText := None |}
             [[96; 96; 96] ++ js "sh"; js "ls"] [js "done"] [96; 96; 96]);
      [reflexivity | repeat constructor].
Defined.

(** The run of the witness: the text after the closing fence is dimmed. *)
Example closing_fence_alone :
  snd (streamResponse
         {| chunks := [[96; 96; 96] ++ js "sh"; js "ls"; [96; 96; 96]; js "done"];
            failure := None |}
         {| prefix := None; newline := false; spinnerText := None |})
  = [Write plain [10]; Write dim (js "sh"); Write dim (js "ls");
     Write plain [10]; Write dim []; Write dim (js "done")].
Proof. vm_compute. reflexivity. Qed.

(** The fuel of [split_on] is enough: every cut leaves a shorter text, so
    the branch of [split_at] without fuel is never taken. *)
Lemma find_first_shorter (p s before after : jsstring) :
  p <> [] -> find_first p s = Some (before, after) -> (length after < length s)%nat.
Proof.
  intros Hp. revert before after.
  induction s as [|c r IH]; intros before after.
  - destruct p; [contradiction | discriminate].
  - cbn [find_first]. destruct (starts_with p (c :: r)) eqn:Hs.
    + intros H. injection H as <- <-.
      destruct p as [|x p']; [contradiction|].
      rewrite length_skipn. cbn [length]. lia.
    + destruct (find_first p r) as [[b a]|]; [|discriminate].
      intros H. injection H as <- <-.
      specialize (IH b a eq_refl). cbn [length]. lia.
Qed.

Lemma split_at_enough (sep : jsstring) (n : nat) :
  sep <> [] ->
  forall s f1 f2,
    (length s <= n)%nat -> (length s <= f1)%nat -> (length s <= f2)%nat ->
    split_at f1 sep s = split_at f2 sep s.
Proof.
  intros Hsep. induction n as [|n IH]; intros s f1 f2 Hn H1 H2.
  - destruct s; [|cbn in Hn; lia].
    assert (Hnone : find_first sep [] = None) by (destruct sep; [contradiction | reflexivity]).
    destruct f1, f2; cbn [split_at]; now rewrite Hnone.
  - destruct f1, f2; cbn [split_at];
      destruct (find_first sep s) as [[b a]|] eqn:Hf; try reflexivity;
      pose proof (find_first_shorter sep s b a Hsep Hf) as Hlt; try lia.
    f_equal. apply IH; lia.
Qed.

(** ** The chat session *)

Import Chat.




Section Rooms.

Variables (room : Room) (bot : list Message -> Stream).


End Rooms.



(** The conversations sent in the run of the witness. *)
Example chat_run :
  option_map (fun run => List.map (List.map (fun m => (role m, content m)))
                           (requested (snd run)))
    (chat curious_room counting_bot (Some (js "hello")) 5)
  = Some [[(user, js "hello")];
          [(user, js "hello"); (assistant, js "answer 1"); (user, js "and a pipe?")]].
Proof. vm_compute. reflexivity. Qed.

(** ** The default action of the command line *)





(** ** The configuration command *)

Import Configure.









(** The run of a newcomer on a machine where the program never ran: the
    key typed is stored for the second provider offered, which becomes the
    default, with the second of its fallback models. *)
Example newcomer_run :
  let run := configureProvider toy_manager Cli.offline newcomer None fresh in
  fst run = None
  /\ getCredentials toy_manager (js "openai") (Cli.vault (snd run)) = Ok (Some (js "sk-test"))
  /\ Config.getDefaultProvider (Cli.settings (snd run)) = Some (js "openai")
  /\ Config.getDefaultModel (js "openai") (Cli.settings (snd run)) = Some (js "gpt-4").
Proof. vm_compute. auto. Qed.

Section Keys.

Variable this : CredentialsManager.
Hypothesis laws : BlockCipherLaws (cipher this).
Hypothesis key_size : length (masterKey this) = 32%nat.
Hypothesis iv_size : length (randomBytes this 16) = 16%nat.


End Keys.



